(** * VisionCharts: scales, nice domains, curves, indicators and stacking

    A shallow embedding of the numerical core of VisionCharts
    ([src/core/Scale.js], [src/components/Tooltip.js], the curve generator of
    [LineChart]/[CombinedChart] and [AreaChart.createStackedData]) and the
    properties its specification states about it.

    JavaScript numbers are embedded as real numbers with a [NaN]: arithmetic
    is exact (no rounding, no overflow, no signed zero).  The infinities
    are not represented: inputs range over the finite numbers and [NaN],
    and an operation whose IEEE result is infinite ([x / 0], [log 0]) yields
    [NaN] here.  Every theorem below is about inputs on which no
    intermediate value is infinite, where the two readings agree.

    The numbers the code computes with are binary64 floats, and rounding
    is the other difference.  A theorem that repeats the code's own
    operations in their order reads the same on floats.  A theorem whose
    statement needs the arithmetic to be exact (an identity obtained by
    cancellation, a bound met with equality) says so in its comment: it
    holds of the formulas, and of the floats up to rounding only.  Module
    [F64] repeats, on Rocq's primitive binary64 floats, the functions of
    which a property is proved on the floats themselves, or for which the
    difference is shown on concrete inputs. *)

From Stdlib Require Import Reals Lra Lia ZArith List String Ascii Sorted.
From Stdlib Require PrimFloat FloatOps SpecFloat FloatAxioms.
From stdpp Require Import gmap strings list.

Local Open Scope R_scope.

(** ** Numbers *)

Inductive num : Type :=
  | Fin (r : R)
  | NaN.

Definition nadd (a b : num) : num :=
  match a, b with Fin x, Fin y => Fin (x + y) | _, _ => NaN end.

Definition nsub (a b : num) : num :=
  match a, b with Fin x, Fin y => Fin (x - y) | _, _ => NaN end.

Definition nmul (a b : num) : num :=
  match a, b with Fin x, Fin y => Fin (x * y) | _, _ => NaN end.

Definition nneg (a : num) : num :=
  match a with Fin x => Fin (- x) | NaN => NaN end.

(** [a / b]; a zero divisor leaves the finite numbers. *)
Definition ndiv (a b : num) : num :=
  match a, b with
  | Fin x, Fin y => if Req_dec_T y 0 then NaN else Fin (x / y)
  | _, _ => NaN
  end.

(** [a === b] on numbers: [NaN] is not equal to itself. *)
Definition strict_eq (a b : num) : bool :=
  match a, b with
  | Fin x, Fin y => if Req_dec_T x y then true else false
  | _, _ => false
  end.

(** [a <= b], [a < b], [a >= b]: every comparison with [NaN] is false. *)
Definition nle (a b : num) : bool :=
  match a, b with
  | Fin x, Fin y => if Rle_dec x y then true else false
  | _, _ => false
  end.

Definition nlt (a b : num) : bool :=
  match a, b with
  | Fin x, Fin y => if Rlt_dec x y then true else false
  | _, _ => false
  end.

Definition nge (a b : num) : bool := nle b a.

(** [Math.log], [Math.log10], [Math.sqrt], [Math.floor], [Math.ceil]. *)
Definition Math_log (a : num) : num :=
  match a with
  | Fin x => if Rlt_dec 0 x then Fin (ln x) else NaN
  | NaN => NaN
  end.

Definition Math_log10 (a : num) : num :=
  match a with
  | Fin x => if Rlt_dec 0 x then Fin (ln x / ln 10) else NaN
  | NaN => NaN
  end.

Definition Math_sqrt (a : num) : num :=
  match a with
  | Fin x => if Rle_dec 0 x then Fin (sqrt x) else NaN
  | NaN => NaN
  end.

Definition Math_floor (a : num) : num :=
  match a with Fin x => Fin (IZR (Zfloor x)) | NaN => NaN end.

Definition Math_ceil (a : num) : num :=
  match a with Fin x => Fin (IZR (Zceil x)) | NaN => NaN end.

(** [Math.pow(b, e)]: [e = 0] gives 1 whatever [b] is; a positive base is
    [exp (e * ln b)]; base zero is 0 for a positive exponent; a negative
    base is defined at integer exponents only. *)
Definition Math_pow (b e : num) : num :=
  match e with
  | NaN => NaN
  | Fin y =>
      if Req_dec_T y 0 then Fin 1 else
      match b with
      | NaN => NaN
      | Fin x =>
          if Rlt_dec 0 x then Fin (Rpower x y)
          else if Req_dec_T x 0 then (if Rlt_dec 0 y then Fin 0 else NaN)
          else if Req_dec_T y (IZR (Zfloor y)) then Fin (powerRZ x (Zfloor y))
          else NaN
      end
  end.

(** [Number.isInteger]. *)
Definition Number_isInteger (a : num) : bool :=
  match a with
  | Fin x => if Req_dec_T x (IZR (Zfloor x)) then true else false
  | NaN => false
  end.

(** ** Results of fallible code *)

Inductive error : Type :=
  | LogDomainError          (* 'Log scale domain must be positive' *)
  | PeriodError (what : string)   (* '... period must be a positive integer' *)
  | DeviationsError         (* 'Bollinger Bands deviations must be positive' *)
  | InvalidValue (index : nat) (field : string)
  | UnsupportedIndicator (name : string)
  | TypeError.              (* a property read on [undefined] *)

Inductive outcome (A : Type) : Type :=
  | Ok (a : A)
  | Throw (e : error).
Arguments Ok {A} a.
Arguments Throw {A} e.

#[global] Instance outcome_ret : MRet outcome := fun A a => Ok a.
#[global] Instance outcome_bind : MBind outcome := fun A B f r =>
  match r with Ok a => f a | Throw e => Throw e end.

Definition throws {A} (r : outcome A) : Prop := exists e, r = Throw e.

(** ** Scales ([src/core/Scale.js]) *)

(** The base class [Scale]: a domain pair and a range pair, each replaced
    as a whole by [setDomain] / [setRange]. *)
Record Scale : Type := mkScale {
  domain : num * num;
  range : num * num
}.

Definition setDomain (s : Scale) (d : num * num) : Scale :=
  {| domain := d; range := range s |}.

Definition setRange (s : Scale) (r : num * num) : Scale :=
  {| domain := domain s; range := r |}.

Module LinearScale.

Definition scale (s : Scale) (value : num) : num :=
  let '(d0, d1) := domain s in
  let '(r0, r1) := range s in
  if strict_eq d0 d1 then r0
  else nadd r0 (ndiv (nmul (nsub value d0) (nsub r1 r0)) (nsub d1 d0)).

Definition invert (s : Scale) (value : num) : num :=
  let '(d0, d1) := domain s in
  let '(r0, r1) := range s in
  if strict_eq r0 r1 then d0
  else nadd d0 (ndiv (nmul (nsub value r0) (nsub d1 d0)) (nsub r1 r0)).

End LinearScale.

Module LogScale.

(** A [LogScale] is a [Scale] with a [base]; [log] and [pow] are the two
    closures the constructor builds from it. *)
Record t : Type := mk {
  super : Scale;
  base : num
}.

(** [constructor(domain, range, base = 10)]: an absent base is 10. *)
Definition new (d r : num * num) (b : option num) : t :=
  {| super := mkScale d r; base := default (Fin 10) b |}.

Definition setDomain (s : t) (d : num * num) : t :=
  {| super := setDomain (super s) d; base := base s |}.

Definition setRange (s : t) (r : num * num) : t :=
  {| super := setRange (super s) r; base := base s |}.

Definition log (s : t) (value : num) : num :=
  ndiv (Math_log value) (Math_log (base s)).

Definition pow (s : t) (value : num) : num :=
  Math_pow (base s) value.

Definition scale (s : t) (value : num) : outcome num :=
  let '(d0, d1) := domain (super s) in
  let '(r0, r1) := range (super s) in
  if nle value (Fin 0) then Throw LogDomainError
  else if strict_eq d0 d1 then Ok r0
  else Ok (nadd r0 (ndiv (nmul (nsub (log s value) (log s d0)) (nsub r1 r0))
                         (nsub (log s d1) (log s d0)))).

Definition invert (s : t) (value : num) : num :=
  let '(d0, d1) := domain (super s) in
  let '(r0, r1) := range (super s) in
  if strict_eq r0 r1 then d0
  else pow s (nadd (log s d0)
                   (ndiv (nmul (nsub value r0) (nsub (log s d1) (log s d0)))
                         (nsub r1 r0))).

(** The calls a client can make on a variable holding a log scale, and
    their effect on it: the new scale and the value returned, if any. *)
Inductive call : Type :=
  | New (d r : num * num) (b : option num)
  | SetDomain (d : num * num)
  | SetRange (r : num * num)
  | DoScale (value : num)
  | DoInvert (value : num).

Definition exec (s : t) (c : call) : outcome (t * option num) :=
  match c with
  | New d r b => Ok (new d r b, None)
  | SetDomain d => Ok (setDomain s d, None)
  | SetRange r => Ok (setRange s r, None)
  | DoScale v => c ← scale s v; Ok (s, Some c)
  | DoInvert v => Ok (s, Some (invert s v))
  end.

End LogScale.

(** [createNiceDomain(min, max, count = 5)]. *)
Definition createNiceDomain (min max count : num) : num * num :=
  if strict_eq min max then (nsub min (Fin 1), nadd max (Fin 1))
  else
    let range := nsub max min in
    let step := Math_pow (Fin 10) (Math_floor (Math_log10 (ndiv range count))) in
    let ratio := ndiv range (nmul count step) in
    let step :=
      if nge ratio (Fin 5) then nmul step (Fin 5)
      else if nge ratio (Fin 2) then nmul step (Fin 2)
      else step in
    let niceMin := nmul (Math_floor (ndiv min step)) step in
    let niceMax := nmul (Math_ceil (ndiv max step)) step in
    (niceMin, niceMax).

Local Close Scope R_scope.

(** ** Curves ([generateMonotonePath], [SvgRenderer.linePathDefinition]) *)

(** The path is kept as the list of its commands ([pathParts] before the
    final [join]): [M x,y], [L x,y] and [C cp1 cp2 end]. *)
Inductive segment : Type :=
  | MoveTo (x y : num)
  | LineTo (x y : num)
  | CurveTo (cp1x cp1y cp2x cp2y x y : num).

Definition linePathDefinition (points : list (num * num)) : list segment :=
  match points with
  | [] => []
  | (firstX, firstY) :: restPoints =>
      MoveTo firstX firstY :: map (fun '(x, y) => LineTo x y) restPoints
  end.

(** [points[i][0]], [points[i][1]] and [tangents[i]]; every index the code
    reads is in range, and a slot of [new Array(n)] not yet written reads as
    [undefined], which arithmetic takes as [NaN]. *)
Definition px (points : list (num * num)) (i : nat) : num :=
  match points !! i with Some (x, _) => x | None => NaN end.

Definition py (points : list (num * num)) (i : nat) : num :=
  match points !! i with Some (_, y) => y | None => NaN end.

Definition tg (tangents : list num) (i : nat) : num :=
  default NaN (tangents !! i).

(** The first loop: [tangents[i]] is the slope of segment [i]. *)
Definition segment_slope (points : list (num * num)) (i : nat) : num :=
  ndiv (nsub (py points (i + 1)) (py points i))
       (nsub (px points (i + 1)) (px points i)).

Definition init_slopes (points : list (num * num)) (tangents : list num)
  : list num :=
  foldl (fun t i => <[i := segment_slope points i]> t) tangents
        (seq 0 (length points - 1)).

(** One turn of the second loop, on the array as it stands. *)
Definition smooth_at (tangents : list num) (i : nat) : list num :=
  if nle (nmul (tg tangents (i - 1)) (tg tangents i)) (Fin 0)
  then <[i := Fin 0]> tangents
  else
    let a := tg tangents (i - 1) in
    let b := tg tangents i in
    <[i := ndiv (nmul a b) (nadd a b)]> tangents.

Definition monotone_tangents (points : list (num * num)) : list num :=
  let n := length points in
  let tangents := init_slopes points (replicate n NaN) in
  let tangents := <[n - 1 := tg tangents (n - 2)]> tangents in
  foldl smooth_at tangents (seq 1 (n - 2)).

Definition monotone_segment (points : list (num * num)) (tangents : list num)
  (i : nat) : segment :=
  let dx := ndiv (nsub (px points (i + 1)) (px points i)) (Fin 3) in
  let cp1x := nadd (px points i) dx in
  let cp1y := nadd (py points i) (nmul dx (tg tangents i)) in
  let cp2x := nsub (px points (i + 1)) dx in
  let cp2y := nsub (py points (i + 1)) (nmul dx (tg tangents (i + 1))) in
  CurveTo cp1x cp1y cp2x cp2y (px points (i + 1)) (py points (i + 1)).

Definition generateMonotonePath (points : list (num * num)) : list segment :=
  if (length points <? 3)%nat then linePathDefinition points
  else
    let tangents := monotone_tangents points in
    MoveTo (px points 0) (py points 0)
      :: map (monotone_segment points tangents) (seq 0 (length points - 1)).

(** ** Data points *)

(** A field of a data point holds a number or is absent ([undefined]); a
    date is carried as its epoch milliseconds. *)
Inductive value : Type :=
  | VUndef
  | VNum (n : num).

(** [o[k]]: an absent property reads as [undefined]. *)
Definition get (o : gmap string value) (k : string) : value :=
  default VUndef (o !! k).

(** What arithmetic makes of a value: [undefined] becomes [NaN]. *)
Definition to_num (v : value) : num :=
  match v with VNum n => n | VUndef => NaN end.

(** [v || 0]: [undefined], [NaN] and [0] are the falsy values. *)
Definition or_zero (v : value) : num :=
  match v with
  | VNum (Fin r) => if Req_dec_T r 0 then Fin 0 else Fin r
  | _ => Fin 0
  end.

(** The object literal [{x: x, y: y}]. *)
Definition point_xy (x y : R) : gmap string value :=
  <["y"%string := VNum (Fin y)]> (<["x"%string := VNum (Fin x)]> ∅).

(** [data[i]], with the [TypeError] that a property read on a missing
    element raises. *)
Definition elem (data : list (gmap string value)) (i : nat)
  : outcome (gmap string value) :=
  match data !! i with Some d => Ok d | None => Throw TypeError end.

(** [for (let i = start; i < start + count; i++) body], threading the
    variables the body assigns; a throw leaves the loop. *)
Fixpoint for_range {St : Type} (body : nat -> St -> outcome St)
  (start count : nat) (s : St) : outcome St :=
  match count with
  | O => Ok s
  | S c => s' ← body start s; for_range body (S start) c s'
  end.

(** ** Indicators ([src/components/Tooltip.js]) *)

Record Params : Type := mkParams {
  period : option num;
  deviations : option num;
  fastPeriod : option num;
  slowPeriod : option num;
  signalPeriod : option num;
  valueField : option string;
  xField : option string
}.

(** [params = {}]. *)
Definition no_params : Params :=
  mkParams None None None None None None None.

(** [if (period <= 0 || !Number.isInteger(period)) throw ...]; past the
    check the period is a positive integer, handed on as the [nat] the loop
    counters are compared with. *)
Definition check_period (what : string) (p : num) : outcome nat :=
  if nle p (Fin 0) || negb (Number_isInteger p) then Throw (PeriodError what)
  else Ok (match p with Fin r => Z.to_nat (Zfloor r) | NaN => O end).

Definition calculateSMA (data : list (gmap string value)) (params : Params)
  : outcome (list (gmap string value)) :=
  let period := default (Fin 14) (period params) in
  let valueField := default "y"%string (valueField params) in
  let xField := default "x"%string (xField params) in
  p ← check_period "SMA" period;
  for_range (fun i result =>
    if (i <? p - 1)%nat then Ok result
    else
      sum ← for_range (fun j sum =>
               d ← elem data (i - j);
               match get d valueField with
               | VNum v => Ok (nadd sum v)
               | VUndef => Throw (InvalidValue (i - j) valueField)
               end) 0 p (Fin 0);
      let sma := ndiv sum period in
      d ← elem data i;
      Ok (result ++ [ <["original"%string := get d valueField]>
                      (<[valueField := VNum sma]>
                       (<[xField := get d xField]> ∅)) ]))
    0 (length data) [].

Definition calculateEMA (data : list (gmap string value)) (params : Params)
  : outcome (list (gmap string value)) :=
  let period := default (Fin 14) (period params) in
  let valueField := default "y"%string (valueField params) in
  let xField := default "x"%string (xField params) in
  p ← check_period "EMA" period;
  let multiplier := ndiv (Fin 2) (nadd period (Fin 1)) in
  r ← for_range (fun i '(ema, result) =>
    if (i <? p - 1)%nat then Ok (ema, result)
    else
      ema ← (if (i =? p - 1)%nat then
               sum ← for_range (fun j sum =>
                        d ← elem data (i - j);
                        Ok (nadd sum (to_num (get d valueField))))
                      0 p (Fin 0);
               Ok (ndiv sum period)
             else
               d ← elem data i;
               let value := to_num (get d valueField) in
               (* [ema] is [null] before the first assignment: 0 in arithmetic *)
               let ema := default (Fin 0) ema in
               Ok (nadd (nmul (nsub value ema) multiplier) ema));
      d ← elem data i;
      Ok (Some ema,
          result ++ [ <["original"%string := get d valueField]>
                      (<[valueField := VNum ema]>
                       (<[xField := get d xField]> ∅)) ]))
    0 (length data) (None, []);
  Ok r.2.

Definition calculateBollingerBands (data : list (gmap string value))
  (params : Params) : outcome (list (gmap string value)) :=
  let period := default (Fin 20) (period params) in
  let deviations := default (Fin 2) (deviations params) in
  let valueField := default "y"%string (valueField params) in
  let xField := default "x"%string (xField params) in
  p ← check_period "Bollinger Bands" period;
  if nle deviations (Fin 0) then Throw DeviationsError else
  for_range (fun i result =>
    if (i <? p - 1)%nat then Ok result
    else
      sum ← for_range (fun j sum =>
               d ← elem data (i - j);
               Ok (nadd sum (to_num (get d valueField))))
             0 p (Fin 0);
      let sma := ndiv sum period in
      sumSquaredDeviations ← for_range (fun j acc =>
               d ← elem data (i - j);
               let deviation := nsub (to_num (get d valueField)) sma in
               Ok (nadd acc (Math_pow deviation (Fin 2))))
             0 p (Fin 0);
      let stdDev := Math_sqrt (ndiv sumSquaredDeviations period) in
      let upperBand := nadd sma (nmul stdDev deviations) in
      let lowerBand := nsub sma (nmul stdDev deviations) in
      d ← elem data i;
      Ok (result ++ [ <["original"%string := get d valueField]>
                      (<["lower"%string := VNum lowerBand]>
                       (<["upper"%string := VNum upperBand]>
                        (<["middle"%string := VNum sma]>
                         (<[xField := get d xField]> ∅)))) ]))
    0 (length data) [].

(** The object [calculateRSI] pushes, in both of its branches: the RSI is
    100 when [avgLoss === 0], else [100 - 100 / (1 + avgGain / avgLoss)]. *)
Definition rsi_entry (xField valueField : string) (d : gmap string value)
  (avgGain avgLoss : num) : gmap string value :=
  let rsi :=
    if strict_eq avgLoss (Fin 0) then Fin 100
    else
      let rs := ndiv avgGain avgLoss in
      nsub (Fin 100) (ndiv (Fin 100) (nadd (Fin 1) rs)) in
  <["original"%string := get d valueField]>
  (<["avgLoss"%string := VNum avgLoss]>
   (<["avgGain"%string := VNum avgGain]>
    (<["rsi"%string := VNum rsi]>
     (<[xField := get d xField]> ∅)))).

(** [result[result.length - 1]]. *)
Definition last_entry (result : list (gmap string value))
  : outcome (gmap string value) :=
  match last result with Some e => Ok e | None => Throw TypeError end.

Definition calculateRSI (data : list (gmap string value)) (params : Params)
  : outcome (list (gmap string value)) :=
  let period := default (Fin 14) (period params) in
  let valueField := default "y"%string (valueField params) in
  let xField := default "x"%string (xField params) in
  p ← check_period "RSI" period;
  r ← for_range (fun i '(gains, losses, result) =>
    if (i =? 0)%nat then Ok (gains, losses, result)
    else
      cur ← elem data i;
      prev ← elem data (i - 1);
      let currentValue := to_num (get cur valueField) in
      let previousValue := to_num (get prev valueField) in
      let change := nsub currentValue previousValue in
      if (i <=? p)%nat then
        let '(gains, losses) :=
          if nge change (Fin 0) then (nadd gains change, losses)
          else (gains, nsub losses change) in
        if (i <? p)%nat then Ok (gains, losses, result)
        else
          let avgGain := ndiv gains period in
          let avgLoss := ndiv losses period in
          Ok (gains, losses,
              result ++ [rsi_entry xField valueField cur avgGain avgLoss])
      else
        prevEntry ← last_entry result;
        let previousAvgGain := to_num (get prevEntry "avgGain") in
        let previousAvgLoss := to_num (get prevEntry "avgLoss") in
        let currentGain := if nge change (Fin 0) then change else Fin 0 in
        let currentLoss := if nlt change (Fin 0) then nneg change else Fin 0 in
        let avgGain :=
          ndiv (nadd (nmul previousAvgGain (nsub period (Fin 1))) currentGain)
               period in
        let avgLoss :=
          ndiv (nadd (nmul previousAvgLoss (nsub period (Fin 1))) currentLoss)
               period in
        Ok (gains, losses,
            result ++ [rsi_entry xField valueField cur avgGain avgLoss]))
    0 (length data) (Fin 0, Fin 0, []);
  Ok r.2.

(** [arr[i]] for an array created by [new Array(n).fill(null)]: [None] is
    [null]; every index read is in range. *)
Definition cell (arr : list (option num)) (i : nat) : option num :=
  default None (arr !! i).

(** One of the two EMA updates of the first MACD loop: the running value
    and the array it is recorded in. *)
Definition macd_ema_step (data : list (gmap string value))
  (valueField : string) (p : nat) (period multiplier value : num) (i : nat)
  (st : option num * list (option num))
  : outcome (option num * list (option num)) :=
  let '(ema, emas) := st in
  if (i <? p - 1)%nat then Ok (ema, emas)
  else if (i =? p - 1)%nat then
    sum ← for_range (fun j sum =>
             d ← elem data (i - j);
             Ok (nadd sum (to_num (get d valueField))))
           0 p (Fin 0);
    let ema := ndiv sum period in
    Ok (Some ema, <[i := Some ema]> emas)
  else
    let ema := nadd (nmul (nsub value (default (Fin 0) ema)) multiplier)
                    (default (Fin 0) ema) in
    Ok (Some ema, <[i := Some ema]> emas).

Definition calculateMACD (data : list (gmap string value)) (params : Params)
  : outcome (list (gmap string value)) :=
  let fastPeriod := default (Fin 12) (fastPeriod params) in
  let slowPeriod := default (Fin 26) (slowPeriod params) in
  let signalPeriod := default (Fin 9) (signalPeriod params) in
  let valueField := default "y"%string (valueField params) in
  let xField := default "x"%string (xField params) in
  fp ← check_period "MACD fast" fastPeriod;
  sp ← check_period "MACD slow" slowPeriod;
  gp ← check_period "MACD signal" signalPeriod;
  let n := length data in
  let fastMultiplier := ndiv (Fin 2) (nadd fastPeriod (Fin 1)) in
  let slowMultiplier := ndiv (Fin 2) (nadd slowPeriod (Fin 1)) in
  emas ← for_range (fun i '(fast, slow) =>
    d ← elem data i;
    let value := to_num (get d valueField) in
    fast ← macd_ema_step data valueField fp fastPeriod fastMultiplier value i fast;
    slow ← macd_ema_step data valueField sp slowPeriod slowMultiplier value i slow;
    Ok (fast, slow))
    0 n ((None, replicate n None), (None, replicate n None));
  let fastEMAs := emas.1.2 in
  let slowEMAs := emas.2.2 in
  let macdLine :=
    foldl (fun macdLine i =>
      match (i <? sp - 1)%nat, cell fastEMAs i, cell slowEMAs i with
      | false, Some f, Some s => <[i := Some (nsub f s)]> macdLine
      | _, _, _ => macdLine
      end) (replicate n None) (seq 0 n) in
  let signalMultiplier := ndiv (Fin 2) (nadd signalPeriod (Fin 1)) in
  let signal :=
    foldl (fun '(signalEMA, signalLine) i =>
      match (i <? sp + gp - 2)%nat, cell macdLine i with
      | false, Some m =>
          if (i =? sp + gp - 2)%nat then
            let '(sum, count) :=
              foldl (fun '(sum, count) j =>
                match (j <=? i)%nat, cell macdLine (i - j) with
                | true, Some v => (nadd sum v, S count)
                | _, _ => (sum, count)
                end) (Fin 0, O) (seq 0 gp) in
            let signalEMA :=
              if (0 <? count)%nat then Some (ndiv sum (Fin (INR count)))
              else None in
            (signalEMA, <[i := signalEMA]> signalLine)
          else
            match signalEMA with
            | Some e =>
                let e' := nadd (nmul (nsub m e) signalMultiplier) e in
                (Some e', <[i := Some e']> signalLine)
            | None => (signalEMA, signalLine)
            end
      | _, _ => (signalEMA, signalLine)
      end) (None, replicate n None) (seq 0 n) in
  let signalLine := signal.2 in
  for_range (fun i result =>
    match cell macdLine i, cell signalLine i with
    | Some m, Some s =>
        d ← elem data i;
        Ok (result ++ [ <["original"%string := get d valueField]>
                        (<["histogram"%string := VNum (nsub m s)]>
                         (<["signal"%string := VNum s]>
                          (<["macd"%string := VNum m]>
                           (<[xField := get d xField]> ∅)))) ])
    | _, _ => Ok result
    end) 0 n [].

(** What a caller may pass as [data]. *)
Inductive arg : Type :=
  | JNull
  | JUndefined
  | JNumber (n : num)
  | JString (s : string)
  | JObject (o : gmap string value)
  | JArray (l : list (gmap string value)).

(** [!data]: [null], [undefined], [0], [NaN] and the empty string. *)
Definition falsy (a : arg) : bool :=
  match a with
  | JNull | JUndefined => true
  | JNumber (Fin r) => if Req_dec_T r 0 then true else false
  | JNumber NaN => true
  | JString s => match s with EmptyString => true | String _ _ => false end
  | JObject _ | JArray _ => false
  end.

Definition Array_isArray (a : arg) : bool :=
  match a with JArray _ => true | _ => false end.

Definition elements_of (a : arg) : list (gmap string value) :=
  match a with JArray l => l | _ => [] end.

Definition lower_ascii (c : ascii) : ascii :=
  let n := nat_of_ascii c in
  if ((65 <=? n) && (n <=? 90))%nat then ascii_of_nat (n + 32) else c.

Fixpoint toLowerCase (s : string) : string :=
  match s with
  | EmptyString => EmptyString
  | String c s' => String (lower_ascii c) (toLowerCase s')
  end.

Definition calculateIndicator (indicator : string) (data : arg)
  (params : Params) : outcome (list (gmap string value)) :=
  if falsy data || negb (Array_isArray data)
     || (length (elements_of data) =? 0)%nat
  then Ok []
  else
    let data := elements_of data in
    let name := toLowerCase indicator in
    if String.eqb name "sma" then calculateSMA data params
    else if String.eqb name "ema" then calculateEMA data params
    else if String.eqb name "bollinger" then calculateBollingerBands data params
    else if String.eqb name "rsi" then calculateRSI data params
    else if String.eqb name "macd" then calculateMACD data params
    else Throw (UnsupportedIndicator indicator).

(** ** Stacked series ([AreaChart.createStackedData]) *)

Record dataset : Type := mkDataset {
  ds_id : string;
  ds_name : string;
  ds_color : string;
  ds_width : num;
  ds_type : string;
  ds_data : list (gmap string value)
}.

#[global] Instance num_eq_dec : EqDecision num.
Proof.
  intros [x|] [y|].
  - destruct (Req_dec_T x y) as [e|n]; [left; congruence | right; congruence].
  - right; discriminate.
  - right; discriminate.
  - left; reflexivity.
Defined.

(** [Set.add]: insertion order, no duplicates. *)
Definition Set_add (s : list num) (k : num) : list num :=
  if decide (k ∈ s) then s else s ++ [k].

(** [Map.set] and [Map.get]: the binding made last is the one read. *)
Definition Map_set (m : list (num * value)) (k : num) (v : value)
  : list (num * value) := (k, v) :: m.

Fixpoint Map_get (m : list (num * value)) (k : num) : value :=
  match m with
  | [] => VUndef
  | (k', v) :: m' => if decide (k' = k) then v else Map_get m' k
  end.

(** [Array.prototype.sort(cmp)] as a stable insertion sort: an element
    goes past those it compares greater than ([cmp x y > 0]) and before the
    first one it does not; a comparison that yields [NaN] counts as 0, as
    the sort takes it.  On keys that are all numbers the comparator [a - b]
    is an order and every stable sort returns this list; with a [NaN] among
    the keys the comparator is no order and the result depends on the
    engine. *)
Fixpoint sort_insert (cmp : num -> num -> num) (x : num) (l : list num)
  : list num :=
  match l with
  | [] => [x]
  | y :: l' =>
      if nlt (Fin 0) (cmp x y) then y :: sort_insert cmp x l' else x :: l
  end.

Definition Array_sort (cmp : num -> num -> num) (l : list num) : list num :=
  foldr (sort_insert cmp) [] l.

Definition allXValues (xField : string) (datasets : list dataset) : list num :=
  foldl (fun s ds =>
    foldl (fun s d =>
      match get d xField with
      | VNum k => Set_add s k
      | VUndef => s
      end) s (ds_data ds)) [] datasets.

Definition datasetMap (xField yField : string) (ds : dataset)
  : list (num * value) :=
  foldl (fun m d =>
    match get d xField, get d yField with
    | VNum xVal, VNum y => Map_set m xVal (VNum y)
    | _, _ => m
    end) [] (ds_data ds).

Definition createStackedData (xField yField : string)
  (datasets : list dataset) : list dataset :=
  let sortedXValues := Array_sort (fun a b => nsub a b)
                                  (allXValues xField datasets) in
  let datasetMaps := map (datasetMap xField yField) datasets in
  imap (fun datasetIndex ds =>
    if (datasetIndex =? 0)%nat then ds
    else
      let stackedData :=
        map (fun xVal =>
          let value := or_zero (Map_get (default [] (datasetMaps !! datasetIndex)) xVal) in
          let stackedValue :=
            foldl (fun stackedValue i =>
                     nadd stackedValue
                          (or_zero (Map_get (default [] (datasetMaps !! i)) xVal)))
                  value (seq 0 datasetIndex) in
          <["originalValue"%string := VNum value]>
          (<[yField := VNum stackedValue]>
           (<[xField := VNum xVal]> ∅))) sortedXValues in
      {| ds_id := ds_id ds; ds_name := ds_name ds; ds_color := ds_color ds;
         ds_width := ds_width ds; ds_type := ds_type ds;
         ds_data := stackedData |}) datasets.

(** ** Wilder's averages, as the specification states them *)

(** For comparison with what [calculateRSI] computes: on real values
    [v 0, v 1, ...] the gain and the loss of the delta ending at [i], the
    mean of a quantity over the first [p] deltas, and the recurrence
    [avg = (prevAvg * (p - 1) + current) / p] that follows it;
    [wilder_avg c p k] is the average at index [p + k]. *)
Definition gain (v : nat -> R) (i : nat) : R :=
  if Rle_dec 0 (v i - v (i - 1)%nat) then (v i - v (i - 1)%nat)%R else 0%R.

Definition loss (v : nat -> R) (i : nat) : R :=
  if Rle_dec 0 (v i - v (i - 1)%nat) then 0%R else (- (v i - v (i - 1)%nat))%R.

Definition delta_sum (c : nat -> R) (m : nat) : R :=
  fold_right Rplus 0%R (map c (seq 1 m)).

Fixpoint wilder_avg (c : nat -> R) (p k : nat) : R :=
  match k with
  | O => (delta_sum c p / INR p)%R
  | S k' => ((wilder_avg c p k' * (INR p - 1) + c (p + k)%nat) / INR p)%R
  end.

(** ** Axis ticks ([Axis.generateTickValues], [src/core/Axis.js]) *)

(** The number of turns of [for (let i = 0; i <= tickCount; i++)]: none
    when [tickCount] is negative or [NaN], else [floor tickCount + 1]. *)
Definition tick_turns (tickCount : num) : nat :=
  match tickCount with
  | Fin r => if Rle_dec 0 r then S (Z.to_nat (Zfloor r)) else O
  | NaN => O
  end.

(** [generateTickValues()] on the options [scale] (or [null]) and
    [tickCount].  A domain that starts past 10^12 is taken for timestamps
    and handed to [createTimeTickValues], which works on the calendar of
    the host and is a parameter here (its dates carried as epoch
    milliseconds); a domain of numbers has no [Date] in it. *)
Definition generateTickValues
  (createTimeTickValues : num -> num -> num -> list num)
  (scale : option Scale) (tickCount : num) : list num :=
  match scale with
  | None => []
  | Some scale =>
      let '(d0, d1) := domain scale in
      if nlt (Fin 1000000000000) d0 then createTimeTickValues d0 d1 tickCount
      else
        let '(min, max) := createNiceDomain d0 d1 tickCount in
        let step := ndiv (nsub max min) tickCount in
        map (fun i => nadd min (nmul (Fin (INR i)) step))
            (seq 0 (tick_turns tickCount))
  end.

(** ** Cardinal splines ([generateCardinalPath]) *)

(** [restPoints[i]]; every index the code reads is in range. *)
Definition pt (points : list (num * num)) (i : nat) : num * num :=
  default (NaN, NaN) (points !! i).

Definition getControlPoints (p0 p1 p2 : num * num) (t : num)
  : (num * num) * (num * num) :=
  let d1x := nmul (nsub p2.1 p0.1) t in
  let d1y := nmul (nsub p2.2 p0.2) t in
  ((nsub p1.1 d1x, nsub p1.2 d1y), (nadd p1.1 d1x, nadd p1.2 d1y)).

(** One turn of the loop of [generateCardinalPath], on the two control
    points as they stand (assigned before the loop and again at every turn
    but the first) and the path built so far. *)
Definition cardinal_turn (firstPoint : num * num)
  (restPoints : list (num * num)) (tension : num)
  (st : ((num * num) * (num * num)) * list segment) (i : nat)
  : ((num * num) * (num * num)) * list segment :=
  let '(cps, pathParts) := st in
  let current := pt restPoints i in
  let prev := if (0 <? i)%nat then pt restPoints (i - 1) else firstPoint in
  let next := if (i <? length restPoints - 1)%nat
              then pt restPoints (i + 1) else current in
  let cps := if (0 <? i)%nat
             then getControlPoints prev current next tension else cps in
  (cps,
   pathParts ++ [CurveTo cps.1.1 cps.1.2 cps.2.1 cps.2.2 current.1 current.2]).

(** The curve a turn of the loop appends when the control points it found
    on entry are [cps0]: only the first turn uses them. *)
Definition cardinal_curve (restPoints : list (num * num)) (tension : num)
  (cps0 : (num * num) * (num * num)) (i : nat) : segment :=
  let current := pt restPoints i in
  let next := if (i <? length restPoints - 1)%nat
              then pt restPoints (i + 1) else current in
  let cps := if (0 <? i)%nat
             then getControlPoints (pt restPoints (i - 1)) current next tension
             else cps0 in
  CurveTo cps.1.1 cps.1.2 cps.2.1 cps.2.2 current.1 current.2.

(** [generateCardinalPath(points, tension = 0.5)]. *)
Definition generateCardinalPath (points : list (num * num))
  (tension : option num) : list segment :=
  let tension := default (Fin (1 / 2)) tension in
  if (length points <? 2)%nat then linePathDefinition points
  else
    match points with
    | [] => []
    | firstPoint :: restPoints =>
        if (length points <? 3)%nat then linePathDefinition points
        else
          let cps := getControlPoints firstPoint firstPoint (pt restPoints 0)
                                      tension in
          (foldl (cardinal_turn firstPoint restPoints tension)
                 (cps, [MoveTo firstPoint.1 firstPoint.2])
                 (seq 0 (length restPoints))).2
    end.

(** ** Finite points *)

(** A list of points with finite coordinates, as the curve generators
    receive it, and the coordinates and segment slopes of such a list. *)
Definition fin_points (pts : list (R * R)) : list (num * num) :=
  map (fun p => (Fin p.1, Fin p.2)) pts.

Definition rx (pts : list (R * R)) (i : nat) : R :=
  (default (0%R, 0%R) (pts !! i)).1.

Definition ry (pts : list (R * R)) (i : nat) : R :=
  (default (0%R, 0%R) (pts !! i)).2.

Definition rslope (pts : list (R * R)) (i : nat) : R :=
  ((ry pts (i + 1) - ry pts i) / (rx pts (i + 1) - rx pts i))%R.

(** ** Exponential average, as a recurrence *)

(** The sum of the first [m] values, and the exponential moving average of
    period [p] at index [p - 1 + k]: the mean of the first [p] values at
    [k = 0], and from then on the step
    [ema = (value - ema) * (2 / (p + 1)) + ema]. *)
Fixpoint prefix_sum (v : nat -> R) (m : nat) : R :=
  match m with
  | O => 0%R
  | S m' => (prefix_sum v m' + v m')%R
  end.

Fixpoint ema_avg (v : nat -> R) (p k : nat) : R :=
  match k with
  | O => (prefix_sum v p / INR p)%R
  | S k' => ((v (p - 1 + k)%nat - ema_avg v p k') * (2 / (INR p + 1))
             + ema_avg v p k')%R
  end.

(** ** Windows *)

(** The sum of a quantity over the [p] indices ending at [i], the mean of
    the values there, and their standard deviation about that mean (the
    population one: the squared deviations are divided by [p]). *)
Definition window_sum (f : nat -> R) (p i : nat) : R :=
  fold_right Rplus 0%R (map f (seq (i + 1 - p) p)).

Definition window_mean (v : nat -> R) (p i : nat) : R :=
  (window_sum v p i / INR p)%R.

Definition window_dev (v : nat -> R) (p i : nat) : R :=
  sqrt (window_sum (fun j => (v j - window_mean v p i)
                             * (v j - window_mean v p i))%R p i / INR p).

(** ** Placing the tooltip ([Tooltip.show], [src/components/Tooltip.js]) *)

(** [Math.min] and [Math.max] of two numbers: [NaN] if either is. *)
Definition Math_min (a b : num) : num :=
  match a, b with
  | Fin x, Fin y => Fin (Rmin x y)
  | _, _ => NaN
  end.

Definition Math_max (a b : num) : num :=
  match a, b with
  | Fin x, Fin y => Fin (Rmax x y)
  | _, _ => NaN
  end.

(** The options [show] reads. *)
Record TooltipOptions : Type := mkTooltipOptions {
  offset_x : num;
  offset_y : num;
  padding_top : num;
  padding_right : num;
  padding_bottom : num;
  padding_left : num;
  maxWidth : num
}.

(** The defaults of the constructor. *)
Definition default_tooltip_options : TooltipOptions :=
  mkTooltipOptions (Fin 10) (Fin 10) (Fin 8) (Fin 8) (Fin 8) (Fin 8) (Fin 300).

(** The geometry [show(data, x, y, containerBounds)] computes once the
    content is laid out: from the width and height of the box the host
    measures for the content ([getBBox]), the size it gives the background
    and the translation it gives the tooltip.  [containerBounds] is absent
    or carries [width] and [height]. *)
Definition show_geometry (options : TooltipOptions)
  (contentBBox : num * num) (x y : num) (containerBounds : option (num * num))
  : (num * num) * (num * num) :=
  let tooltipWidth :=
    Math_min (maxWidth options)
             (nadd (nadd contentBBox.1 (padding_left options))
                   (padding_right options)) in
  let tooltipHeight :=
    nadd (nadd contentBBox.2 (padding_top options)) (padding_bottom options) in
  let tooltipX := nadd x (offset_x options) in
  let tooltipY := nadd y (offset_y options) in
  match containerBounds with
  | Some (width, height) =>
      let tooltipX :=
        if nlt width (nadd tooltipX tooltipWidth)
        then nsub (nsub x tooltipWidth) (offset_x options) else tooltipX in
      let tooltipY :=
        if nlt height (nadd tooltipY tooltipHeight)
        then nsub (nsub y tooltipHeight) (offset_y options) else tooltipY in
      ((tooltipWidth, tooltipHeight),
       (Math_max (Fin 0) tooltipX, Math_max (Fin 0) tooltipY))
  | None => ((tooltipWidth, tooltipHeight), (tooltipX, tooltipY))
  end.
(** * The same code on binary64 floats *)

(** A JavaScript number is a binary64 float of IEEE 754 and [+], [-], [*]
    and [/] round to nearest, ties to even: Rocq's primitive [float] with
    its primitive operations.  [===] and [<=] are the IEEE comparisons
    ([NaN] is equal to nothing, [+0] and [-0] are equal).  The functions
    below are written from the same source lines as their namesakes above. *)
Module F64.

Import PrimFloat.

(** [Math.floor]: an integer, a zero, an infinity or [NaN] is returned as
    it is; any other float is [+-m * 2^e] with [e < 0], and the floor of
    that (the shift rounds down), below [2^53] in size, is a float. *)
Definition Math_floor (x : float) : float :=
  match FloatOps.Prim2SF x with
  | SpecFloat.S754_finite s m e =>
      if (0 <=? e)%Z then x
      else FloatOps.SF2Prim
             (SpecFloat.binary_normalize FloatOps.prec FloatOps.emax
                (Z.shiftl (SpecFloat.cond_Zopp s (Zpos m)) e) 0 false)
  | _ => x
  end.

(** [Math.ceil(x)] is [-Math.floor(-x)], signs of zero included. *)
Definition Math_ceil (x : float) : float := (- Math_floor (- x))%float.

(** ** Scales *)

Record Scale : Type := mkScale {
  domain : float * float;
  range : float * float
}.

Module LinearScale.

Definition scale (s : Scale) (value : float) : float :=
  let '(d0, d1) := domain s in
  let '(r0, r1) := range s in
  if (d0 =? d1)%float then r0
  else (r0 + (value - d0) * (r1 - r0) / (d1 - d0))%float.

End LinearScale.

Module LogScale.

Record t : Type := mk {
  super : Scale;
  base : float
}.

(** [constructor(domain, range, base = 10)]: an absent base is 10. *)
Definition new (d r : float * float) (b : option float) : t :=
  {| super := mkScale d r; base := default 10%float b |}.

(** [Math.log] is left to the engine by the language: a parameter. *)
Section HostLog.

Variable Math_log : float -> float.

Definition log (s : t) (value : float) : float :=
  (Math_log value / Math_log (base s))%float.

Definition scale (s : t) (value : float) : outcome float :=
  let '(d0, d1) := domain (super s) in
  let '(r0, r1) := range (super s) in
  if (value <=? 0)%float then Throw LogDomainError
  else if (d0 =? d1)%float then Ok r0
  else Ok (r0 + (log s value - log s d0) * (r1 - r0)
                / (log s d1 - log s d0))%float.

End HostLog.

End LogScale.

(** ** Nice domains *)

(** [Math.log10] and [Math.pow] are left to the engine by the language
    (their results are approximations it chooses): they are parameters. *)
Section Host.

Variable Math_log10 : float -> float.
Variable Math_pow : float -> float -> float.

(** [createNiceDomain(min, max, count = 5)]. *)
Definition createNiceDomain (min max count : float) : float * float :=
  if (min =? max)%float then ((min - 1)%float, (max + 1)%float)
  else
    let range := (max - min)%float in
    let step := Math_pow 10%float (Math_floor (Math_log10 (range / count)%float)) in
    let ratio := (range / (count * step))%float in
    let step :=
      if (5 <=? ratio)%float then (step * 5)%float
      else if (2 <=? ratio)%float then (step * 2)%float
      else step in
    let niceMin := (Math_floor (min / step) * step)%float in
    let niceMax := (Math_ceil (max / step) * step)%float in
    (niceMin, niceMax).

End Host.

(** ** Data points and stacked series *)

Inductive value : Type :=
  | VUndef
  | VNum (x : float).

Definition get (o : gmap string value) (k : string) : value :=
  default VUndef (o !! k).

(** [v || 0]: [undefined], [NaN], [0] and [-0] are the falsy values. *)
Definition or_zero (v : value) : float :=
  match v with
  | VNum x => if is_nan x || (x =? 0)%float then 0%float else x
  | VUndef => 0%float
  end.

(** The object literal [{x: x, y: y}]. *)
Definition point_xy (x y : float) : gmap string value :=
  <["y"%string := VNum y]> (<["x"%string := VNum x]> ∅).

Record dataset : Type := mkDataset {
  ds_id : string;
  ds_name : string;
  ds_color : string;
  ds_width : float;
  ds_type : string;
  ds_data : list (gmap string value)
}.

(** The equality of the keys of a [Set] and of a [Map]: that of [===],
    but for [NaN], which is a key equal to itself. *)
Definition same_value_zero (a b : float) : bool :=
  (a =? b)%float || (is_nan a && is_nan b).

(** [Set.add]: insertion order, no duplicates. *)
Definition Set_add (s : list float) (k : float) : list float :=
  if existsb (same_value_zero k) s then s else s ++ [k].

(** [Map.set] and [Map.get]: the binding made last is the one read. *)
Definition Map_set (m : list (float * value)) (k : float) (v : value)
  : list (float * value) := (k, v) :: m.

Fixpoint Map_get (m : list (float * value)) (k : float) : value :=
  match m with
  | [] => VUndef
  | (k', v) :: m' => if same_value_zero k' k then v else Map_get m' k
  end.

(** [Array.prototype.sort(cmp)], as above. *)
Fixpoint sort_insert (cmp : float -> float -> float) (x : float)
  (l : list float) : list float :=
  match l with
  | [] => [x]
  | y :: l' =>
      if (0 <? cmp x y)%float then y :: sort_insert cmp x l' else x :: l
  end.

Definition Array_sort (cmp : float -> float -> float) (l : list float)
  : list float := foldr (sort_insert cmp) [] l.

Definition allXValues (xField : string) (datasets : list dataset)
  : list float :=
  foldl (fun s ds =>
    foldl (fun s d =>
      match get d xField with
      | VNum k => Set_add s k
      | VUndef => s
      end) s (ds_data ds)) [] datasets.

Definition datasetMap (xField yField : string) (ds : dataset)
  : list (float * value) :=
  foldl (fun m d =>
    match get d xField, get d yField with
    | VNum xVal, VNum y => Map_set m xVal (VNum y)
    | _, _ => m
    end) [] (ds_data ds).

Definition createStackedData (xField yField : string)
  (datasets : list dataset) : list dataset :=
  let sortedXValues := Array_sort (fun a b => (a - b)%float)
                                  (allXValues xField datasets) in
  let datasetMaps := map (datasetMap xField yField) datasets in
  imap (fun datasetIndex ds =>
    if (datasetIndex =? 0)%nat then ds
    else
      let stackedData :=
        map (fun xVal =>
          let value := or_zero (Map_get (default [] (datasetMaps !! datasetIndex)) xVal) in
          let stackedValue :=
            foldl (fun stackedValue i =>
                     (stackedValue
                      + or_zero (Map_get (default [] (datasetMaps !! i)) xVal))%float)
                  value (seq 0 datasetIndex) in
          <["originalValue"%string := VNum value]>
          (<[yField := VNum stackedValue]>
           (<[xField := VNum xVal]> ∅))) sortedXValues in
      {| ds_id := ds_id ds; ds_name := ds_name ds; ds_color := ds_color ds;
         ds_width := ds_width ds; ds_type := ds_type ds;
         ds_data := stackedData |}) datasets.

End F64.

(** * Properties *)

Local Open Scope R_scope.

(** A decimal literal denotes the float nearest to it, as in the source. *)
#[local] Set Warnings "-inexact-float".

(** Case analysis on the next comparison of reals the goal is stuck on. *)
Ltac case_real :=
  match goal with
  | |- context [Req_dec_T ?a ?b] => destruct (Req_dec_T a b)
  | |- context [Rle_dec ?a ?b] => destruct (Rle_dec a b)
  | |- context [Rlt_dec ?a ?b] => destruct (Rlt_dec a b)
  end.

Ltac num_ops :=
  unfold nge, nle, nlt, strict_eq, nadd, nsub, nmul, ndiv, nneg,
         Math_log, Math_log10, Math_floor, Math_ceil.

(** ** Linear and logarithmic scales *)

Section ScaleFacts.

Variables d0 d1 r0 r1 : R.

Let s : Scale := mkScale (Fin d0, Fin d1) (Fin r0, Fin r1).

Lemma linear_scale_value (v : R) :
  d0 <> d1 ->
  LinearScale.scale s (Fin v) = Fin (r0 + (v - d0) * (r1 - r0) / (d1 - d0)).
Proof.
  intros Hd. unfold LinearScale.scale; simpl. num_ops.
  repeat case_real; try reflexivity; exfalso; lra.
Qed.

Lemma linear_invert_value (c : R) :
  r0 <> r1 ->
  LinearScale.invert s (Fin c) = Fin (d0 + (c - r0) * (d1 - d0) / (r1 - r0)).
Proof.
  intros Hr. unfold LinearScale.invert; simpl. num_ops.
  repeat case_real; try reflexivity; exfalso; lra.
Qed.

Variable b : R.
Hypothesis b_pos : 0 < b.
Hypothesis b_ne1 : b <> 1.
Hypothesis d0_pos : 0 < d0.
Hypothesis d1_pos : 0 < d1.

Let ls : LogScale.t := LogScale.mk s (Fin b).

Lemma ln_base_ne0 : ln b <> 0.
Proof. apply ln_neq_0; assumption. Qed.

Lemma log_value (x : R) : 0 < x -> LogScale.log ls (Fin x) = Fin (ln x / ln b).
Proof.
  intros Hx. unfold LogScale.log; simpl. num_ops.
  pose proof ln_base_ne0.
  repeat case_real; try reflexivity; exfalso; lra.
Qed.

Lemma ln_domain_apart : d0 <> d1 -> ln d1 - ln d0 <> 0.
Proof. intros Hd E. apply Hd, ln_inv; try assumption. lra. Qed.

Lemma log_domain_apart : d0 <> d1 -> ln d1 / ln b - ln d0 / ln b <> 0.
Proof.
  intros Hd Heq. pose proof ln_base_ne0 as Hb.
  apply Hd, ln_inv; try assumption.
  assert (E : ln d1 / ln b = ln d0 / ln b) by lra.
  apply (f_equal (fun x => x * ln b)) in E.
  unfold Rdiv in E. rewrite !Rmult_assoc, Rinv_l, !Rmult_1_r in E by assumption.
  congruence.
Qed.

Lemma log_scale_value (v : R) :
  d0 <> d1 -> 0 < v ->
  LogScale.scale ls (Fin v) =
  Ok (Fin (r0 + (ln v / ln b - ln d0 / ln b) * (r1 - r0)
                / (ln d1 / ln b - ln d0 / ln b))).
Proof.
  intros Hd Hv. pose proof (log_domain_apart Hd) as Hl.
  unfold LogScale.scale, ls, s. cbn [LogScale.super domain range].
  fold s; fold ls. rewrite !log_value by assumption. num_ops.
  repeat case_real; try reflexivity; exfalso; lra.
Qed.

Lemma pow_log (x : R) : 0 < x -> LogScale.pow ls (Fin (ln x / ln b)) = Fin x.
Proof.
  intros Hx. pose proof ln_base_ne0 as Hb.
  unfold LogScale.pow, Math_pow; simpl.
  destruct (Req_dec_T (ln x / ln b) 0) as [E|E].
  - f_equal. apply ln_inv; [lra | assumption |].
    rewrite ln_1. apply (f_equal (fun y => y * ln b)) in E.
    unfold Rdiv in E. rewrite Rmult_assoc, Rinv_l, Rmult_1_r, Rmult_0_l in E
      by assumption.
    congruence.
  - destruct (Rlt_dec 0 b); [| contradiction].
    f_equal. unfold Rpower, Rdiv.
    rewrite Rmult_assoc, Rinv_l, Rmult_1_r by assumption.
    apply exp_ln; assumption.
Qed.

Lemma log_invert_scale (v : R) :
  d0 <> d1 -> r0 <> r1 -> 0 < v ->
  exists c, LogScale.scale ls (Fin v) = Ok c /\ LogScale.invert ls c = Fin v.
Proof.
  intros Hd Hr Hv. pose proof (log_domain_apart Hd) as Hl.
  eexists; split; [apply log_scale_value; assumption |].
  unfold LogScale.invert, ls, s. cbn [LogScale.super domain range].
  fold s; fold ls. rewrite !log_value by assumption.
  replace (strict_eq (Fin r0) (Fin r1)) with false
    by (unfold strict_eq; case_real; [contradiction | reflexivity]).
  match goal with |- LogScale.pow _ ?e = _ =>
    replace e with (Fin (ln v / ln b)) end.
  - apply pow_log; assumption.
  - num_ops. repeat case_real; try (exfalso; lra).
    f_equal. pose proof ln_base_ne0 as Hb.
    assert (ln d1 - ln d0 <> 0).
    { intros E. apply Hd, ln_inv; try assumption. lra. }
    field. repeat split; assumption || lra.
Qed.

End ScaleFacts.

(** Rewriting rules for the operations on finite numbers. *)

Lemma ndiv_fin (x y : R) : y <> 0 -> ndiv (Fin x) (Fin y) = Fin (x / y).
Proof. intros H. unfold ndiv. case_real; [contradiction | reflexivity]. Qed.


Lemma strict_eq_same (x : R) : strict_eq (Fin x) (Fin x) = true.
Proof. unfold strict_eq. case_real; [reflexivity | contradiction]. Qed.

Lemma strict_eq_diff (x y : R) : x <> y -> strict_eq (Fin x) (Fin y) = false.
Proof. intros H. unfold strict_eq. case_real; [contradiction | reflexivity]. Qed.

Lemma nle_true (x y : R) : x <= y -> nle (Fin x) (Fin y) = true.
Proof. intros H. unfold nle. case_real; [reflexivity | contradiction]. Qed.

Lemma nle_false (x y : R) : y < x -> nle (Fin x) (Fin y) = false.
Proof. intros H. unfold nle. case_real; [lra | reflexivity]. Qed.

Lemma nlt_true (x y : R) : x < y -> nlt (Fin x) (Fin y) = true.
Proof. intros H. unfold nlt. case_real; [reflexivity | contradiction]. Qed.

Lemma nlt_false (x y : R) : y <= x -> nlt (Fin x) (Fin y) = false.
Proof. intros H. unfold nlt. case_real; [lra | reflexivity]. Qed.


Lemma Math_log10_fin (x : R) : 0 < x -> Math_log10 (Fin x) = Fin (ln x / ln 10).
Proof. intros H. unfold Math_log10. case_real; [reflexivity | contradiction]. Qed.

Lemma Math_pow_10_int (k : Z) : Math_pow (Fin 10) (Fin (IZR k)) = Fin (powerRZ 10 k).
Proof.
  unfold Math_pow. destruct (Req_dec_T (IZR k) 0) as [E|E].
  - apply eq_IZR_R0 in E. subst k. reflexivity.
  - destruct (Rlt_dec 0 10) as [_|H]; [| exfalso; lra].
    rewrite powerRZ_Rpower by lra. reflexivity.
Qed.

(** ** Nice domains *)

Lemma floor_multiple_le (x step : R) :
  0 < step -> IZR (Zfloor (x / step)) * step <= x.
Proof.
  intros Hs. destruct (Zfloor_bound (x / step)) as [Hlo _].
  apply (Rmult_le_compat_r step) in Hlo; [| lra].
  replace (x / step * step) with x in Hlo by (field; lra). exact Hlo.
Qed.

Lemma ceil_multiple_ge (x step : R) :
  0 < step -> x <= IZR (Zceil (x / step)) * step.
Proof.
  intros Hs. destruct (Zceil_bound (x / step)) as [_ Hhi].
  apply (Rmult_le_compat_r step) in Hhi; [| lra].
  replace (x / step * step) with x in Hhi by (field; lra). exact Hhi.
Qed.

(** The value [createNiceDomain] computes on a proper interval: the step
    is [10^k] times 1, 2 or 5. *)
Lemma createNiceDomain_value (min max n : R) :
  min < max -> 0 < n ->
  let k := Zfloor (ln ((max - min) / n) / ln 10) in
  let ratio := (max - min) / (n * powerRZ 10 k) in
  let step :=
    if Rle_dec 5 ratio then powerRZ 10 k * 5
    else if Rle_dec 2 ratio then powerRZ 10 k * 2
    else powerRZ 10 k in
  createNiceDomain (Fin min) (Fin max) (Fin n) =
  (Fin (IZR (Zfloor (min / step)) * step), Fin (IZR (Zceil (max / step)) * step)).
Proof.
  intros Hlt Hn k ratio step.
  assert (Hp : 0 < powerRZ 10 k) by (apply powerRZ_lt; lra).
  assert (Hq : 0 < (max - min) / n) by (apply Rdiv_lt_0_compat; lra).
  assert (Hnp : n * powerRZ 10 k <> 0) by nra.
  unfold createNiceDomain.
  rewrite strict_eq_diff by lra. cbn [nsub].
  rewrite (ndiv_fin (max - min) n) by lra.
  rewrite Math_log10_fin by assumption. cbn [Math_floor].
  fold k. rewrite Math_pow_10_int. cbn [nmul].
  rewrite (ndiv_fin (max - min)) by assumption. fold ratio.
  unfold nge, nle. subst step.
  destruct (Rle_dec 5 ratio); [| destruct (Rle_dec 2 ratio)];
    cbn [nmul]; rewrite !ndiv_fin by lra; reflexivity.
Qed.

Lemma new_with_base (d r : num * num) (b : num) :
  LogScale.new d r (Some b) = LogScale.mk (mkScale d r) b.
Proof. reflexivity. Qed.

Lemma new_default_base (d r : num * num) :
  LogScale.new d r None = LogScale.mk (mkScale d r) (Fin 10).
Proof. reflexivity. Qed.

(** C1. Round trip: on a linear scale with [d0 <> d1] and [r0 <> r1],
    [invert (scale v)] is [v] for every [v]; on a logarithmic scale with the
    same non-degeneracy, a domain of positive bounds and a base [b] that is
    a logarithm base ([0 < b], [b <> 1]), [scale v] succeeds for every
    positive [v] and [invert] takes its result back to [v].  Exact
    arithmetic; rounding is not modelled. *)
Theorem invert_scale_roundtrip (d0 d1 r0 r1 v : R) :
  d0 <> d1 -> r0 <> r1 ->
  LinearScale.invert (mkScale (Fin d0, Fin d1) (Fin r0, Fin r1))
    (LinearScale.scale (mkScale (Fin d0, Fin d1) (Fin r0, Fin r1)) (Fin v))
  = Fin v
  /\
  forall b : R, 0 < b -> b <> 1 -> 0 < d0 -> 0 < d1 -> 0 < v ->
    exists c,
      LogScale.scale
        (LogScale.new (Fin d0, Fin d1) (Fin r0, Fin r1) (Some (Fin b))) (Fin v)
      = Ok c /\
      LogScale.invert
        (LogScale.new (Fin d0, Fin d1) (Fin r0, Fin r1) (Some (Fin b))) c
      = Fin v.
Proof.
  intros Hd Hr. split.
  - rewrite linear_scale_value, linear_invert_value by assumption.
    f_equal. field. lra.
  - intros b Hb Hb1 H0 H1 Hv. rewrite new_with_base.
    apply log_invert_scale; assumption.
Qed.

Lemma invert_scale_roundtrip_witness :
  LinearScale.invert (mkScale (Fin 1, Fin 100) (Fin 0, Fin 100))
    (LinearScale.scale (mkScale (Fin 1, Fin 100) (Fin 0, Fin 100)) (Fin 10))
  = Fin 10
  /\
  exists c,
    LogScale.scale
      (LogScale.new (Fin 1, Fin 100) (Fin 0, Fin 100) (Some (Fin 10))) (Fin 10)
    = Ok c /\
    LogScale.invert
      (LogScale.new (Fin 1, Fin 100) (Fin 0, Fin 100) (Some (Fin 10))) c
    = Fin 10.
Proof.
  destruct (invert_scale_roundtrip 1 100 0 100 10) as [HL HG]; [lra | lra |].
  split; [exact HL | apply (HG 10); lra].
Defined.

Lemma ln_100 : ln 100 = 2 * ln 10.
Proof. replace 100 with (10 * 10) by lra. rewrite ln_mult by lra. ring. Qed.

(** ** Binary64: the operations that do not round *)

Section FloatFacts.

Import PrimFloat.

(** A finite float is a zero or [+-m * 2^e]. *)
Lemma finite_cases (x : float) :
  is_finite x = true ->
  (exists s, FloatOps.Prim2SF x = SpecFloat.S754_zero s)
  \/ (exists s m e, FloatOps.Prim2SF x = SpecFloat.S754_finite s m e).
Proof.
  unfold is_finite, is_nan, is_infinity.
  rewrite !FloatAxioms.eqb_spec, FloatAxioms.abs_spec.
  destruct (FloatOps.Prim2SF x) as [s | s | | s m e]; intros H.
  - left. eauto.
  - destruct s; vm_compute in H; discriminate.
  - vm_compute in H. discriminate.
  - right. eauto.
Qed.

Lemma SFeqb_refl (x : SpecFloat.spec_float) :
  x <> SpecFloat.S754_nan -> SpecFloat.SFeqb x x = true.
Proof.
  intros H. destruct x as [s | s | | s m e]; try destruct s; try reflexivity;
    try contradiction; unfold SpecFloat.SFeqb, SpecFloat.SFcompare;
    rewrite Z.compare_refl;
    change (Pos.compare_cont Eq m m) with (Pos.compare m m);
    rewrite Pos.compare_refl; reflexivity.
Qed.

(** A difference that is finite has finite operands. *)
Lemma finite_difference (x y : float) :
  is_finite (x - y) = true ->
  (exists s, FloatOps.Prim2SF y = SpecFloat.S754_zero s)
  \/ (exists s m e, FloatOps.Prim2SF y = SpecFloat.S754_finite s m e).
Proof.
  intros H. apply finite_cases in H. rewrite FloatAxioms.sub_spec in H.
  destruct (FloatOps.Prim2SF y) as [s0 | s0 | | s0 m0 e0];
    [left; eauto | | | right; eauto];
    exfalso; destruct (FloatOps.Prim2SF x) as [s1 | s1 | | s1 m1 e1];
    destruct H as [[s H] | (s & m & e & H)];
    repeat match goal with b : bool |- _ => destruct b end; discriminate.
Qed.

Lemma finite_difference_eqb (x y : float) :
  is_finite (x - y) = true -> (y =? y)%float = true.
Proof.
  intros H. apply finite_difference in H. rewrite FloatAxioms.eqb_spec.
  apply SFeqb_refl. destruct H as [[s ->] | (s & m & e & ->)]; discriminate.
Qed.

(** No operation of [r0 + (a - a) * (r1 - r0) / u] rounds when [a] and
    [r1 - r0] are finite and [u] is a number other than 0: [a - a] is 0,
    the product and the quotient are zeros, and adding a zero to [r0]
    leaves it as it is (up to the sign of a zero). *)
Lemma lower_end_exact (a u r0 r1 : float) :
  is_finite a = true -> is_finite (r1 - r0) = true ->
  is_nan u = false -> is_zero u = false ->
  (r0 + (a - a) * (r1 - r0) / u =? r0)%float = true.
Proof.
  intros Ha Hw Hnan Hzero.
  pose proof (finite_difference r1 r0 Hw) as Hr0.
  rewrite FloatAxioms.eqb_spec, FloatAxioms.add_spec, FloatAxioms.div_spec,
    FloatAxioms.mul_spec, (FloatAxioms.sub_spec a a).
  apply finite_cases in Ha, Hw.
  unfold is_nan in Hnan. unfold is_zero in Hzero.
  rewrite FloatAxioms.eqb_spec in Hnan, Hzero.
  assert (E0 : FloatAxioms.SF64sub (FloatOps.Prim2SF a) (FloatOps.Prim2SF a)
               = SpecFloat.S754_zero false).
  { destruct Ha as [[s ->] | (s & m & e & ->)].
    - destruct s; reflexivity.
    - unfold FloatAxioms.SF64sub, SpecFloat.SFsub. rewrite Z.sub_diag.
      reflexivity. }
  rewrite E0.
  change (FloatOps.Prim2SF zero) with (SpecFloat.S754_zero false) in Hzero.
  assert (Hq : exists s,
            FloatAxioms.SF64div
              (FloatAxioms.SF64mul (SpecFloat.S754_zero false)
                                   (FloatOps.Prim2SF (r1 - r0)))
              (FloatOps.Prim2SF u) = SpecFloat.S754_zero s).
  { destruct (FloatOps.Prim2SF u) as [su | su | | su mu eu];
      [discriminate | | discriminate |];
      destruct Hw as [[s ->] | (s & m & e & ->)]; eexists; reflexivity. }
  destruct Hq as [sq ->].
  destruct Hr0 as [[s0 ->] | (s0 & m0 & e0 & ->)].
  - destruct s0, sq; reflexivity.
  - apply SFeqb_refl. discriminate.
Qed.

End FloatFacts.

Section ScaleRounding.

Import PrimFloat.

(** C2.  Endpoints.  In exact arithmetic (rounding is not modelled): with
    [d0 <> d1] a linear scale sends [d0] to [r0] and [d1] to [r1]; so does
    a logarithmic scale whose domain bounds are positive and whose base is
    a logarithm base; and the scale with domain [1, 100], range [0, 100]
    and base 10 sends 10 to 50, 1 to 0 and 100 to 100.

    On binary64 numbers the lower end is still met: a linear scale sends
    [d0] to a number [==] to [r0] when [d0] and [r1 - r0] are finite and
    [d1 - d0] is a number other than 0 (which the difference of two
    different finite bounds is); so does a logarithmic scale at a [d0] it
    accepts, when the logarithm of [d0] and [r1 - r0] are finite and the
    difference of the two logarithms is a number other than 0.  And the
    scale with domain [1, 100], range [0, 100] and base 10 sends 10, 1 and
    100 to 50, 0 and 100 for every [Math.log] that returns the doubles
    nearest to the logarithms of 1, 10 and 100.  The upper end is met up
    to rounding only: see [linear_scale_upper_end_rounded]. *)
Theorem scale_maps_domain_to_range (d0 d1 r0 r1 : R) :
  d0 <> d1 ->
  (LinearScale.scale (mkScale (Fin d0, Fin d1) (Fin r0, Fin r1)) (Fin d0) = Fin r0 /\
   LinearScale.scale (mkScale (Fin d0, Fin d1) (Fin r0, Fin r1)) (Fin d1) = Fin r1)
  /\
  (forall b : R, 0 < b -> b <> 1 -> 0 < d0 -> 0 < d1 ->
     LogScale.scale
       (LogScale.new (Fin d0, Fin d1) (Fin r0, Fin r1) (Some (Fin b))) (Fin d0)
     = Ok (Fin r0) /\
     LogScale.scale
       (LogScale.new (Fin d0, Fin d1) (Fin r0, Fin r1) (Some (Fin b))) (Fin d1)
     = Ok (Fin r1))
  /\
  (LogScale.scale
     (LogScale.new (Fin 1, Fin 100) (Fin 0, Fin 100) (Some (Fin 10))) (Fin 10)
   = Ok (Fin 50) /\
   LogScale.scale
     (LogScale.new (Fin 1, Fin 100) (Fin 0, Fin 100) (Some (Fin 10))) (Fin 1)
   = Ok (Fin 0) /\
   LogScale.scale
     (LogScale.new (Fin 1, Fin 100) (Fin 0, Fin 100) (Some (Fin 10))) (Fin 100)
   = Ok (Fin 100))
  /\
  (forall x0 x1 y0 y1 : float,
     is_finite x0 = true -> is_finite (y1 - y0) = true ->
     is_nan (x1 - x0) = false -> is_zero (x1 - x0) = false ->
     (F64.LinearScale.scale (F64.mkScale (x0, x1) (y0, y1)) x0 =? y0)%float
     = true)
  /\
  (forall (Math_log : float -> float) (x0 x1 y0 y1 : float) (b : option float),
     (x0 <=? 0)%float = false ->
     is_finite (F64.LogScale.log Math_log
                  (F64.LogScale.new (x0, x1) (y0, y1) b) x0) = true ->
     is_finite (y1 - y0) = true ->
     is_nan (F64.LogScale.log Math_log
               (F64.LogScale.new (x0, x1) (y0, y1) b) x1
             - F64.LogScale.log Math_log
                 (F64.LogScale.new (x0, x1) (y0, y1) b) x0) = false ->
     is_zero (F64.LogScale.log Math_log
                (F64.LogScale.new (x0, x1) (y0, y1) b) x1
              - F64.LogScale.log Math_log
                  (F64.LogScale.new (x0, x1) (y0, y1) b) x0) = false ->
     exists c : float,
       F64.LogScale.scale Math_log
         (F64.LogScale.new (x0, x1) (y0, y1) b) x0 = Ok c /\
       (c =? y0)%float = true)
  /\
  (forall Math_log : float -> float,
     Math_log 1%float = 0%float ->
     Math_log 10%float = 2.302585092994046%float ->
     Math_log 100%float = 4.605170185988092%float ->
     F64.LogScale.scale Math_log
       (F64.LogScale.new (1, 100)%float (0, 100)%float (Some 10%float)) 10%float
     = Ok 50%float /\
     F64.LogScale.scale Math_log
       (F64.LogScale.new (1, 100)%float (0, 100)%float (Some 10%float)) 1%float
     = Ok 0%float /\
     F64.LogScale.scale Math_log
       (F64.LogScale.new (1, 100)%float (0, 100)%float (Some 10%float)) 100%float
     = Ok 100%float).
Proof.
  intros Hd. split; [| split; [| split; [| split; [| split]]]].
  - rewrite !linear_scale_value by assumption.
    split; f_equal; field; lra.
  - intros b Hb Hb1 H0 H1.
    pose proof (ln_domain_apart d0 d1 H0 H1 Hd) as Hl.
    pose proof (ln_base_ne0 b Hb Hb1) as Hb0.
    rewrite !new_with_base.
    rewrite !log_scale_value by assumption.
    split; do 2 f_equal; field; split; assumption.
  - assert (H10 : ln 10 <> 0) by (apply ln_neq_0; lra).
    rewrite !new_with_base.
    rewrite !log_scale_value by lra.
    rewrite ln_1, ln_100.
    repeat split; do 2 f_equal; field; exact H10.
  - intros x0 x1 y0 y1 Hx0 Hw Hnan Hzero.
    unfold F64.LinearScale.scale. cbn [F64.domain F64.range].
    destruct (x0 =? x1)%float.
    + apply (finite_difference_eqb y1 y0 Hw).
    + apply lower_end_exact; assumption.
  - intros Math_log x0 x1 y0 y1 b Hpos Hl0 Hw Hnan Hzero.
    unfold F64.LogScale.scale.
    cbn [F64.LogScale.new F64.LogScale.super F64.domain F64.range].
    rewrite Hpos. destruct (x0 =? x1)%float; eexists; (split; [reflexivity |]).
    + apply (finite_difference_eqb y1 y0 Hw).
    + apply lower_end_exact; assumption.
  - intros Math_log E1 E10 E100.
    unfold F64.LogScale.scale, F64.LogScale.log.
    cbn [F64.LogScale.new F64.LogScale.super F64.LogScale.base
         F64.domain F64.range default from_option].
    unfold Datatypes.id. rewrite E1, E10, E100.
    vm_compute. repeat split.
Qed.

Lemma scale_maps_domain_to_range_witness :
  let Math_log := fun x : float =>
    if (x =? 1)%float then 0%float
    else if (x =? 10)%float then 2.302585092994046%float
    else 4.605170185988092%float in
  LinearScale.scale (mkScale (Fin 2, Fin 4) (Fin 0, Fin 10)) (Fin 2) = Fin 0 /\
  LinearScale.scale (mkScale (Fin 2, Fin 4) (Fin 0, Fin 10)) (Fin 4) = Fin 10 /\
  LogScale.scale
    (LogScale.new (Fin 2, Fin 4) (Fin 0, Fin 10) (Some (Fin 2))) (Fin 2)
  = Ok (Fin 0) /\
  LogScale.scale
    (LogScale.new (Fin 2, Fin 4) (Fin 0, Fin 10) (Some (Fin 2))) (Fin 4)
  = Ok (Fin 10) /\
  (F64.LinearScale.scale (F64.mkScale (0.1, 0.3) (0, 800)) 0.1 =? 0)%float
  = true /\
  (exists c : float,
     F64.LogScale.scale Math_log
       (F64.LogScale.new (1, 100)%float (0, 100)%float None) 1%float = Ok c /\
     (c =? 0)%float = true) /\
  F64.LogScale.scale Math_log
    (F64.LogScale.new (1, 100)%float (0, 100)%float (Some 10%float)) 10%float
  = Ok 50%float.
Proof.
  intros Math_log.
  destruct (scale_maps_domain_to_range 2 4 0 10)
    as ([H0 H1] & HG & _ & HF & HL & HS); [lra |].
  destruct (HG 2) as [G0 G1]; try lra.
  split; [exact H0 | split; [exact H1 | split; [exact G0 | split; [exact G1 |]]]].
  split; [apply HF; vm_compute; reflexivity |].
  split; [apply (HL Math_log); vm_compute; reflexivity |].
  apply (HS Math_log); vm_compute; reflexivity.
Defined.

(** C2, as the claim has it, fails on binary64 numbers.  The linear scale
    with domain [0, 0.1] and range [0, 0.1] sends 0.1, the upper end of its
    domain, to [0 + (0.1 - 0) * (0.1 - 0) / (0.1 - 0)], where the product
    rounds to 0.010000000000000002 and the quotient to
    0.10000000000000002: the result is not [==] to 0.1, the upper end of
    the range.  In the same way the scale with domain [0.1, 0.3] and range
    [0, 800] sends 0.3 to 800.0000000000001. *)
Lemma linear_scale_upper_end_rounded :
  (F64.LinearScale.scale (F64.mkScale (0, 0.1) (0, 0.1)) 0.1
   = 0.10000000000000002)%float
  /\
  (F64.LinearScale.scale (F64.mkScale (0, 0.1) (0, 0.1)) 0.1 =? 0.1)%float
  = false
  /\
  (F64.LinearScale.scale (F64.mkScale (0.1, 0.3) (0, 800)) 0.3
   = 800.0000000000001)%float
  /\
  (F64.LinearScale.scale (F64.mkScale (0.1, 0.3) (0, 800)) 0.3 =? 800)%float
  = false.
Proof. vm_compute. repeat split. Qed.

End ScaleRounding.

Section NiceDomainRounding.

Import PrimFloat.

(** C3.  Nice domains.  When [min = max], [createNiceDomain] returns
    [min - 1, max + 1] whatever the count is, so [createNiceDomain 5 5] is
    [4, 6]; this holds on binary64 numbers as well, whatever [Math.log10]
    and [Math.pow] are.  For [min < max] and a positive count, and in
    exact arithmetic (rounding is not modelled), it returns a pair of
    numbers [niceMin <= min] and [max <= niceMax]: the floor of [min] and
    the ceiling of [max] on the multiples of a step [m * 10^k], with [k] the
    floor of the decimal logarithm of [(max - min) / count] and [m] equal to
    5, 2 or 1 as the ratio [(max - min) / (count * 10^k)] is at least 5, at
    least 2, or less.  Neither restriction can be dropped, and on binary64
    numbers the two bounds hold up to rounding only: see
    [createNiceDomain_misses_min]. *)
Theorem createNiceDomain_covers :
  (forall (min : R) (count : num),
     createNiceDomain (Fin min) (Fin min) count = (Fin (min - 1), Fin (min + 1)))
  /\
  (forall count : num, createNiceDomain (Fin 5) (Fin 5) count = (Fin 4, Fin 6))
  /\
  (forall (Math_log10 : float -> float) (Math_pow : float -> float -> float)
          (min max count : float),
     (min =? max)%float = true ->
     F64.createNiceDomain Math_log10 Math_pow min max count
     = (min - 1, max + 1)%float)
  /\
  (forall (Math_log10 : float -> float) (Math_pow : float -> float -> float)
          (count : float),
     F64.createNiceDomain Math_log10 Math_pow 5%float 5%float count
     = (4, 6)%float)
  /\
  forall min max n : R, min < max -> 0 < n ->
    exists (niceMin niceMax : R) (k : Z) (m : R),
      createNiceDomain (Fin min) (Fin max) (Fin n) = (Fin niceMin, Fin niceMax) /\
      niceMin <= min /\ max <= niceMax /\
      k = Zfloor (ln ((max - min) / n) / ln 10) /\
      (5 <= (max - min) / (n * powerRZ 10 k) -> m = 5) /\
      (2 <= (max - min) / (n * powerRZ 10 k) < 5 -> m = 2) /\
      ((max - min) / (n * powerRZ 10 k) < 2 -> m = 1) /\
      (m = 1 \/ m = 2 \/ m = 5) /\
      niceMin = IZR (Zfloor (min / (m * powerRZ 10 k))) * (m * powerRZ 10 k) /\
      niceMax = IZR (Zceil (max / (m * powerRZ 10 k))) * (m * powerRZ 10 k).
Proof.
  assert (Hdeg : forall (min : R) (count : num),
    createNiceDomain (Fin min) (Fin min) count = (Fin (min - 1), Fin (min + 1))).
  { intros min count. unfold createNiceDomain.
    rewrite strict_eq_same. reflexivity. }
  split; [exact Hdeg | split; [| split; [| split]]].
  - intros count. rewrite Hdeg. f_equal; f_equal; lra.
  - intros Math_log10 Math_pow min max count E.
    unfold F64.createNiceDomain. rewrite E. reflexivity.
  - intros Math_log10 Math_pow count. reflexivity.
  - intros min max n Hlt Hn.
    pose proof (createNiceDomain_value min max n Hlt Hn) as Hv.
    cbv zeta in Hv.
    set (k := Zfloor (ln ((max - min) / n) / ln 10)) in *.
    set (ratio := (max - min) / (n * powerRZ 10 k)) in *.
    assert (Hp : 0 < powerRZ 10 k) by (apply powerRZ_lt; lra).
    assert (Hs : 0 < (if Rle_dec 5 ratio then powerRZ 10 k * 5
                       else if Rle_dec 2 ratio then powerRZ 10 k * 2
                       else powerRZ 10 k))
      by (repeat case_real; lra).
    destruct (Rle_dec 5 ratio); [| destruct (Rle_dec 2 ratio)].
    + eexists _, _, k, 5. replace (5 * powerRZ 10 k) with (powerRZ 10 k * 5) by ring.
      split; [exact Hv |].
      split; [apply floor_multiple_le, Hs |].
      split; [apply ceil_multiple_ge, Hs |].
      unfold ratio in *.
      repeat match goal with |- _ /\ _ => split end;
        try reflexivity; try (intros; lra); auto.
    + eexists _, _, k, 2. replace (2 * powerRZ 10 k) with (powerRZ 10 k * 2) by ring.
      split; [exact Hv |].
      split; [apply floor_multiple_le, Hs |].
      split; [apply ceil_multiple_ge, Hs |].
      unfold ratio in *.
      repeat match goal with |- _ /\ _ => split end;
        try reflexivity; try (intros; lra); auto.
    + eexists _, _, k, 1. replace (1 * powerRZ 10 k) with (powerRZ 10 k) by ring.
      split; [exact Hv |].
      split; [apply floor_multiple_le, Hs |].
      split; [apply ceil_multiple_ge, Hs |].
      unfold ratio in *.
      repeat match goal with |- _ /\ _ => split end;
        try reflexivity; try (intros; lra); auto.
Qed.

Lemma createNiceDomain_covers_witness :
  exists niceMin niceMax : R,
    createNiceDomain (Fin 0) (Fin 10) (Fin 5) = (Fin niceMin, Fin niceMax) /\
    niceMin <= 0 /\ 10 <= niceMax.
Proof.
  destruct createNiceDomain_covers as (_ & _ & _ & _ & H).
  destruct (H 0 10 5) as (a & b & k & m & E & Ha & Hb & _); [lra | lra |].
  exists a, b. auto.
Defined.

(** [createNiceDomain(1.7, 1.8, 1)] on binary64 numbers, for every engine
    whose [Math.log10] puts the range 0.10000000000000009 between one
    tenth and one (so that the floor is -1) and whose [Math.pow(10, -1)]
    is 0.1: the step is 0.1, [1.7 / 0.1] rounds to 17, and [17 * 0.1]
    rounds to 1.7000000000000002. *)
Lemma createNiceDomain_rounded (Math_log10 : float -> float)
  (Math_pow : float -> float -> float) :
  F64.Math_floor (Math_log10 0.10000000000000009%float) = (-1)%float ->
  Math_pow 10%float (-1)%float = 0.1%float ->
  F64.createNiceDomain Math_log10 Math_pow 1.7%float 1.8%float 1%float
  = (1.7000000000000002, 1.8)%float.
Proof.
  intros Hlog Hpow. unfold F64.createNiceDomain.
  replace (1.7 =? 1.8)%float with false by (vm_compute; reflexivity).
  replace ((1.8 - 1.7) / 1)%float with 0.10000000000000009%float
    by (vm_compute; reflexivity).
  rewrite Hlog, Hpow. vm_compute. reflexivity.
Qed.

(** C3, as the claim has it, fails.  With the bounds reversed, or with a
    negative count, the result is [NaN, NaN], whose first component is not
    [<=] anything (the logarithm of the negative [(0 - 10) / 5], or
    [(10 - 0) / -5], is [NaN]).  And on binary64 numbers
    [createNiceDomain(1.7, 1.8, 1)] is [1.7000000000000002, 1.8], whose
    lower bound lies above [min] (here with -0.9999999999999996 for
    [Math.log10(0.10000000000000009)] and 0.1 for [Math.pow(10, -1)]). *)
Lemma createNiceDomain_misses_min :
  createNiceDomain (Fin 10) (Fin 0) (Fin 5) = (NaN, NaN)
  /\
  nle (fst (createNiceDomain (Fin 10) (Fin 0) (Fin 5))) (Fin 10) = false
  /\
  createNiceDomain (Fin 0) (Fin 10) (Fin (-5)) = (NaN, NaN)
  /\
  F64.createNiceDomain (fun _ => (-0.9999999999999996)%float)
                       (fun _ _ => 0.1%float) 1.7%float 1.8%float 1%float
  = (1.7000000000000002, 1.8)%float
  /\
  (1.7000000000000002 <=? 1.7)%float = false.
Proof.
  assert (E : createNiceDomain (Fin 10) (Fin 0) (Fin 5) = (NaN, NaN)).
  { unfold createNiceDomain.
    rewrite strict_eq_diff by lra. cbv [nsub ndiv].
    destruct (Req_dec_T 5 0); [lra |].
    unfold Math_log10. destruct (Rlt_dec 0 ((0 - 10) / 5)); [lra |].
    reflexivity. }
  split; [exact E |]. split; [rewrite E; reflexivity |].
  split.
  { unfold createNiceDomain.
    rewrite strict_eq_diff by lra. cbv [nsub ndiv].
    destruct (Req_dec_T (-5) 0); [lra |].
    unfold Math_log10. destruct (Rlt_dec 0 ((10 - 0) / -5)); [lra |].
    reflexivity. }
  split; [| vm_compute; reflexivity].
  apply createNiceDomain_rounded; vm_compute; reflexivity.
Qed.

End NiceDomainRounding.

(** C9, as the code has it.  A call on a logarithmic scale fails exactly
    when it is [scale] on a value [<= 0]: [invert] never fails, and neither
    the constructor nor [setDomain] (nor [setRange]) looks at the bounds. *)
Theorem log_scale_fails_iff (s : LogScale.t) (c : LogScale.call) :
  throws (LogScale.exec s c) <->
  exists v, c = LogScale.DoScale v /\ nle v (Fin 0) = true.
Proof.
  split.
  - intros [e He]. destruct c as [d r b | d | r | v | v]; simpl in He;
      try discriminate.
    exists v. split; [reflexivity |].
    unfold LogScale.scale in He.
    destruct (domain (LogScale.super s)) as [d0 d1].
    destruct (range (LogScale.super s)) as [r0 r1].
    destruct (nle v (Fin 0)); [reflexivity |].
    destruct (strict_eq d0 d1); discriminate.
  - intros (v & -> & Hv). exists LogDomainError. simpl.
    unfold LogScale.scale.
    destruct (domain (LogScale.super s)) as [d0 d1].
    destruct (range (LogScale.super s)) as [r0 r1].
    rewrite Hv. reflexivity.
Qed.

(** C9, as the claim has it, fails on the scale with domain [1, 100], range
    [0, 100] and base 10: rebinding the domain to [-1, 10] succeeds, so does
    constructing a scale on the domain [0, 10], and inverting the
    coordinate [-50] returns 1/10. *)
Lemma log_scale_nonpositive_accepted :
  let s := LogScale.new (Fin 1, Fin 100) (Fin 0, Fin 100) None in
  LogScale.exec s (LogScale.SetDomain (Fin (-1), Fin 10))
    = Ok (LogScale.mk (mkScale (Fin (-1), Fin 10) (Fin 0, Fin 100)) (Fin 10), None)
  /\ LogScale.exec s (LogScale.New (Fin 0, Fin 10) (Fin 0, Fin 100) None)
    = Ok (LogScale.mk (mkScale (Fin 0, Fin 10) (Fin 0, Fin 100)) (Fin 10), None)
  /\ LogScale.exec s (LogScale.DoInvert (Fin (-50))) = Ok (s, Some (Fin (/ 10))).
Proof.
  cbv zeta. split; [reflexivity | split; [reflexivity |]].
  assert (H10 : ln 10 <> 0) by (apply ln_neq_0; lra).
  unfold LogScale.exec. do 3 f_equal.
  rewrite new_default_base.
  unfold LogScale.invert. cbn [LogScale.super domain range].
  rewrite strict_eq_diff by lra.
  rewrite !(log_value 1 100 0 100 10) by lra. cbn [nsub nmul].
  rewrite ndiv_fin by lra. cbn [nadd].
  unfold LogScale.pow, Math_pow. cbn [LogScale.base].
  rewrite ln_1, ln_100.
  replace (0 / ln 10 + (-50 - 0) * (2 * ln 10 / ln 10 - 0 / ln 10) / (100 - 0))
    with (- 1) by (field; exact H10).
  destruct (Req_dec_T (-1) 0); [exfalso; lra |].
  destruct (Rlt_dec 0 10); [| exfalso; lra].
  change (-1) with (Ropp 1).
  rewrite Rpower_Ropp, Rpower_1 by lra. reflexivity.
Qed.

(** ** Monotone curves *)

#[local] Arguments nadd : simpl never.
#[local] Arguments nsub : simpl never.
#[local] Arguments nmul : simpl never.
#[local] Arguments ndiv : simpl never.
#[local] Arguments nle : simpl never.
#[local] Arguments nlt : simpl never.
#[local] Arguments strict_eq : simpl never.

Lemma nadd_fin (x y : R) : nadd (Fin x) (Fin y) = Fin (x + y).
Proof. reflexivity. Qed.

Lemma nsub_fin (x y : R) : nsub (Fin x) (Fin y) = Fin (x - y).
Proof. reflexivity. Qed.

Lemma nmul_fin (x y : R) : nmul (Fin x) (Fin y) = Fin (x * y).
Proof. reflexivity. Qed.

(** Evaluation of the arithmetic on finite operands with constant side
    conditions. *)
Ltac num_eval :=
  repeat first
    [ rewrite nadd_fin
    | rewrite nsub_fin
    | rewrite nmul_fin
    | rewrite ndiv_fin by lra
    | rewrite nle_true by lra
    | rewrite nle_false by lra
    | rewrite nlt_true by lra
    | rewrite nlt_false by lra
    | rewrite strict_eq_same
    | rewrite strict_eq_diff by lra ].

(** Equality of structures of numbers, down to the real arithmetic. *)
Ltac fin_eq :=
  repeat match goal with
  | |- Fin _ = Fin _ =>
      apply (f_equal Fin); first [reflexivity | lra | field; lra | field]
  | |- VNum _ = VNum _ => apply (f_equal VNum)
  | |- _ => progress f_equal
  end.

(** [e] is the constant [q]. *)
Ltac const e q := replace e with q by (field; lra).

Lemma collinear3_tangents :
  monotone_tangents [(Fin 0, Fin 0); (Fin 1, Fin 1); (Fin 2, Fin 2)]
  = [Fin 1; Fin (1 / 2); Fin 1].
Proof.
  unfold monotone_tangents, init_slopes, smooth_at, segment_slope, tg, px, py.
  simpl. num_eval.
  const ((1 - 0) / (1 - 0)) 1. const ((2 - 1) / (2 - 1)) 1.
  num_eval. fin_eq.
Qed.

(** C4, on the code.  On the collinear points (0,0), (1,1), (2,2) both
    segment slopes are 1, and so is their harmonic mean [2ab / (a + b)];
    the code sets the interior tangent to [ab / (a + b)] = 1/2, and the
    control points leave the line.  From the second interior point on, the
    left operand is the tangent already overwritten, not the slope: on four
    collinear points the second interior tangent comes out as 1/3, and on
    (0,1), (1,0), (2,1), (3,2), whose last two slopes are both 1, it is 0
    because the tangent before it was set to 0. *)
Theorem monotone_interior_tangent_halved :
  monotone_tangents [(Fin 0, Fin 0); (Fin 1, Fin 1); (Fin 2, Fin 2)]
  = [Fin 1; Fin (1 / 2); Fin 1]
  /\
  generateMonotonePath [(Fin 0, Fin 0); (Fin 1, Fin 1); (Fin 2, Fin 2)]
  = [MoveTo (Fin 0) (Fin 0);
     CurveTo (Fin (1 / 3)) (Fin (1 / 3)) (Fin (2 / 3)) (Fin (5 / 6)) (Fin 1) (Fin 1);
     CurveTo (Fin (4 / 3)) (Fin (7 / 6)) (Fin (5 / 3)) (Fin (5 / 3)) (Fin 2) (Fin 2)]
  /\
  monotone_tangents
    [(Fin 0, Fin 0); (Fin 1, Fin 1); (Fin 2, Fin 2); (Fin 3, Fin 3)]
  = [Fin 1; Fin (1 / 2); Fin (1 / 3); Fin 1]
  /\
  monotone_tangents
    [(Fin 0, Fin 1); (Fin 1, Fin 0); (Fin 2, Fin 1); (Fin 3, Fin 2)]
  = [Fin (-1); Fin 0; Fin 0; Fin 1].
Proof.
  split; [exact collinear3_tangents | split; [| split]].
  - unfold generateMonotonePath. rewrite collinear3_tangents.
    unfold monotone_segment, tg, px, py. simpl. num_eval.
    fin_eq.
  - unfold monotone_tangents, init_slopes, smooth_at, segment_slope, tg, px, py.
    simpl. num_eval.
    const ((1 - 0) / (1 - 0)) 1. const ((2 - 1) / (2 - 1)) 1.
    const ((3 - 2) / (3 - 2)) 1.
    num_eval. const (1 * 1 / (1 + 1)) (1 / 2).
    simpl. num_eval. simpl. fin_eq.
  - unfold monotone_tangents, init_slopes, smooth_at, segment_slope, tg, px, py.
    simpl. num_eval.
    const ((0 - 1) / (1 - 0)) (-1). const ((1 - 0) / (2 - 1)) 1.
    const ((2 - 1) / (3 - 2)) 1.
    num_eval. simpl. num_eval. simpl. fin_eq.
Qed.

(** What the two loops leave in [tangents], for any list of at least three
    points: the slope of the first segment at index 0, the slope of the
    last segment at the last index, and at each interior index [i] the
    value [smooth_at] computes from the tangent already stored at [i - 1]
    and the slope of segment [i]. *)
Section Tangents.

Variable points : list (num * num).

Let n : nat := length points.

Lemma init_slopes_prefix (k : nat) (t0 : list num) :
  (k <= n)%nat -> length t0 = n ->
  let t := foldl (fun t i => <[i := segment_slope points i]> t) t0 (seq 0 k) in
  length t = n /\
  (forall i, (i < k)%nat -> t !! i = Some (segment_slope points i)) /\
  (forall i, (k <= i)%nat -> t !! i = t0 !! i).
Proof.
  intros Hk Hlen. induction k as [|k IH].
  - simpl. repeat split; [exact Hlen | intros; lia].
  - destruct IH as (Hl & Hlo & Hhi); [lia |].
    cbv zeta. rewrite seq_S, foldl_app. simpl.
    set (t := foldl _ t0 (seq 0 k)) in *.
    split; [rewrite length_insert; exact Hl |]. split.
    + intros i Hi. destruct (decide (i = k)) as [->|Hne].
      * apply list_lookup_insert_eq. lia.
      * rewrite list_lookup_insert_ne by congruence. apply Hlo. lia.
    + intros i Hi. rewrite list_lookup_insert_ne by lia. apply Hhi. lia.
Qed.

Lemma smooth_prefix (k : nat) (t0 : list num) :
  (k + 1 < n)%nat -> length t0 = n ->
  let t := foldl smooth_at t0 (seq 1 k) in
  length t = n /\
  (forall i, (1 <= i <= k)%nat ->
     tg t i =
     if nle (nmul (tg t (i - 1)) (tg t0 i)) (Fin 0) then Fin 0
     else ndiv (nmul (tg t (i - 1)) (tg t0 i)) (nadd (tg t (i - 1)) (tg t0 i))) /\
  (forall i, (i = 0 \/ k < i)%nat -> t !! i = t0 !! i).
Proof.
  intros Hk Hlen. induction k as [|k IH].
  - simpl. repeat split; [exact Hlen | intros; lia].
  - destruct IH as (Hl & Hin & Hout); [lia |].
    cbv zeta. rewrite seq_S, foldl_app. simpl.
    set (t := foldl smooth_at t0 (seq 1 k)) in *.
    assert (Hcur : tg t (S k) = tg t0 (S k))
      by (unfold tg; rewrite Hout by lia; reflexivity).
    assert (Hsame : forall x i, i <> S k -> tg (<[S k := x]> t) i = tg t i)
      by (intros x i Hi; unfold tg; rewrite list_lookup_insert_ne by congruence;
          reflexivity).
    assert (Hnew : forall x, tg (<[S k := x]> t) (S k) = x)
      by (intros x; unfold tg; rewrite list_lookup_insert_eq by lia; reflexivity).
    unfold smooth_at. replace (S k - 1)%nat with k by lia. rewrite Hcur.
    destruct (nle (nmul (tg t k) (tg t0 (S k))) (Fin 0)) eqn:E.
    + split; [rewrite length_insert; exact Hl |]. split.
      * intros i Hi. destruct (decide (i = S k)) as [->|Hne].
        -- rewrite Hnew. replace (S k - 1)%nat with k by lia.
           rewrite Hsame by lia. rewrite E. reflexivity.
        -- rewrite !Hsame by lia. apply Hin. lia.
      * intros i Hi. rewrite list_lookup_insert_ne by lia. apply Hout. lia.
    + split; [rewrite length_insert; exact Hl |]. split.
      * intros i Hi. destruct (decide (i = S k)) as [->|Hne].
        -- rewrite Hnew. replace (S k - 1)%nat with k by lia.
           rewrite Hsame by lia. rewrite E. reflexivity.
        -- rewrite !Hsame by lia. apply Hin. lia.
      * intros i Hi. rewrite list_lookup_insert_ne by lia. apply Hout. lia.
Qed.

Lemma monotone_tangents_recurrence :
  (3 <= n)%nat ->
  length (monotone_tangents points) = n /\
  tg (monotone_tangents points) 0 = segment_slope points 0 /\
  tg (monotone_tangents points) (n - 1) = segment_slope points (n - 2) /\
  forall i, (1 <= i <= n - 2)%nat ->
    tg (monotone_tangents points) i =
    if nle (nmul (tg (monotone_tangents points) (i - 1))
                 (segment_slope points i)) (Fin 0)
    then Fin 0
    else ndiv (nmul (tg (monotone_tangents points) (i - 1))
                    (segment_slope points i))
              (nadd (tg (monotone_tangents points) (i - 1))
                    (segment_slope points i)).
Proof.
  intros Hn. unfold monotone_tangents, init_slopes. fold n.
  destruct (init_slopes_prefix (n - 1) (replicate n NaN)) as (Hl1 & Hlo1 & _);
    [lia | apply length_replicate |].
  cbv zeta in Hl1, Hlo1.
  set (t1 := foldl _ (replicate n NaN) (seq 0 (n - 1))) in *.
  set (t2 := <[(n - 1)%nat := tg t1 (n - 2)]> t1).
  assert (Hl2 : length t2 = n) by (unfold t2; rewrite length_insert; exact Hl1).
  assert (H2lo : forall i, (i < n - 1)%nat -> tg t2 i = segment_slope points i).
  { intros i Hi. unfold tg, t2. rewrite list_lookup_insert_ne by lia.
    rewrite Hlo1 by lia. reflexivity. }
  assert (H2hi : tg t2 (n - 1) = segment_slope points (n - 2)).
  { unfold tg at 1. unfold t2. rewrite list_lookup_insert_eq by lia.
    simpl. unfold tg. rewrite Hlo1 by lia. reflexivity. }
  destruct (smooth_prefix (n - 2) t2) as (Hl3 & Hin3 & Hout3); [lia | exact Hl2 |].
  cbv zeta in Hl3, Hin3, Hout3.
  set (t3 := foldl smooth_at t2 (seq 1 (n - 2))) in *.
  split; [exact Hl3 |]. split; [| split].
  - unfold tg at 1. rewrite Hout3 by lia. apply (H2lo 0%nat). lia.
  - unfold tg at 1. rewrite Hout3 by lia. exact H2hi.
  - intros i Hi. rewrite Hin3 by exact Hi. rewrite H2lo by lia. reflexivity.
Qed.

End Tangents.

(** ** Loops *)

Lemma bind_Ok {A B : Type} (a : A) (f : A -> outcome B) : (Ok a ≫= f) = f a.
Proof. reflexivity. Qed.

Lemma bind_Throw {A B : Type} (e : error) (f : A -> outcome B) :
  (Throw e ≫= f) = Throw e.
Proof. reflexivity. Qed.

Lemma for_range_S {St : Type} (body : nat -> St -> outcome St)
  (start count : nat) (s : St) :
  for_range body start (S count) s
  = (s' ← body start s; for_range body (S start) count s').
Proof. reflexivity. Qed.

Lemma for_range_snoc {St : Type} (body : nat -> St -> outcome St)
  (start count : nat) (s : St) :
  for_range body start (S count) s
  = (s' ← for_range body start count s; body (start + count)%nat s').
Proof.
  revert start s. induction count as [|c IH]; intros start s.
  - rewrite for_range_S. simpl for_range. rewrite bind_Ok, Nat.add_0_r.
    destruct (body start s); reflexivity.
  - rewrite for_range_S. rewrite (for_range_S body start c).
    destruct (body start s) as [s1|e].
    + rewrite !bind_Ok, IH.
      replace (start + S c)%nat with (S start + c)%nat by lia. reflexivity.
    + reflexivity.
Qed.

(** A turn that throws whatever the variables hold makes the loop throw. *)
Lemma for_range_throws {St : Type} (body : nat -> St -> outcome St)
  (start count i : nat) (s : St) :
  (start <= i < start + count)%nat ->
  (forall s', throws (body i s')) ->
  throws (for_range body start count s).
Proof.
  revert start s. induction count as [|c IH]; intros start s Hi Hb; [lia |].
  simpl. destruct (body start s) as [s1|e] eqn:E.
  - simpl. destruct (decide (i = start)) as [->|Hne].
    + destruct (Hb s) as [e He]. congruence.
    + apply IH; [lia | exact Hb].
  - exists e. reflexivity.
Qed.

(** ** Sums of numbers *)

Lemma nadd_comm (a b : num) : nadd a b = nadd b a.
Proof. destruct a, b; try reflexivity. rewrite !nadd_fin. f_equal. ring. Qed.

Lemma nadd_assoc (a b c : num) : nadd a (nadd b c) = nadd (nadd a b) c.
Proof.
  destruct a, b, c; try reflexivity. rewrite !nadd_fin. f_equal. ring.
Qed.

Lemma nadd_0_l (a : num) : nadd (Fin 0) a = a.
Proof. destruct a; [| reflexivity]. rewrite nadd_fin. f_equal. ring. Qed.

Lemma nadd_0_r (a : num) : nadd a (Fin 0) = a.
Proof. rewrite nadd_comm. apply nadd_0_l. Qed.

Lemma foldl_nadd (f : nat -> num) (l : list nat) (a : num) :
  foldl (fun acc j => nadd acc (f j)) a l
  = nadd a (foldr nadd (Fin 0) (map f l)).
Proof.
  revert a. induction l as [|j l IH]; intros a; simpl.
  - symmetry. apply nadd_0_r.
  - rewrite IH. symmetry. apply nadd_assoc.
Qed.

Lemma nsum_app (l1 l2 : list num) :
  foldr nadd (Fin 0) (l1 ++ l2)
  = nadd (foldr nadd (Fin 0) l1) (foldr nadd (Fin 0) l2).
Proof.
  induction l1 as [|a l1 IH]; simpl.
  - symmetry. apply nadd_0_l.
  - rewrite IH. apply nadd_assoc.
Qed.


Lemma elem_lookup (data : list (gmap string value)) (i : nat)
  (d : gmap string value) :
  data !! i = Some d -> elem data i = Ok d.
Proof. intros H. unfold elem. rewrite H. reflexivity. Qed.

Lemma elem_lt (data : list (gmap string value)) (i : nat) :
  (i < length data)%nat -> elem data i = Ok (data !!! i).
Proof. intros H. apply elem_lookup, list_lookup_lookup_total_lt, H. Qed.

(** ** Period validation *)

Lemma check_period_nat (what : string) (p : nat) :
  (0 < p)%nat -> check_period what (Fin (INR p)) = Ok p.
Proof.
  intros Hp. unfold check_period.
  assert (H0 : 0 < INR p) by (apply lt_0_INR; exact Hp).
  rewrite nle_false by exact H0.
  unfold Number_isInteger. rewrite INR_IZR_INZ, ZfloorZ.
  destruct (Req_dec_T (IZR (Z.of_nat p)) (IZR (Z.of_nat p))) as [_|N];
    [| contradiction].
  simpl. rewrite Nat2Z.id. reflexivity.
Qed.

(** What [check_period] accepts: the positive integers. *)
Lemma check_period_Ok (what : string) (per : num) (p : nat) :
  check_period what per = Ok p <-> (0 < p)%nat /\ per = Fin (INR p).
Proof.
  split.
  - unfold check_period. destruct per as [r|]; simpl.
    + unfold nle, Number_isInteger.
      destruct (Rle_dec r 0) as [|Hr]; [discriminate |].
      destruct (Req_dec_T r (IZR (Zfloor r))) as [E|]; [| discriminate].
      simpl. intros [= <-].
      assert (Hz : (0 < Zfloor r)%Z).
      { apply lt_IZR. rewrite <- E. lra. }
      split; [lia |]. f_equal.
      rewrite INR_IZR_INZ, Z2Nat.id by lia. exact E.
    + discriminate.
  - intros [Hp ->]. apply check_period_nat, Hp.
Qed.

(** ** Simple moving average *)

Section SMA.

Variable data : list (gmap string value).
Variable params : Params.
Variable p : nat.

Let vf : string := default "y"%string (valueField params).
Let xf : string := default "x"%string (xField params).
Let ys : list num := (fun d => to_num (get d vf)) <$> data.

Hypothesis period_p : default (Fin 14) (period params) = Fin (INR p).
Hypothesis p_pos : (0 < p)%nat.

(** The trailing window of [p] values ending at index [i], and the point
    emitted there. *)
Let window (i : nat) : list num := take p (drop (i + 1 - p) ys).

Let sma_point (i : nat) : gmap string value :=
  <["original"%string := get (data !!! i) vf]>
  (<[vf := VNum (ndiv (foldr nadd (Fin 0) (window i)) (Fin (INR p)))]>
   (<[xf := get (data !!! i) xf]> ∅)).

Lemma window_sum_downward (i count : nat) :
  (count <= i + 1)%nat -> (i < length ys)%nat ->
  foldr nadd (Fin 0) (map (fun j => default NaN (ys !! (i - j)%nat)) (seq 0 count))
  = foldr nadd (Fin 0) (take count (drop (i + 1 - count) ys)).
Proof.
  intros Hc Hi. induction count as [|c IH]; [reflexivity |].
  rewrite seq_S, map_app, nsum_app, IH by lia. simpl map. simpl foldr at 2.
  rewrite nadd_0_r.
  destruct (lookup_lt_is_Some_2 ys (i - c)%nat) as [y Hy]; [lia |].
  replace (i + 1 - S c)%nat with (i - c)%nat by lia.
  rewrite (drop_S _ _ _ Hy). simpl take. simpl foldr.
  replace (S (i - c)) with (i + 1 - c)%nat by lia.
  rewrite Hy. simpl. apply nadd_comm.
Qed.

Lemma sma_inner (i start count : nat) (acc : num) :
  (start + count <= i + 1)%nat -> (i < length data)%nat ->
  Forall (fun d => exists v, get d vf = VNum v) data ->
  for_range (fun j sum =>
      d ← elem data (i - j);
      match get d vf with
      | VNum v => Ok (nadd sum v)
      | VUndef => Throw (InvalidValue (i - j) vf)
      end) start count acc
  = Ok (foldl (fun a j => nadd a (default NaN (ys !! (i - j)%nat))) acc
              (seq start count)).
Proof.
  intros Hc Hi Hnum. revert start acc Hc.
  induction count as [|c IH]; intros start acc Hc; [reflexivity |].
  rewrite for_range_S. simpl seq. simpl foldl. cbv beta.
  destruct (lookup_lt_is_Some_2 data (i - start)%nat) as [d Hd]; [lia |].
  rewrite (elem_lookup _ _ _ Hd), bind_Ok.
  destruct (Forall_lookup_1 _ _ _ _ Hnum Hd) as [v Hv].
  rewrite Hv.
  assert (Hy : ys !! (i - start)%nat = Some v).
  { unfold ys. rewrite list_lookup_fmap, Hd. simpl. rewrite Hv. reflexivity. }
  rewrite Hy. simpl default. rewrite bind_Ok.
  apply IH. lia.
Qed.

Lemma calculateSMA_loop (k : nat) :
  (k <= length data)%nat ->
  Forall (fun d => exists v, get d vf = VNum v) data ->
  for_range (fun i result =>
    if (i <? p - 1)%nat then Ok result
    else
      sum ← for_range (fun j sum =>
               d ← elem data (i - j);
               match get d vf with
               | VNum v => Ok (nadd sum v)
               | VUndef => Throw (InvalidValue (i - j) vf)
               end) 0 p (Fin 0);
      let sma := ndiv sum (Fin (INR p)) in
      d ← elem data i;
      Ok (result ++ [ <["original"%string := get d vf]>
                      (<[vf := VNum sma]>
                       (<[xf := get d xf]> ∅)) ]))
    0 k []
  = Ok (map sma_point (seq (p - 1) (k - (p - 1)))).
Proof.
  intros Hk Hnum. induction k as [|k IH]; [reflexivity |].
  rewrite for_range_snoc, IH, bind_Ok by lia. simpl Nat.add.
  destruct (k <? p - 1)%nat eqn:E.
  - apply Nat.ltb_lt in E.
    replace (S k - (p - 1))%nat with O by lia.
    replace (k - (p - 1))%nat with O by lia. reflexivity.
  - apply Nat.ltb_ge in E.
    rewrite sma_inner by (assumption || lia). rewrite bind_Ok.
    rewrite foldl_nadd, nadd_0_l.
    rewrite window_sum_downward by (unfold ys; rewrite ?length_fmap; lia).
    rewrite elem_lt, bind_Ok by lia.
    replace (S k - (p - 1))%nat with (S (k - (p - 1))) by lia.
    rewrite seq_S, map_app. simpl map.
    replace (p - 1 + (k - (p - 1)))%nat with k by lia.
    reflexivity.
Qed.

Lemma calculateSMA_value :
  Forall (fun d => exists v, get d vf = VNum v) data ->
  calculateSMA data params
  = Ok (map sma_point (seq (p - 1) (length data - (p - 1)))).
Proof.
  intros Hnum. unfold calculateSMA. rewrite period_p.
  rewrite check_period_nat by exact p_pos. rewrite bind_Ok.
  apply calculateSMA_loop; [lia | exact Hnum].
Qed.

End SMA.

(** Reading a field of an object literal. *)
Lemma get_insert (m : gmap string value) (k k' : string) (v : value) :
  get (<[k := v]> m) k' = if decide (k = k') then v else get m k'.
Proof.
  unfold get. destruct (decide (k = k')) as [->|Hne].
  - rewrite lookup_insert_eq. reflexivity.
  - rewrite lookup_insert_ne by exact Hne. reflexivity.
Qed.

Lemma get_empty (k : string) : get ∅ k = VUndef.
Proof. unfold get. rewrite lookup_empty. reflexivity. Qed.

Ltac get_eval :=
  repeat first
    [ rewrite get_empty
    | rewrite get_insert;
      match goal with
      | |- context [decide (?a = ?b)] =>
          destruct (decide (a = b)); [try discriminate | try congruence]
      end ].

Lemma point_xy_y (x y : R) : get (point_xy x y) "y" = VNum (Fin y).
Proof. unfold point_xy. get_eval. reflexivity. Qed.

Lemma point_xy_x (x y : R) : get (point_xy x y) "x" = VNum (Fin x).
Proof. unfold point_xy. get_eval. reflexivity. Qed.

(** C5. With a period that validates as the positive integer [p] and a
    number in the value field of every point, [calculateSMA] returns one
    point for each index [i] from [p - 1] to the last, in order, and none
    for the earlier ones: it carries the x of point [i], the sum of the [p]
    values ending at [i] divided by [p], and the value of point [i] as
    [original].  With period 2 the series (0,10), (1,12), (2,9), (3,15)
    gives (1,11), (2,10.5), (3,12). *)
Theorem calculateSMA_trailing_mean :
  (forall (data : list (gmap string value)) (params : Params) (p : nat),
     default (Fin 14) (period params) = Fin (INR p) ->
     (0 < p)%nat ->
     Forall (fun d => exists v,
               get d (default "y"%string (valueField params)) = VNum v) data ->
     calculateSMA data params
     = Ok (map (fun i =>
             <["original"%string :=
                 get (data !!! i) (default "y"%string (valueField params))]>
             (<[default "y"%string (valueField params) :=
                  VNum (ndiv
                    (foldr nadd (Fin 0)
                       (take p (drop (i + 1 - p)
                          ((fun d => to_num
                              (get d (default "y"%string (valueField params))))
                           <$> data))))
                    (Fin (INR p)))]>
              (<[default "x"%string (xField params) :=
                   get (data !!! i) (default "x"%string (xField params))]> ∅)))
           (seq (p - 1) (length data - (p - 1)))))
  /\
  calculateSMA
    [point_xy 0 10; point_xy 1 12; point_xy 2 9; point_xy 3 15]
    (mkParams (Some (Fin 2)) None None None None None None)
  = Ok [ <["original"%string := VNum (Fin 12)]> (point_xy 1 11);
         <["original"%string := VNum (Fin 9)]> (point_xy 2 (21 / 2));
         <["original"%string := VNum (Fin 15)]> (point_xy 3 12) ].
Proof.
  split.
  - intros data params p Hper Hp Hnum.
    apply calculateSMA_value; assumption.
  - rewrite (calculateSMA_value _ _ 2%nat).
    + cbn [length Nat.sub seq map period valueField xField from_option
           list_fmap fmap drop take foldr Nat.add lookup_total
           list_lookup_total].
      rewrite !point_xy_y, !point_xy_x. cbn [to_num INR].
      num_eval. unfold point_xy. fin_eq.
    + cbn [period from_option]. unfold Datatypes.id. simpl INR. fin_eq.
    + lia.
    + cbn [valueField from_option].
      repeat constructor; eexists; apply point_xy_y.
Qed.

Lemma calculateSMA_trailing_mean_witness :
  calculateSMA [point_xy 0 1; point_xy 1 3]
               (mkParams (Some (Fin (INR 2))) None None None None None None)
  = Ok [ <["original"%string := VNum (Fin 3)]>
         (<["y"%string :=
              VNum (ndiv (foldr nadd (Fin 0) [Fin 1; Fin 3]) (Fin (INR 2)))]>
          (<["x"%string := VNum (Fin 1)]> ∅)) ].
Proof.
  destruct calculateSMA_trailing_mean as [H _].
  rewrite (H _ _ 2%nat).
  - cbn [length Nat.sub seq map period valueField xField from_option
         list_fmap fmap drop take Nat.add lookup_total list_lookup_total].
    rewrite !point_xy_y, !point_xy_x. reflexivity.
  - reflexivity.
  - lia.
  - cbn [valueField from_option].
    repeat constructor; eexists; apply point_xy_y.
Defined.

(** ** Shortfalls of the data *)

(** A loop whose every turn leaves the variables as they are. *)
Lemma for_range_skip {St : Type} (body : nat -> St -> outcome St)
  (start count : nat) (s : St) :
  (forall i, (start <= i < start + count)%nat -> body i s = Ok s) ->
  for_range body start count s = Ok s.
Proof.
  revert start. induction count as [|c IH]; intros start H; [reflexivity |].
  rewrite for_range_S, H, bind_Ok by lia. apply IH. intros i Hi. apply H. lia.
Qed.

(** The unchecked window sum of [calculateEMA] (and of the Bollinger and
    MACD code) always completes: a missing value enters it as [NaN]. *)
Lemma unchecked_sum_total (data : list (gmap string value)) (vf : string)
  (i start count : nat) (acc : num) :
  (i < length data)%nat ->
  exists s,
    for_range (fun j sum =>
       d ← elem data (i - j);
       Ok (nadd sum (to_num (get d vf)))) start count acc = Ok s.
Proof.
  intros Hi. revert start acc.
  induction count as [|c IH]; intros start acc.
  - eexists. reflexivity.
  - rewrite for_range_S, elem_lt, !bind_Ok by lia. apply IH.
Qed.

Section Shortfalls.

Variable data : list (gmap string value).
Variable params : Params.
Variable p : nat.

Let vf : string := default "y"%string (valueField params).
Let xf : string := default "x"%string (xField params).

Hypothesis period_p : default (Fin 14) (period params) = Fin (INR p).
Hypothesis p_pos : (0 < p)%nat.

Lemma calculateSMA_short :
  (length data < p)%nat -> calculateSMA data params = Ok [].
Proof.
  intros Hn. unfold calculateSMA. rewrite period_p.
  rewrite check_period_nat, bind_Ok by exact p_pos.
  apply for_range_skip. intros i Hi.
  replace (i <? p - 1)%nat with true by (symmetry; apply Nat.ltb_lt; lia).
  reflexivity.
Qed.

Lemma calculateEMA_loop (k : nat) :
  (k <= length data)%nat ->
  exists ema out,
    for_range (fun i '(ema, result) =>
      if (i <? p - 1)%nat then Ok (ema, result)
      else
        ema ← (if (i =? p - 1)%nat then
                 sum ← for_range (fun j sum =>
                          d ← elem data (i - j);
                          Ok (nadd sum (to_num (get d vf))))
                        0 p (Fin 0);
                 Ok (ndiv sum (Fin (INR p)))
               else
                 d ← elem data i;
                 let value := to_num (get d vf) in
                 let ema := default (Fin 0) ema in
                 Ok (nadd (nmul (nsub value ema)
                                (ndiv (Fin 2) (nadd (Fin (INR p)) (Fin 1)))) ema));
        d ← elem data i;
        Ok (Some ema,
            result ++ [ <["original"%string := get d vf]>
                        (<[vf := VNum ema]>
                         (<[xf := get d xf]> (∅ : gmap string value))) ]))
      0 k (None, [])
    = Ok (ema, out) /\ length out = (k - (p - 1))%nat.
Proof.
  intros Hk. induction k as [|k IH].
  - exists None, []. split; reflexivity.
  - destruct IH as (ema & out & E & Hlen); [lia |].
    rewrite for_range_snoc, E, bind_Ok. simpl Nat.add. cbv beta iota.
    destruct (k <? p - 1)%nat eqn:Hkp.
    + apply Nat.ltb_lt in Hkp. exists ema, out. split; [reflexivity | lia].
    + apply Nat.ltb_ge in Hkp.
      assert (Hin : exists s,
                 for_range (fun j sum =>
                    d ← elem data (k - j);
                    Ok (nadd sum (to_num (get d vf)))) 0 p (Fin 0) = Ok s).
      { apply unchecked_sum_total. lia. }
      destruct Hin as [s Hs]. rewrite Hs, bind_Ok.
      rewrite !elem_lt by lia. rewrite !bind_Ok.
      destruct (k =? p - 1)%nat; rewrite bind_Ok;
        eexists _, _; (split; [reflexivity |]);
        rewrite length_app; simpl; lia.
Qed.

Lemma calculateEMA_total :
  exists out, calculateEMA data params = Ok out /\
              length out = (length data - (p - 1))%nat.
Proof.
  unfold calculateEMA. rewrite period_p.
  rewrite check_period_nat, bind_Ok by exact p_pos.
  destruct (calculateEMA_loop (length data)) as (ema & out & E & Hlen); [lia |].
  exists out. split; [| exact Hlen].
  cbv zeta. fold vf xf. cbv zeta in E.
  etransitivity; [apply (f_equal (fun r => mbind _ r)); exact E |].
  reflexivity.
Qed.

Lemma calculateSMA_throws :
  throws (calculateSMA data params) <->
  (p <= length data)%nat /\
  exists j d, data !! j = Some d /\ get d vf = VUndef.
Proof.
  split.
  - intros [e He].
    destruct (Nat.lt_ge_cases (length data) p) as [Hn | Hn].
    { rewrite calculateSMA_short in He by exact Hn. discriminate. }
    split; [exact Hn |].
    assert (Hdec : forall d : gmap string value,
               {exists v, get d vf = VNum v} + {~ exists v, get d vf = VNum v}).
    { intros d. destruct (get d vf) as [|v].
      - right. intros [v Hv]. discriminate.
      - left. exists v. reflexivity. }
    destruct (Forall_Exists_dec _ _ Hdec data) as [Hall | Hex].
    + rewrite (calculateSMA_value data params p period_p p_pos Hall) in He.
      discriminate.
    + apply Exists_exists in Hex. destruct Hex as (d & Hin & Hd).
      apply list_elem_of_lookup in Hin. destruct Hin as [j Hj].
      exists j, d. split; [exact Hj |].
      destruct (get d vf) as [|v]; [reflexivity |].
      exfalso. apply Hd. exists v. reflexivity.
  - intros (Hn & j & d & Hj & Hd).
    assert (Hjn : (j < length data)%nat) by (apply lookup_lt_is_Some; eauto).
    unfold calculateSMA. rewrite period_p.
    rewrite check_period_nat, bind_Ok by exact p_pos.
    apply (for_range_throws _ _ _ (Nat.max j (p - 1))); [lia |].
    intros result.
    replace (Nat.max j (p - 1) <? p - 1)%nat with false
      by (symmetry; apply Nat.ltb_ge; lia).
    assert (Hin : throws
      (for_range (fun j0 sum =>
          d0 ← elem data (Nat.max j (p - 1) - j0);
          match get d0 vf with
          | VNum v => Ok (nadd sum v)
          | VUndef => Throw (InvalidValue (Nat.max j (p - 1) - j0) vf)
          end) 0 p (Fin 0))).
    { apply (for_range_throws _ _ _ (Nat.max j (p - 1) - j)); [lia |].
      intros sum.
      replace (Nat.max j (p - 1) - (Nat.max j (p - 1) - j))%nat with j by lia.
      rewrite (elem_lookup _ _ _ Hj), bind_Ok. fold vf. rewrite Hd.
      eexists. reflexivity. }
    destruct Hin as [e He]. exists e. fold vf. rewrite He. reflexivity.
Qed.

End Shortfalls.

(** Unrolling a loop over a given series. *)
Ltac loop_eval :=
  repeat first
    [ rewrite for_range_S
    | rewrite bind_Ok
    | rewrite bind_Throw
    | progress cbn [for_range elem lookup list_lookup Nat.sub Nat.add
                    Nat.ltb Nat.leb Nat.eqb length from_option fst snd
                    to_num app last]
    | progress get_eval
    | rewrite point_xy_x
    | rewrite point_xy_y ].

Lemma one_is_INR : Fin 1 = Fin (INR 1).
Proof. reflexivity. Qed.

Lemma two_is_INR : Fin 2 = Fin (INR 2).
Proof. simpl. fin_eq. Qed.

(** C8, as the claim has it, fails on the series (0,1), (1, no value),
    (2,3) with period 1: [calculateSMA] throws at index 1, and
    [calculateEMA], which does not throw, does not omit the point either:
    it emits [NaN] there and at every later index. *)
Lemma missing_value_not_omitted :
  calculateSMA
    [point_xy 0 1; <["x"%string := VNum (Fin 1)]> ∅; point_xy 2 3]
    (mkParams (Some (Fin 1)) None None None None None None)
  = Throw (InvalidValue 1 "y")
  /\
  calculateEMA
    [point_xy 0 1; <["x"%string := VNum (Fin 1)]> ∅; point_xy 2 3]
    (mkParams (Some (Fin 1)) None None None None None None)
  = Ok [ <["original"%string := VNum (Fin 1)]> (point_xy 0 1);
         <["original"%string := VUndef]>
           (<["y"%string := VNum NaN]> (<["x"%string := VNum (Fin 1)]> ∅));
         <["original"%string := VNum (Fin 3)]>
           (<["y"%string := VNum NaN]> (<["x"%string := VNum (Fin 2)]> ∅)) ].
Proof.
  split.
  - unfold calculateSMA. cbn [period valueField xField from_option].
    unfold Datatypes.id. rewrite one_is_INR, check_period_nat by lia.
    loop_eval. reflexivity.
  - unfold calculateEMA. cbn [period valueField xField from_option].
    unfold Datatypes.id. rewrite one_is_INR, check_period_nat by lia.
    loop_eval. cbn [INR]. num_eval. unfold point_xy. fin_eq.
Qed.

(** C8, as the code has it.  With a period that validates as [p]: a series
    of fewer than [p] points gives the empty series, from [calculateSMA] and
    from [calculateEMA] alike; [calculateEMA] never throws and returns one
    point for each index from [p - 1] on, whatever the points hold;
    [calculateSMA] throws exactly when the series has at least [p] points
    and some point has no number in the value field. *)
Theorem indicator_shortfalls (data : list (gmap string value))
  (params : Params) (p : nat) :
  default (Fin 14) (period params) = Fin (INR p) ->
  (0 < p)%nat ->
  ((length data < p)%nat ->
   calculateSMA data params = Ok [] /\ calculateEMA data params = Ok [])
  /\
  (exists out, calculateEMA data params = Ok out /\
               length out = (length data - (p - 1))%nat)
  /\
  (throws (calculateSMA data params) <->
   (p <= length data)%nat /\
   exists j d, data !! j = Some d /\
               get d (default "y"%string (valueField params)) = VUndef).
Proof.
  intros Hper Hp.
  pose proof (calculateEMA_total data params p Hper Hp) as Hema.
  split; [| split].
  - intros Hn. split; [apply (calculateSMA_short data params p); assumption |].
    destruct Hema as (out & E & Hlen). rewrite E. f_equal.
    apply length_zero_iff_nil. lia.
  - exact Hema.
  - apply calculateSMA_throws; assumption.
Qed.

Lemma indicator_shortfalls_witness :
  throws (calculateSMA [ <["x"%string := VNum (Fin 0)]> ∅ ]
            (mkParams (Some (Fin (INR 1))) None None None None None None))
  /\
  exists out,
    calculateEMA [ <["x"%string := VNum (Fin 0)]> ∅ ]
      (mkParams (Some (Fin (INR 1))) None None None None None None) = Ok out /\
    length out = 1%nat.
Proof.
  destruct (indicator_shortfalls [ <["x"%string := VNum (Fin 0)]> ∅ ]
              (mkParams (Some (Fin (INR 1))) None None None None None None) 1%nat)
    as (_ & Hema & Hsma); [reflexivity | lia |].
  split; [| exact Hema].
  apply Hsma. split; [simpl; lia |].
  exists 0%nat, (<["x"%string := VNum (Fin 0)]> ∅).
  split; [reflexivity |]. cbn [valueField from_option]. get_eval. reflexivity.
Defined.

(** ** The dispatcher *)

(** C10. Whatever the indicator name and the parameters, [calculateIndicator]
    returns the empty array when [data] is [null], [undefined], not an
    array, or an empty array: the test on [data] comes before the indicator
    is looked at and before any period is validated. *)
Theorem calculateIndicator_no_data (indicator : string) (data : arg)
  (params : Params) :
  data = JNull \/ data = JUndefined \/ Array_isArray data = false
  \/ data = JArray [] ->
  calculateIndicator indicator data params = Ok [].
Proof.
  intros [-> | [-> | [H | ->]]]; try reflexivity.
  unfold calculateIndicator. rewrite H.
  destruct (falsy data); reflexivity.
Qed.

Lemma calculateIndicator_no_data_witness :
  calculateIndicator "sma" (JArray [])
    (mkParams (Some (Fin (-1))) None None None None None None) = Ok []
  /\
  calculateIndicator "nosuchindicator" (JNumber (Fin (5 / 2)))
    (mkParams (Some (Fin (5 / 2))) None None None None None None) = Ok [].
Proof.
  split.
  - apply calculateIndicator_no_data. right; right; right; reflexivity.
  - apply calculateIndicator_no_data. right; right; left; reflexivity.
Defined.

(** On a series that is not empty the same parameters are refused: the
    period is validated only past the test on [data]. *)
Lemma calculateIndicator_validates_later :
  calculateIndicator "SMA" (JArray [point_xy 0 1])
    (mkParams (Some (Fin (-1))) None None None None None None)
  = Throw (PeriodError "SMA").
Proof.
  unfold calculateIndicator.
  cbn [falsy Array_isArray elements_of length Nat.eqb negb orb].
  cbn [toLowerCase lower_ascii]. simpl String.eqb.
  unfold calculateSMA, check_period. cbn [period from_option].
  unfold Datatypes.id. rewrite nle_true by lra. reflexivity.
Qed.

(** ** Relative strength index *)

Lemma delta_sum_S (c : nat -> R) (m : nat) :
  delta_sum c (S m) = delta_sum c m + c (S m).
Proof.
  unfold delta_sum. rewrite seq_S, map_app, fold_right_app. simpl.
  generalize (seq 1 m). intros l. induction l as [|a l IH]; simpl; [lra |].
  rewrite IH. lra.
Qed.

Lemma rsi_entry_avgGain (xf vf : string) (d : gmap string value) (g l : num) :
  get (rsi_entry xf vf d g l) "avgGain" = VNum g.
Proof. unfold rsi_entry. get_eval. reflexivity. Qed.

Lemma rsi_entry_avgLoss (xf vf : string) (d : gmap string value) (g l : num) :
  get (rsi_entry xf vf d g l) "avgLoss" = VNum l.
Proof. unfold rsi_entry. get_eval. reflexivity. Qed.

Lemma Rdiv_nonneg (x y : R) : 0 <= x -> 0 < y -> 0 <= x / y.
Proof. intros Hx Hy. apply Rle_mult_inv_pos; assumption. Qed.

Lemma rsi_entry_rsi (xf vf : string) (d : gmap string value) (g l : R) :
  0 <= g -> 0 <= l ->
  get (rsi_entry xf vf d (Fin g) (Fin l)) "rsi"
  = VNum (Fin (if Req_dec_T l 0 then 100 else 100 - 100 / (1 + g / l))).
Proof.
  intros Hg Hl. unfold rsi_entry. get_eval.
  destruct (Req_dec_T l 0) as [E|E].
  - subst l. rewrite strict_eq_same. reflexivity.
  - rewrite strict_eq_diff by exact E.
    assert (0 <= g / l) by (apply Rdiv_nonneg; lra).
    num_eval. reflexivity.
Qed.

Lemma gain_S (v : nat -> R) (k : nat) :
  gain v (S k) = if Rle_dec 0 (v (S k) - v k) then v (S k) - v k else 0.
Proof. unfold gain. replace (S k - 1)%nat with k by lia. reflexivity. Qed.

Lemma loss_S (v : nat -> R) (k : nat) :
  loss v (S k) = if Rle_dec 0 (v (S k) - v k) then 0 else - (v (S k) - v k).
Proof. unfold loss. replace (S k - 1)%nat with k by lia. reflexivity. Qed.

Lemma gain_nonneg (v : nat -> R) (i : nat) : 0 <= gain v i.
Proof. unfold gain. case_real; lra. Qed.

Lemma loss_nonneg (v : nat -> R) (i : nat) : 0 <= loss v i.
Proof. unfold loss. case_real; lra. Qed.

Lemma loss_zero (v : nat -> R) (i : nat) :
  loss v i = 0 <-> v (i - 1)%nat <= v i.
Proof. unfold loss. case_real; split; intros; lra. Qed.

Lemma delta_sum_nonneg (c : nat -> R) (m : nat) :
  (forall i, 0 <= c i) -> 0 <= delta_sum c m.
Proof.
  intros Hc. induction m as [|m IH]; [unfold delta_sum; simpl; lra |].
  rewrite delta_sum_S. specialize (Hc (S m)). lra.
Qed.

Lemma delta_sum_zero (c : nat -> R) (m : nat) :
  (forall i, 0 <= c i) ->
  delta_sum c m = 0 <-> forall j, (1 <= j <= m)%nat -> c j = 0.
Proof.
  intros Hc. induction m as [|m IH].
  - split; [intros _ j Hj; lia | intros _; reflexivity].
  - rewrite delta_sum_S.
    pose proof (delta_sum_nonneg c m Hc) as Hs. pose proof (Hc (S m)) as Hm.
    split.
    + intros E j Hj. destruct (decide (j = S m)) as [->|Hne]; [lra |].
      apply IH; [lra | lia].
    + intros H. rewrite (proj2 IH), (H (S m)) by (try lia; intros; apply H; lia).
      lra.
Qed.

Lemma wilder_avg_nonneg (c : nat -> R) (p k : nat) :
  (0 < p)%nat -> (forall i, 0 <= c i) -> 0 <= wilder_avg c p k.
Proof.
  intros Hp Hc.
  assert (H0 : 0 < INR p) by (apply lt_0_INR; exact Hp).
  assert (H1 : 0 <= INR p - 1).
  { apply le_INR in Hp. simpl in Hp. lra. }
  induction k as [|k IH]; simpl.
  - apply Rdiv_nonneg; [apply delta_sum_nonneg, Hc | exact H0].
  - apply Rdiv_nonneg; [| exact H0].
    specialize (Hc (p + S k)%nat). nra.
Qed.

(** The smoothed average is zero exactly when the quantity is zero at
    every delta that still weighs in it: all of them from the first, unless
    the period is 1, when the recurrence keeps the current one only. *)
Lemma wilder_avg_zero (c : nat -> R) (p k : nat) :
  (0 < p)%nat -> (forall i, 0 <= c i) ->
  wilder_avg c p k = 0 <->
  forall j, ((if (p =? 1)%nat then S k else 1) <= j <= p + k)%nat -> c j = 0.
Proof.
  intros Hp Hc.
  assert (H0 : 0 < INR p) by (apply lt_0_INR; exact Hp).
  assert (Hdiv : forall x, x / INR p = 0 <-> x = 0).
  { intros x. split; intros E.
    - apply (f_equal (fun y => y * INR p)) in E.
      unfold Rdiv in E. rewrite Rmult_assoc, Rinv_l, Rmult_1_r, Rmult_0_l in E by lra.
      exact E.
    - subst x. unfold Rdiv. ring. }
  destruct (p =? 1)%nat eqn:Ep.
  - apply Nat.eqb_eq in Ep. subst p. destruct k as [|k]; simpl.
    + rewrite Hdiv. unfold delta_sum. simpl. split.
      * intros E j Hj. replace j with 1%nat by lia. lra.
      * intros H. rewrite (H 1%nat) by lia. lra.
    + rewrite Hdiv. split.
      * intros E j Hj. replace j with (S (S k)) by lia. lra.
      * intros H. rewrite (H (S (S k))) by lia. lra.
  - apply Nat.eqb_neq in Ep.
    assert (H1 : 0 < INR p - 1).
    { assert (2 <= p)%nat as Hp2 by lia. apply le_INR in Hp2. simpl in Hp2. lra. }
    induction k as [|k IH]; simpl.
    + rewrite Hdiv, delta_sum_zero by exact Hc.
      split; intros H j Hj; apply H; lia.
    + rewrite Hdiv.
      pose proof (wilder_avg_nonneg c p k Hp Hc) as Hw.
      pose proof (Hc (p + S k)%nat) as Hs.
      split.
      * intros E j Hj.
        assert (Ew : wilder_avg c p k = 0) by nra.
        destruct (decide (j = (p + S k)%nat)) as [->|Hne]; [nra |].
        apply (proj1 IH Ew). lia.
      * intros H. rewrite (proj2 IH), (H (p + S k)%nat) by (try lia; intros; apply H; lia).
        lra.
Qed.

Section RSI.

Variable data : list (gmap string value).
Variable params : Params.
Variable p : nat.
Variable v : nat -> R.

Let vf : string := default "y"%string (valueField params).
Let xf : string := default "x"%string (xField params).

Hypothesis period_p : default (Fin 14) (period params) = Fin (INR p).
Hypothesis p_pos : (0 < p)%nat.
Hypothesis values :
  forall i d, data !! i = Some d -> get d vf = VNum (Fin (v i)).

Let entry (k : nat) : gmap string value :=
  rsi_entry xf vf (data !!! (p + k)%nat)
            (Fin (wilder_avg (gain v) p k)) (Fin (wilder_avg (loss v) p k)).

Lemma value_at (i : nat) :
  (i < length data)%nat -> to_num (get (data !!! i) vf) = Fin (v i).
Proof.
  intros Hi. rewrite (values i (data !!! i)); [reflexivity |].
  apply list_lookup_lookup_total_lt, Hi.
Qed.

Lemma calculateRSI_loop (k : nat) :
  (k <= length data)%nat ->
  for_range (fun i '(gains, losses, result) =>
    if (i =? 0)%nat then Ok (gains, losses, result)
    else
      cur ← elem data i;
      prev ← elem data (i - 1);
      let currentValue := to_num (get cur vf) in
      let previousValue := to_num (get prev vf) in
      let change := nsub currentValue previousValue in
      if (i <=? p)%nat then
        let '(gains, losses) :=
          if nge change (Fin 0) then (nadd gains change, losses)
          else (gains, nsub losses change) in
        if (i <? p)%nat then Ok (gains, losses, result)
        else
          let avgGain := ndiv gains (Fin (INR p)) in
          let avgLoss := ndiv losses (Fin (INR p)) in
          Ok (gains, losses,
              result ++ [rsi_entry xf vf cur avgGain avgLoss])
      else
        prevEntry ← last_entry result;
        let previousAvgGain := to_num (get prevEntry "avgGain") in
        let previousAvgLoss := to_num (get prevEntry "avgLoss") in
        let currentGain := if nge change (Fin 0) then change else Fin 0 in
        let currentLoss := if nlt change (Fin 0) then nneg change else Fin 0 in
        let avgGain :=
          ndiv (nadd (nmul previousAvgGain (nsub (Fin (INR p)) (Fin 1))) currentGain)
               (Fin (INR p)) in
        let avgLoss :=
          ndiv (nadd (nmul previousAvgLoss (nsub (Fin (INR p)) (Fin 1))) currentLoss)
               (Fin (INR p)) in
        Ok (gains, losses,
            result ++ [rsi_entry xf vf cur avgGain avgLoss]))
    0 k (Fin 0, Fin 0, [])
  = Ok (Fin (delta_sum (gain v) (Nat.min (k - 1) p)),
        Fin (delta_sum (loss v) (Nat.min (k - 1) p)),
        map entry (seq 0 (k - p))).
Proof.
  intros Hk.
  assert (H0 : INR p <> 0) by (apply not_0_INR; lia).
  induction k as [|k IH]; [reflexivity |].
  rewrite for_range_snoc, IH, bind_Ok by lia. simpl Nat.add. cbv beta iota.
  destruct k as [|k].
  { replace (1 - p)%nat with O by lia. reflexivity. }
  change (S k =? 0)%nat with false. cbv iota.
  rewrite !elem_lt, !bind_Ok by lia. cbv zeta.
  rewrite !value_at by lia. rewrite nsub_fin.
  replace (S k - 1)%nat with k by lia.
  replace (S (S k) - 1)%nat with (S k) by lia.
  destruct (S k <=? p)%nat eqn:Ele.
  - apply Nat.leb_le in Ele.
    replace (Nat.min k p) with k by lia.
    replace (Nat.min (S k) p) with (S k) by lia.
    replace (S k - p)%nat with O by lia.
    assert (Eg : (if nge (Fin (v (S k) - v k)) (Fin 0)
                  then (nadd (Fin (delta_sum (gain v) k)) (Fin (v (S k) - v k)),
                        Fin (delta_sum (loss v) k))
                  else (Fin (delta_sum (gain v) k),
                        nsub (Fin (delta_sum (loss v) k)) (Fin (v (S k) - v k))))
                 = (Fin (delta_sum (gain v) (S k)), Fin (delta_sum (loss v) (S k)))).
    { rewrite !delta_sum_S, gain_S, loss_S. unfold nge.
      destruct (Rle_dec 0 (v (S k) - v k)) as [Hc|Hc].
      - rewrite nle_true by exact Hc. num_eval. f_equal; fin_eq.
      - rewrite nle_false by lra. num_eval. f_equal; fin_eq. }
    rewrite Eg.
    destruct (S k <? p)%nat eqn:Elt.
    + apply Nat.ltb_lt in Elt.
      replace (S (S k) - p)%nat with O by lia. reflexivity.
    + apply Nat.ltb_ge in Elt. assert (p = S k) by lia. subst p.
      replace (S (S k) - S k)%nat with 1%nat by lia.
      rewrite !ndiv_fin by exact H0. simpl seq. simpl map. simpl app.
      unfold entry. replace (S k + 0)%nat with (S k) by lia. reflexivity.
  - apply Nat.leb_gt in Ele.
    replace (Nat.min k p) with p by lia.
    replace (Nat.min (S k) p) with p by lia.
    replace (S k - p)%nat with (S (k - p)) by lia.
    replace (S (S k) - p)%nat with (S (S (k - p))) by lia.
    rewrite (seq_S (S (k - p))), map_app. simpl Nat.add. simpl (map entry [_]).
    set (done := map entry (seq 0 (S (k - p)))).
    assert (El : last_entry done = Ok (entry (k - p))).
    { unfold last_entry, done. rewrite seq_S, map_app. simpl map.
      rewrite last_snoc. reflexivity. }
    rewrite El, bind_Ok. unfold entry at 1 2.
    rewrite rsi_entry_avgGain, rsi_entry_avgLoss. cbn [to_num].
    assert (EA :
      ndiv (nadd (nmul (Fin (wilder_avg (gain v) p (k - p)))
                       (nsub (Fin (INR p)) (Fin 1)))
                 (if nge (Fin (v (S k) - v k)) (Fin 0)
                  then Fin (v (S k) - v k) else Fin 0))
           (Fin (INR p))
      = Fin (wilder_avg (gain v) p (S (k - p)))).
    { cbn [wilder_avg]. replace (p + S (k - p))%nat with (S k) by lia.
      unfold nge. rewrite gain_S.
      destruct (Rle_dec 0 (v (S k) - v k)) as [Hc|Hc].
      - rewrite nle_true by exact Hc. num_eval. reflexivity.
      - rewrite nle_false by lra. num_eval. reflexivity. }
    assert (EB :
      ndiv (nadd (nmul (Fin (wilder_avg (loss v) p (k - p)))
                       (nsub (Fin (INR p)) (Fin 1)))
                 (if nlt (Fin (v (S k) - v k)) (Fin 0)
                  then nneg (Fin (v (S k) - v k)) else Fin 0))
           (Fin (INR p))
      = Fin (wilder_avg (loss v) p (S (k - p)))).
    { cbn [wilder_avg]. replace (p + S (k - p))%nat with (S k) by lia.
      rewrite loss_S.
      destruct (Rle_dec 0 (v (S k) - v k)) as [Hc|Hc].
      - rewrite nlt_false by lra. num_eval. reflexivity.
      - rewrite nlt_true by lra. cbn [nneg]. num_eval. reflexivity. }
    rewrite EA, EB. unfold entry.
    replace (p + S (k - p))%nat with (S k) by lia. reflexivity.
Qed.

Lemma calculateRSI_value :
  calculateRSI data params = Ok (map entry (seq 0 (length data - p))).
Proof.
  unfold calculateRSI. rewrite period_p.
  rewrite check_period_nat, bind_Ok by exact p_pos.
  cbv zeta. fold vf xf.
  etransitivity;
    [apply (f_equal (fun r => mbind _ r)); apply calculateRSI_loop; lia |].
  reflexivity.
Qed.

End RSI.

(** C6, as the code has it.  With a period that validates as [p] and real
    values [v i] in the value field, [calculateRSI] returns one entry for
    each index [p + k] of the series, carrying the averages of the gains
    and of the losses: their mean over the first [p] deltas at the seed
    index [p], and Wilder's recurrence after it.  The RSI of an entry is
    100 when its average loss is 0 and [100 - 100 / (1 + avgGain / avgLoss)]
    otherwise.  The average loss at index [p + k] is 0 exactly when no
    delta from the first one up to that index is a loss (for period 1:
    when the delta ending at that index is not a loss). *)
Theorem calculateRSI_wilder (data : list (gmap string value))
  (params : Params) (p : nat) (v : nat -> R) :
  default (Fin 14) (period params) = Fin (INR p) ->
  (0 < p)%nat ->
  (forall i d, data !! i = Some d ->
     get d (default "y"%string (valueField params)) = VNum (Fin (v i))) ->
  calculateRSI data params
  = Ok (map (fun k =>
          rsi_entry (default "x"%string (xField params))
                    (default "y"%string (valueField params))
                    (data !!! (p + k)%nat)
                    (Fin (wilder_avg (gain v) p k))
                    (Fin (wilder_avg (loss v) p k)))
        (seq 0 (length data - p)))
  /\
  (forall k,
     get (rsi_entry (default "x"%string (xField params))
                    (default "y"%string (valueField params))
                    (data !!! (p + k)%nat)
                    (Fin (wilder_avg (gain v) p k))
                    (Fin (wilder_avg (loss v) p k))) "rsi"
     = VNum (Fin (if Req_dec_T (wilder_avg (loss v) p k) 0 then 100
                  else 100 - 100 / (1 + wilder_avg (gain v) p k
                                         / wilder_avg (loss v) p k))))
  /\
  (forall k,
     wilder_avg (loss v) p k = 0 <->
     forall j, ((if (p =? 1)%nat then S k else 1) <= j <= p + k)%nat ->
               v (j - 1)%nat <= v j).
Proof.
  intros Hper Hp Hval. split; [| split].
  - apply calculateRSI_value; assumption.
  - intros k. apply rsi_entry_rsi; apply wilder_avg_nonneg;
      auto using gain_nonneg, loss_nonneg.
  - intros k. rewrite wilder_avg_zero by auto using loss_nonneg.
    split; intros H j Hj; apply loss_zero, H, Hj.
Qed.

(** C6, as the claim has it, fails on the prices 10, 9, 10, 11 with period
    2: the two deltas that end at index 3 are gains, the window holds no
    loss, and the RSI there is 75, because the loss of the first delta
    still weighs 1/4 in the smoothed average. *)
Lemma rsi_below_100_without_loss_in_window :
  calculateRSI [point_xy 0 10; point_xy 1 9; point_xy 2 10; point_xy 3 11]
               (mkParams (Some (Fin 2)) None None None None None None)
  = Ok [ <["original"%string := VNum (Fin 10)]>
         (<["avgLoss"%string := VNum (Fin (1 / 2))]>
          (<["avgGain"%string := VNum (Fin (1 / 2))]>
           (<["rsi"%string := VNum (Fin 50)]>
            (<["x"%string := VNum (Fin 2)]> ∅))));
         <["original"%string := VNum (Fin 11)]>
         (<["avgLoss"%string := VNum (Fin (1 / 4))]>
          (<["avgGain"%string := VNum (Fin (3 / 4))]>
           (<["rsi"%string := VNum (Fin 75)]>
            (<["x"%string := VNum (Fin 3)]> ∅)))) ].
Proof.
  unfold calculateRSI. cbn [period valueField xField from_option].
  unfold Datatypes.id. rewrite two_is_INR, check_period_nat by lia.
  unfold nge. cbn [INR].
  loop_eval. num_eval. loop_eval. num_eval. loop_eval.
  const ((0 + (10 - 9)) / (1 + 1)) (1 / 2).
  const ((0 - (9 - 10)) / (1 + 1)) (1 / 2).
  cbn [last_entry last]. loop_eval.
  rewrite rsi_entry_avgGain, rsi_entry_avgLoss. cbn [to_num nneg].
  num_eval.
  const ((1 / 2 * (1 + 1 - 1) + (11 - 10)) / (1 + 1)) (3 / 4).
  const ((1 / 2 * (1 + 1 - 1) + 0) / (1 + 1)) (1 / 4).
  unfold rsi_entry. rewrite !point_xy_x, !point_xy_y. num_eval.
  const (1 / 2 / (1 / 2)) 1. const (3 / 4 / (1 / 4)) 3. num_eval.
  fin_eq.
Qed.

Lemma calculateRSI_wilder_witness :
  exists out,
    calculateRSI [point_xy 0 10; point_xy 1 9; point_xy 2 10; point_xy 3 11]
                 (mkParams (Some (Fin (INR 2))) None None None None None None)
    = Ok out /\ length out = 2%nat.
Proof.
  destruct (calculateRSI_wilder
              [point_xy 0 10; point_xy 1 9; point_xy 2 10; point_xy 3 11]
              (mkParams (Some (Fin (INR 2))) None None None None None None)
              2%nat (fun i => nth i [10; 9; 10; 11] 0)) as [H _].
  - reflexivity.
  - lia.
  - intros i d. cbn [valueField from_option].
    destruct i as [|[|[|[|i]]]]; cbn [lookup list_lookup];
      intros [= <-]; apply point_xy_y.
  - eexists. split; [exact H | reflexivity].
Defined.

(** ** Stacked series *)


Lemma elem_of_Set_add (s : list num) (k x : num) :
  x ∈ Set_add s k <-> x ∈ s \/ x = k.
Proof.
  unfold Set_add. destruct (decide (k ∈ s)) as [Hin|Hin].
  - split; [auto | intros [H | ->]; assumption].
  - rewrite elem_of_app, list_elem_of_singleton. reflexivity.
Qed.

Lemma elem_of_sort_insert (cmp : num -> num -> num) (a x : num) (l : list num) :
  x ∈ sort_insert cmp a l <-> x = a \/ x ∈ l.
Proof.
  induction l as [|y l IH]; simpl.
  - rewrite list_elem_of_singleton. split; [auto | intros [H|H]; [exact H |]].
    inversion H.
  - destruct (nlt (Fin 0) (cmp a y)).
    + rewrite !elem_of_cons, IH. tauto.
    + rewrite elem_of_cons. reflexivity.
Qed.

Lemma elem_of_Array_sort (cmp : num -> num -> num) (x : num) (l : list num) :
  x ∈ Array_sort cmp l <-> x ∈ l.
Proof.
  unfold Array_sort. induction l as [|a l IH]; simpl; [reflexivity |].
  rewrite elem_of_sort_insert, IH, elem_of_cons. reflexivity.
Qed.

Section Stack.

Variables xField yField : string.

Let add_x (s : list num) (d : gmap string value) : list num :=
  match get d xField with
  | VNum k => Set_add s k
  | VUndef => s
  end.

Lemma elem_of_points (data : list (gmap string value)) (s : list num) (x : num) :
  x ∈ foldl add_x s data <->
  x ∈ s \/ exists d, d ∈ data /\ get d xField = VNum x.
Proof.
  revert s. induction data as [|d data IH]; intros s; simpl.
  - split; [auto | intros [H | (d & Hd & _)]; [exact H | inversion Hd]].
  - rewrite IH. unfold add_x. split.
    + intros [H | (d' & Hd' & Hx)].
      * destruct (get d xField) as [|k] eqn:E; [auto |].
        apply elem_of_Set_add in H. destruct H as [H | ->]; [auto |].
        right. exists d. split; [left | exact E].
      * right. exists d'. split; [right; exact Hd' | exact Hx].
    + intros [H | (d' & Hd' & Hx)].
      * left. destruct (get d xField); [exact H |].
        apply elem_of_Set_add. auto.
      * apply elem_of_cons in Hd'. destruct Hd' as [-> | Hd'].
        -- left. rewrite Hx. apply elem_of_Set_add. auto.
        -- right. exists d'. auto.
Qed.

Lemma elem_of_allXValues (datasets : list dataset) (x : num) :
  x ∈ allXValues xField datasets <->
  exists ds d, ds ∈ datasets /\ d ∈ ds_data ds /\ get d xField = VNum x.
Proof.
  unfold allXValues.
  change (fun (s : list num) (ds : dataset) =>
            foldl (fun s0 d => match get d xField with
                               | VNum k => Set_add s0 k
                               | VUndef => s0
                               end) s (ds_data ds))
    with (fun (s : list num) (ds : dataset) => foldl add_x s (ds_data ds)).
  assert (G : forall s,
    x ∈ foldl (fun s ds => foldl add_x s (ds_data ds)) s datasets <->
    x ∈ s \/ exists ds d, ds ∈ datasets /\ d ∈ ds_data ds /\ get d xField = VNum x).
  { induction datasets as [|ds dss IH]; intros s; simpl.
    - split; [auto | intros [H | (ds & d & Hd & _)]; [exact H | inversion Hd]].
    - rewrite IH, elem_of_points. split.
      + intros [[H | (d & Hd & Hx)] | (ds' & d & Hds & Hd & Hx)].
        * auto.
        * right. exists ds, d. split; [left | auto].
        * right. exists ds', d. split; [right; exact Hds | auto].
      + intros [H | (ds' & d & Hds & Hd & Hx)]; [auto |].
        apply elem_of_cons in Hds. destruct Hds as [-> | Hds].
        * left. right. exists d. auto.
        * right. exists ds', d. auto. }
  rewrite G. split; [intros [H | H]; [inversion H | exact H] | auto].
Qed.

(** One [forEach] turn of the lookup map. *)
Let bind_y (m : list (num * value)) (d : gmap string value)
  : list (num * value) :=
  match get d xField, get d yField with
  | VNum xVal, VNum y => Map_set m xVal (VNum y)
  | _, _ => m
  end.

Lemma Map_get_unbound (data : list (gmap string value))
  (m : list (num * value)) (x : num) :
  (forall d, d ∈ data -> get d xField = VNum x -> get d yField = VUndef) ->
  Map_get (foldl bind_y m data) x = Map_get m x.
Proof.
  revert m. induction data as [|d data IH]; intros m H; simpl; [reflexivity |].
  rewrite IH by (intros d' Hd'; apply H; right; exact Hd').
  unfold bind_y. destruct (get d xField) as [|k] eqn:Ex; [reflexivity |].
  destruct (get d yField) as [|y] eqn:Ey; [reflexivity |].
  unfold Map_set. simpl. destruct (decide (k = x)) as [->|Hne]; [| reflexivity].
  specialize (H d (list_elem_of_here _ _) Ex). congruence.
Qed.

Lemma Map_get_last (before after : list (gmap string value))
  (d : gmap string value) (x y : num) :
  get d xField = VNum x -> get d yField = VNum y ->
  (forall d', d' ∈ after -> get d' xField = VNum x -> get d' yField = VUndef) ->
  Map_get (foldl bind_y [] (before ++ d :: after)) x = VNum y.
Proof.
  intros Hx Hy Hafter. rewrite foldl_app. simpl.
  rewrite Map_get_unbound by exact Hafter.
  unfold bind_y. rewrite Hx, Hy. unfold Map_set. simpl.
  destruct (decide (x = x)); [reflexivity | contradiction].
Qed.

End Stack.

Lemma nsum_constant (A : Type) (f : A -> num) (l : list A) (v : R) :
  (forall a, a ∈ l -> f a = Fin v) ->
  foldr nadd (Fin 0) (map f l) = Fin (INR (length l) * v).
Proof.
  intros H. induction l as [|a l IH].
  - simpl. fin_eq.
  - cbn [map foldr length].
    rewrite IH by (intros b Hb; apply H; right; exact Hb).
    rewrite (H a) by left. rewrite nadd_fin, S_INR. fin_eq.
Qed.

Lemma earlier_maps (xField yField : string) (datasets : list dataset)
  (g : list (num * value) -> num) (k : nat) :
  (k <= length datasets)%nat ->
  map (fun i => g (default [] (map (datasetMap xField yField) datasets !! i)))
      (seq 0 k)
  = map (fun ds => g (datasetMap xField yField ds)) (take k datasets).
Proof.
  intros Hk. induction k as [|k IH]; [reflexivity |].
  destruct (lookup_lt_is_Some_2 datasets k) as [ds Hds]; [lia |].
  rewrite seq_S, map_app, IH, (take_S_r _ _ _ Hds), map_app by lia.
  simpl. rewrite list_lookup_fmap, Hds. reflexivity.
Qed.

(** The loop over the earlier series reads the lookup maps in the order of
    the series. *)
Lemma foldl_earlier_maps (xField yField : string) (datasets : list dataset)
  (g : list (num * value) -> num) (a : num) (k : nat) :
  (k <= length datasets)%nat ->
  foldl (fun acc i =>
           nadd acc (g (default [] (map (datasetMap xField yField) datasets !! i))))
        a (seq 0 k)
  = foldl (fun acc ds => nadd acc (g (datasetMap xField yField ds)))
          a (take k datasets).
Proof.
  intros Hk. induction k as [|k IH]; [reflexivity |].
  destruct (lookup_lt_is_Some_2 datasets k) as [ds Hds]; [lia |].
  rewrite seq_S, foldl_app, IH, (take_S_r _ _ _ Hds), foldl_app by lia.
  simpl. rewrite list_lookup_fmap, Hds. reflexivity.
Qed.

(** The same loop on binary64 numbers. *)
Lemma foldl_earlier_maps_f64 (xField yField : string)
  (datasets : list F64.dataset)
  (g : list (PrimFloat.float * F64.value) -> PrimFloat.float)
  (a : PrimFloat.float) (k : nat) :
  (k <= length datasets)%nat ->
  foldl (fun acc i =>
           PrimFloat.add acc
             (g (default [] (map (F64.datasetMap xField yField) datasets !! i))))
        a (seq 0 k)
  = foldl (fun acc ds => PrimFloat.add acc (g (F64.datasetMap xField yField ds)))
          a (take k datasets).
Proof.
  intros Hk. induction k as [|k IH]; [reflexivity |].
  destruct (lookup_lt_is_Some_2 datasets k) as [ds Hds]; [lia |].
  rewrite seq_S, foldl_app, IH, (take_S_r _ _ _ Hds), foldl_app by lia.
  simpl. rewrite list_lookup_fmap, Hds. reflexivity.
Qed.

(** Adding [v] to [v], [k] times over, is [(k + 1) * v] when no addition
    rounds. *)
Lemma iter_nadd_exact (k : nat) (v : R) :
  Nat.iter k (fun acc => nadd acc (Fin v)) (Fin v) = Fin (INR (S k) * v).
Proof.
  induction k as [|k IH].
  - simpl. fin_eq.
  - rewrite Nat.iter_succ, IH, nadd_fin, (S_INR (S k)). fin_eq.
Qed.

(** C7.  [createStackedData] leaves the first series as it is.  For [k > 0],
    and when no x-key is [NaN], it replaces the points of series [k] by one
    point for each x-key of the sorted union of the keys of all series: its
    y is the value series [k] has at that key, to which the values the
    series 0, 1, ... [k - 1] have there are added one after the other, in
    this order; the value of a series with no value at the key is 0 (the
    value a series has at a key is the y of its last point with that x and
    a y).  When each of the series 0 to [k] has the value [v] at a key, the
    stacked value there is [v] with [v] added to it [k] times; this is
    [(k + 1) * v] in exact arithmetic, that is when no addition rounds
    (on binary64 numbers it can differ from the product: see
    [stacked_constant_not_product]).  The last three parts state the
    first three on binary64 numbers, where each addition rounds. *)
Theorem createStackedData_cumulative (xField yField : string)
  (datasets : list dataset) :
  createStackedData xField yField datasets !! 0%nat = datasets !! 0%nat
  /\
  (forall k ds, (0 < k)%nat -> datasets !! k = Some ds ->
     (forall ds' d, ds' ∈ datasets -> d ∈ ds_data ds' ->
        get d xField <> VNum NaN) ->
     createStackedData xField yField datasets !! k
     = Some {| ds_id := ds_id ds; ds_name := ds_name ds;
               ds_color := ds_color ds; ds_width := ds_width ds;
               ds_type := ds_type ds;
               ds_data :=
                 map (fun xVal =>
                   <["originalValue"%string :=
                       VNum (or_zero (Map_get (datasetMap xField yField ds) xVal))]>
                   (<[yField :=
                        VNum (foldl
                                (fun acc d =>
                                   nadd acc
                                     (or_zero
                                        (Map_get (datasetMap xField yField d) xVal)))
                                (or_zero (Map_get (datasetMap xField yField ds) xVal))
                                (take k datasets))]>
                    (<[xField := VNum xVal]> ∅)))
                   (Array_sort (fun a b => nsub a b)
                               (allXValues xField datasets)) |})
  /\
  (forall k ds v xVal, datasets !! k = Some ds ->
     (forall i d, (i <= k)%nat -> datasets !! i = Some d ->
        or_zero (Map_get (datasetMap xField yField d) xVal) = Fin v) ->
     foldl (fun acc d =>
              nadd acc (or_zero (Map_get (datasetMap xField yField d) xVal)))
           (or_zero (Map_get (datasetMap xField yField ds) xVal))
           (take k datasets)
     = Nat.iter k (fun acc => nadd acc (Fin v)) (Fin v)
     /\
     Nat.iter k (fun acc => nadd acc (Fin v)) (Fin v) = Fin (INR (S k) * v))
  /\
  (forall xVal,
     xVal ∈ Array_sort (fun a b => nsub a b) (allXValues xField datasets) <->
     exists ds d, ds ∈ datasets /\ d ∈ ds_data ds /\ get d xField = VNum xVal)
  /\
  (forall ds xVal,
     (forall d, d ∈ ds_data ds -> get d xField = VNum xVal ->
                get d yField = VUndef) ->
     or_zero (Map_get (datasetMap xField yField ds) xVal) = Fin 0)
  /\
  (forall ds before d after xVal y,
     ds_data ds = before ++ d :: after ->
     get d xField = VNum xVal -> get d yField = VNum y ->
     (forall d', d' ∈ after -> get d' xField = VNum xVal ->
                 get d' yField = VUndef) ->
     Map_get (datasetMap xField yField ds) xVal = VNum y)
  /\
  (forall series : list F64.dataset,
     F64.createStackedData xField yField series !! 0%nat = series !! 0%nat)
  /\
  (forall (series : list F64.dataset) k ds,
     (0 < k)%nat -> series !! k = Some ds ->
     (forall ds' d x, ds' ∈ series -> d ∈ F64.ds_data ds' ->
        F64.get d xField = F64.VNum x -> PrimFloat.is_nan x = false) ->
     F64.createStackedData xField yField series !! k
     = Some {| F64.ds_id := F64.ds_id ds; F64.ds_name := F64.ds_name ds;
               F64.ds_color := F64.ds_color ds;
               F64.ds_width := F64.ds_width ds;
               F64.ds_type := F64.ds_type ds;
               F64.ds_data :=
                 map (fun xVal =>
                   <["originalValue"%string :=
                       F64.VNum (F64.or_zero
                         (F64.Map_get (F64.datasetMap xField yField ds) xVal))]>
                   (<[yField :=
                        F64.VNum (foldl
                          (fun acc d =>
                             PrimFloat.add acc
                               (F64.or_zero
                                  (F64.Map_get (F64.datasetMap xField yField d)
                                               xVal)))
                          (F64.or_zero
                             (F64.Map_get (F64.datasetMap xField yField ds) xVal))
                          (take k series))]>
                    (<[xField := F64.VNum xVal]> ∅)))
                   (F64.Array_sort (fun a b => PrimFloat.sub a b)
                                   (F64.allXValues xField series)) |})
  /\
  (forall (series : list F64.dataset) k ds v xVal,
     series !! k = Some ds ->
     (forall i d, (i <= k)%nat -> series !! i = Some d ->
        F64.or_zero (F64.Map_get (F64.datasetMap xField yField d) xVal) = v) ->
     foldl (fun acc d =>
              PrimFloat.add acc
                (F64.or_zero (F64.Map_get (F64.datasetMap xField yField d) xVal)))
           (F64.or_zero (F64.Map_get (F64.datasetMap xField yField ds) xVal))
           (take k series)
     = Nat.iter k (fun acc => PrimFloat.add acc v) v).
Proof.
  split; [| split; [| split; [| split; [| split; [| split; [| split; [| split]]]]]]].
  - unfold createStackedData. rewrite list_lookup_imap.
    destruct (datasets !! 0%nat); reflexivity.
  - intros k ds Hk Hds _.
    assert (Hlen : (k < length datasets)%nat) by (apply lookup_lt_is_Some; eauto).
    unfold createStackedData. rewrite list_lookup_imap, Hds. simpl.
    replace (k =? 0)%nat with false by (symmetry; apply Nat.eqb_neq; lia).
    do 2 f_equal. apply map_ext. intros xVal.
    rewrite list_lookup_fmap, Hds. simpl.
    rewrite (foldl_earlier_maps xField yField datasets
               (fun m => or_zero (Map_get m xVal))) by lia.
    reflexivity.
  - intros k ds v xVal Hds Hv. split; [| apply iter_nadd_exact].
    rewrite (Hv k ds (Nat.le_refl k) Hds).
    assert (G : forall j, (j <= k)%nat ->
      foldl (fun acc d =>
               nadd acc (or_zero (Map_get (datasetMap xField yField d) xVal)))
            (Fin v) (take j datasets)
      = Nat.iter j (fun acc => nadd acc (Fin v)) (Fin v)).
    { induction j as [|j IH]; intros Hj; [reflexivity |].
      assert (Hlen : (k < length datasets)%nat)
        by (apply lookup_lt_is_Some; eauto).
      destruct (lookup_lt_is_Some_2 datasets j) as [d Hd]; [lia |].
      rewrite (take_S_r _ _ _ Hd), foldl_app, IH by lia.
      rewrite Nat.iter_succ. cbn [foldl].
      rewrite (Hv j d) by (lia || exact Hd). reflexivity. }
    apply G. lia.
  - intros xVal. rewrite elem_of_Array_sort. apply elem_of_allXValues.
  - intros ds xVal H. unfold datasetMap.
    rewrite (Map_get_unbound xField yField) by exact H. reflexivity.
  - intros ds before d after xVal y E Hx Hy Hafter. unfold datasetMap.
    rewrite E. apply (Map_get_last xField yField); assumption.
  - intros series. unfold F64.createStackedData. rewrite list_lookup_imap.
    destruct (series !! 0%nat); reflexivity.
  - intros series k ds Hk Hds _.
    assert (Hlen : (k < length series)%nat) by (apply lookup_lt_is_Some; eauto).
    unfold F64.createStackedData. rewrite list_lookup_imap, Hds. simpl.
    replace (k =? 0)%nat with false by (symmetry; apply Nat.eqb_neq; lia).
    do 2 f_equal. apply map_ext. intros xVal.
    rewrite list_lookup_fmap, Hds. simpl.
    rewrite (foldl_earlier_maps_f64 xField yField series
               (fun m => F64.or_zero (F64.Map_get m xVal))) by lia.
    reflexivity.
  - intros series k ds v xVal Hds Hv.
    rewrite (Hv k ds (Nat.le_refl k) Hds).
    assert (G : forall j, (j <= k)%nat ->
      foldl (fun acc d =>
               PrimFloat.add acc
                 (F64.or_zero (F64.Map_get (F64.datasetMap xField yField d) xVal)))
            v (take j series)
      = Nat.iter j (fun acc => PrimFloat.add acc v) v).
    { induction j as [|j IH]; intros Hj; [reflexivity |].
      assert (Hlen : (k < length series)%nat)
        by (apply lookup_lt_is_Some; eauto).
      destruct (lookup_lt_is_Some_2 series j) as [d Hd]; [lia |].
      rewrite (take_S_r _ _ _ Hd), foldl_app, IH by lia.
      rewrite Nat.iter_succ. cbn [foldl].
      rewrite (Hv j d) by (lia || exact Hd). reflexivity. }
    apply G. lia.
Qed.

Lemma own_value_single (x y : R) :
  y <> 0 ->
  or_zero (Map_get (datasetMap "x" "y"
                      (mkDataset "s" "S" "red" (Fin 1) "line" [point_xy x y]))
                   (Fin x))
  = Fin y.
Proof.
  intros Hy. unfold datasetMap. cbn [ds_data foldl].
  rewrite point_xy_x, point_xy_y. unfold Map_set. cbn [Map_get].
  destruct (decide (Fin x = Fin x)); [| contradiction].
  unfold or_zero. case_real; [contradiction | reflexivity].
Qed.

Lemma createStackedData_cumulative_witness :
  createStackedData "x" "y"
    [mkDataset "s" "S" "red" (Fin 1) "line" [point_xy 1 5];
     mkDataset "s" "S" "red" (Fin 1) "line" [point_xy 1 5]] !! 1%nat
  = Some (mkDataset "s" "S" "red" (Fin 1) "line"
            (map (fun xVal =>
               <["originalValue"%string :=
                   VNum (or_zero (Map_get
                     (datasetMap "x" "y"
                        (mkDataset "s" "S" "red" (Fin 1) "line" [point_xy 1 5]))
                     xVal))]>
               (<["y"%string :=
                    VNum (foldl
                       (fun acc d =>
                          nadd acc (or_zero (Map_get (datasetMap "x" "y" d) xVal)))
                       (or_zero (Map_get
                          (datasetMap "x" "y"
                             (mkDataset "s" "S" "red" (Fin 1) "line" [point_xy 1 5]))
                          xVal))
                       [mkDataset "s" "S" "red" (Fin 1) "line" [point_xy 1 5]])]>
                (<["x"%string := VNum xVal]> ∅)))
               (Array_sort (fun a b => nsub a b)
                  (allXValues "x"
                     [mkDataset "s" "S" "red" (Fin 1) "line" [point_xy 1 5];
                      mkDataset "s" "S" "red" (Fin 1) "line" [point_xy 1 5]]))))
  /\
  foldl (fun acc d => nadd acc (or_zero (Map_get (datasetMap "x" "y" d) (Fin 1))))
    (or_zero (Map_get
       (datasetMap "x" "y"
          (mkDataset "s" "S" "red" (Fin 1) "line" [point_xy 1 5]))
       (Fin 1)))
    [mkDataset "s" "S" "red" (Fin 1) "line" [point_xy 1 5]]
  = Fin (INR 2 * 5).
Proof.
  destruct (createStackedData_cumulative "x" "y"
    [mkDataset "s" "S" "red" (Fin 1) "line" [point_xy 1 5];
     mkDataset "s" "S" "red" (Fin 1) "line" [point_xy 1 5]])
    as (_ & Hk & Hv & _).
  split.
  - apply (Hk 1%nat _ (Nat.lt_0_succ 0) eq_refl).
    intros ds' d Hds' Hd.
    assert (E : ds_data ds' = [point_xy 1 5]).
    { repeat (apply elem_of_cons in Hds'; destruct Hds' as [-> | Hds']);
        [reflexivity | reflexivity | inversion Hds']. }
    rewrite E in Hd. apply list_elem_of_singleton in Hd. subst d.
    rewrite point_xy_x. discriminate.
  - destruct (Hv 1%nat (mkDataset "s" "S" "red" (Fin 1) "line" [point_xy 1 5])
                5 (Fin 1) eq_refl) as [E1 E2].
    + intros i d Hi Hd.
      destruct i as [|[|i]]; [| | lia]; cbn [lookup list_lookup] in Hd;
        injection Hd as <-; apply own_value_single; lra.
    + exact (eq_trans E1 E2).
Defined.

Section StackRounding.

Import PrimFloat.

(** C7, as the claim has it, fails on binary64 numbers.  Six series with
    the single point (1, 0.1) each: the stacked value of the last one
    (k = 5) at the key 1 is 0.1 with 0.1 added to it five times, which
    is 0.6, whereas [(k + 1) * v = 6 * 0.1] is 0.6000000000000001. *)
Lemma stacked_constant_not_product :
  let s := F64.mkDataset "s" "S" "red" 1%float "line"
             [F64.point_xy 1%float 0.1%float] in
  exists ds e,
    F64.createStackedData "x" "y" [s; s; s; s; s; s] !! 5%nat = Some ds /\
    F64.ds_data ds !! 0%nat = Some e /\
    F64.get e "y" = F64.VNum 0.6%float /\
    (6 * 0.1)%float = 0.6000000000000001%float /\
    PrimFloat.eqb 0.6%float (6 * 0.1)%float = false.
Proof.
  cbv zeta. eexists _, _.
  split; [vm_compute; reflexivity |].
  split; [vm_compute; reflexivity |].
  split; [vm_compute; reflexivity |].
  split; vm_compute; reflexivity.
Qed.

End StackRounding.

(** * Further properties of the code *)

(** ** Scales: the other round trip, order and the base *)

Section ScaleMore.

Variables d0 d1 r0 r1 : R.

Let s : Scale := mkScale (Fin d0, Fin d1) (Fin r0, Fin r1).

Variable b : R.
Hypothesis b_pos : 0 < b.
Hypothesis b_ne1 : b <> 1.
Hypothesis d0_pos : 0 < d0.
Hypothesis d1_pos : 0 < d1.

Let ls : LogScale.t := LogScale.mk s (Fin b).

(** [pow] undoes the division by [ln b] that [log] makes. *)
Lemma pow_value (e : R) : LogScale.pow ls (Fin (e / ln b)) = Fin (exp e).
Proof.
  pose proof (ln_base_ne0 b b_pos b_ne1) as Hb.
  unfold LogScale.pow, Math_pow; simpl.
  assert (E : e / ln b * ln b = e) by (field; exact Hb).
  destruct (Req_dec_T (e / ln b) 0) as [Z|Z].
  - rewrite Z in E. rewrite <- E, Rmult_0_l, exp_0. reflexivity.
  - destruct (Rlt_dec 0 b); [| contradiction].
    unfold Rpower. rewrite E. reflexivity.
Qed.

(** The value of [invert], free of the base. *)
Lemma log_invert_value (c : R) :
  r0 <> r1 ->
  LogScale.invert ls (Fin c)
  = Fin (exp (ln d0 + (c - r0) * (ln d1 - ln d0) / (r1 - r0))).
Proof.
  intros Hr. pose proof (ln_base_ne0 b b_pos b_ne1) as Hb.
  unfold LogScale.invert, ls, s. cbn [LogScale.super domain range].
  fold s; fold ls. rewrite strict_eq_diff by exact Hr.
  rewrite !(log_value d0 d1 r0 r1 b b_pos b_ne1) by assumption.
  rewrite !nsub_fin, nmul_fin, ndiv_fin, nadd_fin by lra.
  rewrite <- pow_value. do 2 f_equal. field. split; [lra | exact Hb].
Qed.

(** The value of [scale], free of the base. *)
Lemma log_scale_value_ln (v : R) :
  d0 <> d1 -> 0 < v ->
  LogScale.scale ls (Fin v)
  = Ok (Fin (r0 + (ln v - ln d0) * (r1 - r0) / (ln d1 - ln d0))).
Proof.
  intros Hd Hv. pose proof (ln_base_ne0 b b_pos b_ne1) as Hb.
  pose proof (ln_domain_apart d0 d1 d0_pos d1_pos Hd) as Hl.
  unfold ls, s. rewrite (log_scale_value d0 d1 r0 r1 b) by assumption.
  do 2 f_equal. field. split; assumption.
Qed.

End ScaleMore.

(** X1. The round trip in the other direction: on a linear scale with
    [d0 <> d1] and [r0 <> r1], [scale (invert c)] is [c] for every
    coordinate [c]; on a logarithmic scale with positive domain bounds and a
    logarithm base, [invert c] is a positive number, so that [scale] accepts
    it, and [scale] takes it back to [c]. *)
Theorem scale_invert_roundtrip (d0 d1 r0 r1 c : R) :
  d0 <> d1 -> r0 <> r1 ->
  LinearScale.scale (mkScale (Fin d0, Fin d1) (Fin r0, Fin r1))
    (LinearScale.invert (mkScale (Fin d0, Fin d1) (Fin r0, Fin r1)) (Fin c))
  = Fin c
  /\
  forall b : R, 0 < b -> b <> 1 -> 0 < d0 -> 0 < d1 ->
    exists v : R,
      0 < v /\
      LogScale.invert
        (LogScale.new (Fin d0, Fin d1) (Fin r0, Fin r1) (Some (Fin b))) (Fin c)
      = Fin v /\
      LogScale.scale
        (LogScale.new (Fin d0, Fin d1) (Fin r0, Fin r1) (Some (Fin b))) (Fin v)
      = Ok (Fin c).
Proof.
  intros Hd Hr. split.
  - rewrite linear_invert_value, linear_scale_value by assumption.
    f_equal. field. split; lra.
  - intros b Hb Hb1 H0 H1. rewrite new_with_base.
    pose proof (ln_domain_apart d0 d1 H0 H1 Hd) as Hl.
    eexists. split; [| split].
    + apply exp_pos.
    + apply log_invert_value; assumption.
    + rewrite log_scale_value_ln by (try assumption; apply exp_pos).
      rewrite ln_exp. do 2 f_equal. field. split; lra.
Qed.

Lemma scale_invert_roundtrip_witness :
  LinearScale.scale (mkScale (Fin 1, Fin 100) (Fin 0, Fin 100))
    (LinearScale.invert (mkScale (Fin 1, Fin 100) (Fin 0, Fin 100)) (Fin 25))
  = Fin 25
  /\
  exists v : R,
    0 < v /\
    LogScale.invert
      (LogScale.new (Fin 1, Fin 100) (Fin 0, Fin 100) (Some (Fin 10))) (Fin 25)
    = Fin v /\
    LogScale.scale
      (LogScale.new (Fin 1, Fin 100) (Fin 0, Fin 100) (Some (Fin 10))) (Fin v)
    = Ok (Fin 25).
Proof.
  destruct (scale_invert_roundtrip 1 100 0 100 25) as [HL HG]; [lra | lra |].
  split; [exact HL | apply (HG 10); lra].
Defined.

(** X2.  In exact arithmetic (rounding is not modelled), a linear scale has
    a constant slope: with [d0 <> d1], the coordinates of two values differ
    by their difference times [(r1 - r0) / (d1 - d0)].  So it keeps the
    order of the values when domain and range run the same way, and
    reverses it when they run opposite ways (as the y scale of a chart,
    whose range is [height, 0]).  On binary64 numbers the identity holds up
    to rounding only: see [linear_scale_slope_rounded]. *)
Theorem linear_scale_slope (d0 d1 r0 r1 v w : R) :
  d0 <> d1 ->
  exists cv cw : R,
    LinearScale.scale (mkScale (Fin d0, Fin d1) (Fin r0, Fin r1)) (Fin v) = Fin cv /\
    LinearScale.scale (mkScale (Fin d0, Fin d1) (Fin r0, Fin r1)) (Fin w) = Fin cw /\
    cw - cv = (w - v) * ((r1 - r0) / (d1 - d0)) /\
    (0 < (d1 - d0) * (r1 - r0) -> v < w -> cv < cw) /\
    ((d1 - d0) * (r1 - r0) < 0 -> v < w -> cw < cv).
Proof.
  intros Hd. eexists _, _.
  split; [apply linear_scale_value, Hd |].
  split; [apply linear_scale_value, Hd |].
  assert (Hs : forall x y, (r0 + (y - d0) * (r1 - r0) / (d1 - d0))
                           - (r0 + (x - d0) * (r1 - r0) / (d1 - d0))
                           = (y - x) * ((r1 - r0) / (d1 - d0)))
    by (intros; field; lra).
  split; [apply Hs |].
  assert (Hq : (r1 - r0) / (d1 - d0) = (d1 - d0) * (r1 - r0) / ((d1 - d0) * (d1 - d0)))
    by (field; lra).
  assert (Hsq : 0 < (d1 - d0) * (d1 - d0)) by nra.
  split; intros Hsign Hvw.
  - assert (0 < (r1 - r0) / (d1 - d0))
      by (rewrite Hq; apply Rdiv_lt_0_compat; assumption).
    specialize (Hs v w). nra.
  - assert ((r1 - r0) / (d1 - d0) < 0).
    { rewrite Hq. unfold Rdiv. apply Rinv_0_lt_compat in Hsq. nra. }
    specialize (Hs v w). nra.
Qed.

Lemma linear_scale_slope_witness :
  exists cv cw : R,
    LinearScale.scale (mkScale (Fin 0, Fin 10) (Fin 300, Fin 0)) (Fin 2) = Fin cv /\
    LinearScale.scale (mkScale (Fin 0, Fin 10) (Fin 300, Fin 0)) (Fin 4) = Fin cw /\
    cw < cv.
Proof.
  destruct (linear_scale_slope 0 10 300 0 2 4) as (cv & cw & Hv & Hw & _ & _ & Hdec);
    [lra |].
  exists cv, cw. split; [exact Hv | split; [exact Hw | apply Hdec; lra]].
Defined.

(** X3.  In exact arithmetic (rounding is not modelled), a linear scale
    keeps the domain inside the range: with [d0 <> d1], a value between the
    two domain bounds (in either order) has its coordinate between the two
    range bounds.  On binary64 numbers the coordinate of a domain bound can
    leave the range by a rounding error: see
    [linear_scale_slope_rounded]. *)
Theorem linear_scale_within_range (d0 d1 r0 r1 v : R) :
  d0 <> d1 ->
  Rmin d0 d1 <= v <= Rmax d0 d1 ->
  exists c : R,
    LinearScale.scale (mkScale (Fin d0, Fin d1) (Fin r0, Fin r1)) (Fin v) = Fin c /\
    Rmin r0 r1 <= c <= Rmax r0 r1.
Proof.
  intros Hd Hv. eexists. split; [apply linear_scale_value, Hd |].
  set (t := (v - d0) / (d1 - d0)).
  assert (Ht : 0 <= t <= 1).
  { unfold t. revert Hv. unfold Rmin, Rmax. destruct (Rle_dec d0 d1); intros Hv.
    - split.
      + apply Rdiv_nonneg; lra.
      + apply (Rmult_le_reg_r (d1 - d0)); [lra |].
        unfold Rdiv. rewrite Rmult_assoc, Rinv_l by lra. lra.
    - assert (E : (v - d0) / (d1 - d0) = (d0 - v) / (d0 - d1)) by (field; lra).
      rewrite E. split.
      + apply Rdiv_nonneg; lra.
      + apply (Rmult_le_reg_r (d0 - d1)); [lra |].
        unfold Rdiv. rewrite Rmult_assoc, Rinv_l by lra. lra. }
  replace (r0 + (v - d0) * (r1 - r0) / (d1 - d0)) with (r0 + t * (r1 - r0))
    by (unfold t; field; lra).
  unfold Rmin, Rmax. destruct (Rle_dec r0 r1); nra.
Qed.

Lemma linear_scale_within_range_witness :
  exists c : R,
    LinearScale.scale (mkScale (Fin 0, Fin 10) (Fin 300, Fin 0)) (Fin 2) = Fin c /\
    Rmin 300 0 <= c <= Rmax 300 0.
Proof.
  apply linear_scale_within_range; [lra |].
  unfold Rmin, Rmax. destruct (Rle_dec 0 10); lra.
Defined.

Section SlopeRounding.

Import PrimFloat.

(** What rounding does to the two properties above.  On the scale with
    domain [0, 10] and range [300, 0] the coordinates of 0.1 and 0.3 are
    297 and 291, 6 apart, whereas [(0.3 - 0.1) * ((0 - 300) / (10 - 0))]
    is -5.999999999999999.  On the scale with domain [0, 0.1] and range
    [0, 0.1] the coordinate of 0.1 is 0.10000000000000002, above the
    range. *)
Lemma linear_scale_slope_rounded :
  (F64.LinearScale.scale (F64.mkScale (0, 10) (300, 0)) 0.3
   - F64.LinearScale.scale (F64.mkScale (0, 10) (300, 0)) 0.1 = -6)%float
  /\
  ((0.3 - 0.1) * ((0 - 300) / (10 - 0)) = -5.999999999999999)%float
  /\
  PrimFloat.leb (F64.LinearScale.scale (F64.mkScale (0, 0.1) (0, 0.1)) 0.1)%float
                0.1%float
  = false.
Proof. vm_compute. repeat split. Qed.

End SlopeRounding.

(** X4.  In exact arithmetic (rounding is not modelled, and [Math.log] and
    [Math.pow] are the real functions), the base of a logarithmic scale
    does not change what it maps: on a domain of two different positive
    bounds, two scales that differ in their (logarithm) base only give the
    same result of [scale] for every argument, the refusal of an argument
    [<= 0] included, and the same result of [invert].  The base cancels in
    the quotient of logarithms.  On binary64 numbers the results of two
    bases can differ in their last bits; the refusal does not depend on
    the base there either. *)
Theorem log_scale_base_free (d0 d1 r0 r1 b b' : R) (x : num) :
  0 < d0 -> 0 < d1 -> d0 <> d1 ->
  0 < b -> b <> 1 -> 0 < b' -> b' <> 1 ->
  LogScale.scale
    (LogScale.new (Fin d0, Fin d1) (Fin r0, Fin r1) (Some (Fin b))) x
  = LogScale.scale
      (LogScale.new (Fin d0, Fin d1) (Fin r0, Fin r1) (Some (Fin b'))) x
  /\
  LogScale.invert
    (LogScale.new (Fin d0, Fin d1) (Fin r0, Fin r1) (Some (Fin b))) x
  = LogScale.invert
      (LogScale.new (Fin d0, Fin d1) (Fin r0, Fin r1) (Some (Fin b'))) x.
Proof.
  intros H0 H1 Hd Hb Hb1 Hb' Hb1'. rewrite !new_with_base.
  destruct x as [v|].
  - split.
    + destruct (Rlt_dec 0 v) as [Hv|Hv].
      * rewrite !log_scale_value_ln by assumption. reflexivity.
      * unfold LogScale.scale. cbn [LogScale.super domain range].
        rewrite nle_true by lra. reflexivity.
    + destruct (Req_dec_T r0 r1) as [E|E].
      * subst r1. unfold LogScale.invert. cbn [LogScale.super domain range].
        rewrite strict_eq_same. reflexivity.
      * rewrite !log_invert_value by assumption. reflexivity.
  - split.
    + unfold LogScale.scale. cbn [LogScale.super domain range].
      rewrite (strict_eq_diff d0 d1) by exact Hd. reflexivity.
    + unfold LogScale.invert. cbn [LogScale.super domain range].
      destruct (strict_eq (Fin r0) (Fin r1)); [reflexivity |].
      assert (E : forall a c, nadd a (ndiv (nmul (nsub NaN (Fin r0)) c) (Fin (r1 - r0))) = NaN).
      { intros a c. cbv [nsub nmul ndiv]. destruct a; reflexivity. }
      rewrite nsub_fin, !E. reflexivity.
Qed.

Lemma log_scale_base_free_witness :
  LogScale.scale
    (LogScale.new (Fin 1, Fin 100) (Fin 0, Fin 100) (Some (Fin 10))) (Fin 10)
  = LogScale.scale
      (LogScale.new (Fin 1, Fin 100) (Fin 0, Fin 100) (Some (Fin 2))) (Fin 10).
Proof.
  apply (log_scale_base_free 1 100 0 100 10 2 (Fin 10)); lra.
Defined.

(** X5.  In exact arithmetic (rounding is not modelled, and [Math.log] is
    the real function), a logarithmic scale turns equal ratios into equal
    distances and keeps the order: on a domain of two different positive
    bounds and with a logarithm base, the coordinates of two positive
    values differ by
    [ln (w / v) * (r1 - r0) / ln (d1 / d0)], which depends on the ratio
    [w / v] only; and when domain and range both increase, [v < w] gives a
    smaller coordinate to [v]. *)
Theorem log_scale_ratio (d0 d1 r0 r1 b v w : R) :
  0 < d0 -> 0 < d1 -> d0 <> d1 -> 0 < b -> b <> 1 -> 0 < v -> 0 < w ->
  exists cv cw : R,
    LogScale.scale
      (LogScale.new (Fin d0, Fin d1) (Fin r0, Fin r1) (Some (Fin b))) (Fin v)
    = Ok (Fin cv) /\
    LogScale.scale
      (LogScale.new (Fin d0, Fin d1) (Fin r0, Fin r1) (Some (Fin b))) (Fin w)
    = Ok (Fin cw) /\
    cw - cv = ln (w / v) * (r1 - r0) / ln (d1 / d0) /\
    (d0 < d1 -> r0 < r1 -> v < w -> cv < cw).
Proof.
  intros H0 H1 Hd Hb Hb1 Hv Hw. rewrite !new_with_base.
  pose proof (ln_domain_apart d0 d1 H0 H1 Hd) as Hl.
  eexists _, _.
  split; [apply log_scale_value_ln; assumption |].
  split; [apply log_scale_value_ln; assumption |].
  assert (Hq : forall x y, 0 < x -> 0 < y -> ln (y / x) = ln y - ln x).
  { intros x y Hx Hy. unfold Rdiv. rewrite ln_mult, ln_Rinv; try lra.
    apply Rinv_0_lt_compat, Hx. }
  split.
  - rewrite !Hq by assumption. field. exact Hl.
  - intros Hdd Hrr Hvw.
    pose proof (ln_increasing d0 d1 H0 Hdd).
    pose proof (ln_increasing v w Hv Hvw).
    assert (Hpos : 0 < (r1 - r0) / (ln d1 - ln d0))
      by (apply Rdiv_lt_0_compat; lra).
    replace (r0 + (ln w - ln d0) * (r1 - r0) / (ln d1 - ln d0))
      with (r0 + (ln w - ln d0) * ((r1 - r0) / (ln d1 - ln d0)))
      by (field; exact Hl).
    replace (r0 + (ln v - ln d0) * (r1 - r0) / (ln d1 - ln d0))
      with (r0 + (ln v - ln d0) * ((r1 - r0) / (ln d1 - ln d0)))
      by (field; exact Hl).
    nra.
Qed.

Lemma log_scale_ratio_witness :
  exists cv cw : R,
    LogScale.scale
      (LogScale.new (Fin 1, Fin 100) (Fin 0, Fin 100) None) (Fin 2) = Ok (Fin cv) /\
    LogScale.scale
      (LogScale.new (Fin 1, Fin 100) (Fin 0, Fin 100) None) (Fin 20) = Ok (Fin cw) /\
    cw - cv = ln (20 / 2) * (100 - 0) / ln (100 / 1).
Proof.
  destruct (log_scale_ratio 1 100 0 100 10 2 20) as (cv & cw & Hv & Hw & He & _);
    try lra.
  exists cv, cw. auto.
Defined.

(** ** Nice domains: how far they reach, and reversed bounds *)

Lemma power10_floor_le (q : R) :
  0 < q -> powerRZ 10 (Zfloor (ln q / ln 10)) <= q.
Proof.
  intros Hq. assert (H10 : 0 < ln 10) by (rewrite <- ln_1; apply ln_increasing; lra).
  destruct (Zfloor_bound (ln q / ln 10)) as [Hlo _].
  rewrite powerRZ_Rpower by lra. unfold Rpower.
  assert (Hle : IZR (Zfloor (ln q / ln 10)) * ln 10 <= ln q).
  { apply (Rmult_le_compat_r (ln 10)) in Hlo; [| lra].
    replace (ln q / ln 10 * ln 10) with (ln q) in Hlo by (field; lra). exact Hlo. }
  rewrite <- (exp_ln q) at 2 by exact Hq.
  destruct (Rle_lt_or_eq_dec _ _ Hle) as [Hlt | ->]; [| lra].
  left. apply exp_increasing, Hlt.
Qed.

(** X6.  In exact arithmetic (rounding is not modelled; on binary64
    numbers [niceMin] can exceed [min] by a rounding error, see
    [createNiceDomain_rounded]), a nice domain reaches less than one raw
    tick interval past the data: for [min < max] and a positive count, the
    pair returned by
    [createNiceDomain] has [min - (max - min) / count < niceMin <= min] and
    [max <= niceMax < max + (max - min) / count], because the step chosen
    is never larger than [(max - min) / count]. *)
Theorem createNiceDomain_tight (min max n : R) :
  min < max -> 0 < n ->
  exists niceMin niceMax : R,
    createNiceDomain (Fin min) (Fin max) (Fin n) = (Fin niceMin, Fin niceMax) /\
    min - (max - min) / n < niceMin <= min /\
    max <= niceMax < max + (max - min) / n.
Proof.
  intros Hlt Hn.
  pose proof (createNiceDomain_value min max n Hlt Hn) as Hv. cbv zeta in Hv.
  set (k := Zfloor (ln ((max - min) / n) / ln 10)) in *.
  set (ratio := (max - min) / (n * powerRZ 10 k)) in *.
  set (step := if Rle_dec 5 ratio then powerRZ 10 k * 5
               else if Rle_dec 2 ratio then powerRZ 10 k * 2
               else powerRZ 10 k) in *.
  assert (Hp : 0 < powerRZ 10 k) by (apply powerRZ_lt; lra).
  assert (Hq : 0 < (max - min) / n) by (apply Rdiv_lt_0_compat; lra).
  assert (Hpq : powerRZ 10 k <= (max - min) / n) by (apply power10_floor_le, Hq).
  assert (Hr : ratio * powerRZ 10 k = (max - min) / n)
    by (unfold ratio; field; lra).
  assert (Hs : 0 < step <= (max - min) / n).
  { unfold step. destruct (Rle_dec 5 ratio); [| destruct (Rle_dec 2 ratio)]; nra. }
  eexists _, _. split; [exact Hv |].
  destruct (Zfloor_bound (min / step)) as [Hf1 Hf2].
  destruct (Zceil_bound (max / step)) as [Hc1 Hc2].
  assert (Emin : min / step * step = min) by (field; lra).
  assert (Emax : max / step * step = max) by (field; lra).
  split; split; nra.
Qed.

Lemma createNiceDomain_tight_witness :
  exists niceMin niceMax : R,
    createNiceDomain (Fin 3) (Fin 97) (Fin 5) = (Fin niceMin, Fin niceMax) /\
    3 - (97 - 3) / 5 < niceMin <= 3 /\ 97 <= niceMax < 97 + (97 - 3) / 5.
Proof. apply createNiceDomain_tight; lra. Defined.

(** X7. [createNiceDomain] does not reorder its bounds: called with
    [min > max] and a positive count it returns [NaN, NaN], the logarithm
    of the negative [(max - min) / count] being [NaN]. *)
Theorem createNiceDomain_reversed (min max n : R) :
  max < min -> 0 < n ->
  createNiceDomain (Fin min) (Fin max) (Fin n) = (NaN, NaN).
Proof.
  intros Hlt Hn. unfold createNiceDomain.
  rewrite strict_eq_diff by lra. rewrite nsub_fin, ndiv_fin by lra.
  assert (Hneg : (max - min) / n < 0).
  { unfold Rdiv. apply Rinv_0_lt_compat in Hn. nra. }
  unfold Math_log10. destruct (Rlt_dec 0 ((max - min) / n)); [lra |].
  reflexivity.
Qed.

Lemma createNiceDomain_reversed_witness :
  createNiceDomain (Fin 10) (Fin 0) (Fin 5) = (NaN, NaN).
Proof. apply createNiceDomain_reversed; lra. Defined.

(** ** Axis ticks *)

Lemma createNiceDomain_bounds (min max n : R) :
  min <= max -> 0 < n ->
  exists lo hi : R,
    createNiceDomain (Fin min) (Fin max) (Fin n) = (Fin lo, Fin hi) /\
    lo <= min /\ max <= hi /\ lo < hi.
Proof.
  intros Hle Hn. destruct (Rle_lt_or_eq_dec _ _ Hle) as [Hlt | ->].
  - pose proof (createNiceDomain_value min max n Hlt Hn) as Hv. cbv zeta in Hv.
    set (k := Zfloor (ln ((max - min) / n) / ln 10)) in *.
    set (ratio := (max - min) / (n * powerRZ 10 k)) in *.
    set (step := if Rle_dec 5 ratio then powerRZ 10 k * 5
                 else if Rle_dec 2 ratio then powerRZ 10 k * 2
                 else powerRZ 10 k) in *.
    assert (Hp : 0 < powerRZ 10 k) by (apply powerRZ_lt; lra).
    assert (Hs : 0 < step) by (unfold step; repeat case_real; lra).
    pose proof (floor_multiple_le min step Hs).
    pose proof (ceil_multiple_ge max step Hs).
    eexists _, _. split; [exact Hv |]. repeat split; lra.
  - exists (max - 1), (max + 1). unfold createNiceDomain.
    rewrite strict_eq_same. repeat split; lra.
Qed.

Lemma tick_turns_nat (n : nat) : tick_turns (Fin (INR n)) = S n.
Proof.
  unfold tick_turns. pose proof (pos_INR n).
  destruct (Rle_dec 0 (INR n)); [| contradiction].
  rewrite INR_IZR_INZ, ZfloorZ, Nat2Z.id. reflexivity.
Qed.

(** X8.  In exact arithmetic (rounding is not modelled; on binary64
    numbers the first and the last tick can miss the bounds of the domain
    by a rounding error), the ticks of a numeric axis span the nice domain
    evenly and cover the scale's domain: for a scale whose domain
    [d0 <= d1] does not start
    past 10^12 and a tick count that is a positive integer [n],
    [generateTickValues] returns [n + 1] ticks; the first is the lower
    bound of the nice domain, at most [d0]; the last is its upper bound, at
    least [d1]; and each tick exceeds the one before it by the [n]-th part
    of the width of the nice domain. *)
Theorem generateTickValues_cover
  (createTimeTickValues : num -> num -> num -> list num)
  (d0 d1 r0 r1 : R) (n : nat) :
  d0 <= d1 -> d0 <= 1000000000000 -> (0 < n)%nat ->
  exists (lo hi : R) (ticks : list num),
    generateTickValues createTimeTickValues
      (Some (mkScale (Fin d0, Fin d1) (Fin r0, Fin r1))) (Fin (INR n)) = ticks /\
    createNiceDomain (Fin d0) (Fin d1) (Fin (INR n)) = (Fin lo, Fin hi) /\
    length ticks = S n /\
    ticks !! 0%nat = Some (Fin lo) /\ lo <= d0 /\
    ticks !! n = Some (Fin hi) /\ d1 <= hi /\
    forall i, (i < n)%nat ->
      exists a c : R,
        ticks !! i = Some (Fin a) /\ ticks !! S i = Some (Fin c) /\
        c - a = (hi - lo) / INR n /\ a < c.
Proof.
  intros Hle Hbig Hn.
  assert (Hn0 : 0 < INR n) by (apply lt_0_INR; exact Hn).
  destruct (createNiceDomain_bounds d0 d1 (INR n) Hle Hn0) as (lo & hi & E & Hlo & Hhi & Hlt).
  exists lo, hi. eexists. split; [reflexivity |].
  split; [exact E |].
  unfold generateTickValues. cbn [domain].
  rewrite nlt_false by exact Hbig. rewrite E, tick_turns_nat.
  rewrite nsub_fin, ndiv_fin by lra.
  assert (Hat : forall i, (i <= n)%nat ->
     map (fun i0 => nadd (Fin lo) (nmul (Fin (INR i0)) (Fin ((hi - lo) / INR n))))
         (seq 0 (S n)) !! i
     = Some (Fin (lo + INR i * ((hi - lo) / INR n)))).
  { intros i Hi. rewrite list_lookup_fmap, lookup_seq_lt by lia. reflexivity. }
  split; [rewrite length_map, length_seq; reflexivity |].
  split; [rewrite Hat by lia; do 2 f_equal; simpl; ring |].
  split; [exact Hlo |].
  split; [rewrite Hat by lia; do 2 f_equal; field; lra |].
  split; [exact Hhi |].
  intros i Hi. eexists _, _.
  split; [apply Hat; lia |]. split; [apply Hat; lia |].
  assert (Hstep : 0 < (hi - lo) / INR n) by (apply Rdiv_lt_0_compat; lra).
  rewrite S_INR. split; [ring | lra].
Qed.

Lemma generateTickValues_cover_witness :
  exists (lo hi : R) (ticks : list num),
    generateTickValues (fun _ _ _ => [])
      (Some (mkScale (Fin 3, Fin 97) (Fin 0, Fin 500))) (Fin (INR 5)) = ticks /\
    length ticks = 6%nat /\
    ticks !! 0%nat = Some (Fin lo) /\ lo <= 3 /\
    ticks !! 5%nat = Some (Fin hi) /\ 97 <= hi.
Proof.
  destruct (generateTickValues_cover (fun _ _ _ => []) 3 97 0 500 5)
    as (lo & hi & ticks & E & _ & Hl & H0 & Hlo & H5 & Hhi & _); [lra | lra | lia |].
  exists lo, hi, ticks. repeat split; assumption.
Defined.

(** ** Monotone curves *)

Section MonotoneMore.

Variable pts : list (R * R).

Let n : nat := length pts.

Hypothesis xs_increase :
  forall i, (i + 1 < n)%nat -> rx pts i < rx pts (i + 1).

Lemma px_fin (i : nat) : (i < length pts)%nat -> px (fin_points pts) i = Fin (rx pts i).
Proof.
  intros Hi. unfold px, fin_points, rx. rewrite list_lookup_fmap.
  destruct (lookup_lt_is_Some_2 pts i Hi) as [p ->]. reflexivity.
Qed.

Lemma py_fin (i : nat) : (i < length pts)%nat -> py (fin_points pts) i = Fin (ry pts i).
Proof.
  intros Hi. unfold py, fin_points, ry. rewrite list_lookup_fmap.
  destruct (lookup_lt_is_Some_2 pts i Hi) as [p ->]. reflexivity.
Qed.

Lemma segment_slope_fin (i : nat) :
  (i + 1 < n)%nat -> segment_slope (fin_points pts) i = Fin (rslope pts i).
Proof.
  intros Hi. unfold segment_slope. pose proof (xs_increase i Hi).
  rewrite !px_fin, !py_fin by (fold n; lia).
  rewrite !nsub_fin, ndiv_fin by lra. reflexivity.
Qed.

Lemma half_harmonic_share (a b : R) :
  0 < a * b ->
  a + b <> 0 /\ 0 <= a / (a + b) <= 1 /\ 0 <= b / (a + b) <= 1.
Proof.
  intros Hab.
  assert (Hcases : (0 < a /\ 0 < b) \/ (a < 0 /\ b < 0)).
  { destruct (Rtotal_order a 0) as [Ha | [-> | Ha]].
    - right. split; [exact Ha |].
      destruct (Rlt_dec b 0) as [Hb | Hb]; [exact Hb | nra].
    - rewrite Rmult_0_l in Hab. lra.
    - left. split; [exact Ha |].
      destruct (Rlt_dec 0 b) as [Hb | Hb]; [exact Hb | nra]. }
  destruct Hcases as [[Ha Hb] | [Ha Hb]].
  - assert (Hs : 0 < a + b) by lra. split; [lra |].
    split; split.
    + apply Rlt_le, Rdiv_lt_0_compat; lra.
    + apply (Rmult_le_reg_r (a + b)); [lra |]. field_simplify; lra.
    + apply Rlt_le, Rdiv_lt_0_compat; lra.
    + apply (Rmult_le_reg_r (a + b)); [lra |]. field_simplify; lra.
  - assert (Hs : 0 < - (a + b)) by lra. split; [lra |].
    replace (a / (a + b)) with ((- a) / (- (a + b))) by (field; lra).
    replace (b / (a + b)) with ((- b) / (- (a + b))) by (field; lra).
    split; split.
    + apply Rlt_le, Rdiv_lt_0_compat; lra.
    + apply (Rmult_le_reg_r (- (a + b))); [lra |]. field_simplify; lra.
    + apply Rlt_le, Rdiv_lt_0_compat; lra.
    + apply (Rmult_le_reg_r (- (a + b))); [lra |]. field_simplify; lra.
Qed.

(** Every tangent but the last is a fraction between 0 and 1 of the slope
    of its own segment and, past the first, of the slope of the segment
    before it. *)
Lemma tangent_shares (i : nat) :
  (3 <= n)%nat -> (i + 1 < n)%nat ->
  exists t u : R,
    tg (monotone_tangents (fin_points pts)) i = Fin t /\
    0 <= u <= 1 /\ t = u * rslope pts i /\
    ((1 <= i)%nat -> exists v : R, 0 <= v <= 1 /\ t = v * rslope pts (i - 1)).
Proof.
  intros Hn. assert (Hlen : length (fin_points pts) = n)
    by (unfold fin_points; rewrite length_map; reflexivity).
  destruct (monotone_tangents_recurrence (fin_points pts)) as (_ & H0 & _ & Hrec);
    [rewrite Hlen; exact Hn |].
  rewrite Hlen in Hrec.
  induction i as [|i IH]; intros Hi.
  - exists (rslope pts 0), 1. rewrite H0, segment_slope_fin by lia.
    split; [reflexivity |]. split; [lra |]. split; [ring | lia].
  - destruct IH as (a & u & Ea & Hu & Eu & _); [lia |].
    rewrite Hrec by lia. replace (S i - 1)%nat with i by lia.
    rewrite Ea, segment_slope_fin by lia.
    set (b := rslope pts (S i)). rewrite nmul_fin.
    destruct (Rle_dec (a * b) 0) as [Hle | Hgt].
    + rewrite nle_true by exact Hle. exists 0, 0.
      split; [reflexivity |]. split; [lra |]. split; [ring |].
      intros _. exists 0. split; [lra | ring].
    + rewrite nle_false by lra.
      destruct (half_harmonic_share a b) as (Hs & Ha & Hb); [lra |].
      rewrite nadd_fin, ndiv_fin by exact Hs.
      exists (a * b / (a + b)), (a / (a + b)).
      split; [reflexivity |]. split; [exact Ha |].
      split; [field; exact Hs |].
      intros _. exists (b / (a + b) * u). split.
      * split; [apply Rmult_le_pos; lra |].
        replace 1 with (1 * 1) by ring. apply Rmult_le_compat; lra.
      * rewrite Rmult_assoc, <- Eu. field. exact Hs.
Qed.

(** The tangent at the far end of segment [i] is a fraction between 0 and
    1 of that segment's slope. *)
Lemma tangent_far_end (i : nat) :
  (3 <= n)%nat -> (i + 1 < n)%nat ->
  exists t v : R,
    tg (monotone_tangents (fin_points pts)) (i + 1) = Fin t /\
    0 <= v <= 1 /\ t = v * rslope pts i.
Proof.
  intros Hn Hi. destruct (decide (i + 2 < n)%nat) as [Hin | Hlast].
  - destruct (tangent_shares (i + 1) Hn) as (t & _ & Et & _ & _ & Hv); [lia |].
    destruct Hv as (v & Hv & Ev); [lia |].
    replace (i + 1 - 1)%nat with i in Ev by lia. exists t, v. auto.
  - assert (Hlen : length (fin_points pts) = n)
      by (unfold fin_points; rewrite length_map; reflexivity).
    destruct (monotone_tangents_recurrence (fin_points pts)) as (_ & _ & Hl & _);
      [rewrite Hlen; exact Hn |].
    rewrite Hlen in Hl. replace (i + 1)%nat with (n - 1)%nat by lia.
    rewrite Hl, segment_slope_fin by lia.
    replace (n - 2)%nat with i by lia.
    exists (rslope pts i), 1. split; [reflexivity |]. split; [lra | ring].
Qed.

End MonotoneMore.

(** X9.  In exact arithmetic (rounding is not modelled; on binary64
    numbers the shares [u] and [v] below can exceed a third by a rounding
    error), a monotone path through three or more finite points with
    strictly increasing abscissas passes through every point and never
    overshoots:
    the path has one command per point, starts at the first point, and its
    [i]-th curve ends at point [i + 1]; the control points of that curve
    sit a third of the segment's width inside it, and their ordinates stay
    within the first and the last third of the segment's rise, so on each
    segment the curve moves from one data value to the next without
    leaving the interval between them. *)
Theorem generateMonotonePath_no_overshoot (pts : list (R * R)) :
  (3 <= length pts)%nat ->
  (forall i, (i + 1 < length pts)%nat -> rx pts i < rx pts (i + 1)) ->
  let path := generateMonotonePath (fin_points pts) in
  length path = length pts /\
  path !! 0%nat = Some (MoveTo (Fin (rx pts 0)) (Fin (ry pts 0))) /\
  forall i, (i + 1 < length pts)%nat ->
    exists c1y c2y u v : R,
      path !! S i =
        Some (CurveTo (Fin (rx pts i + (rx pts (i + 1) - rx pts i) / 3)) (Fin c1y)
                      (Fin (rx pts (i + 1) - (rx pts (i + 1) - rx pts i) / 3)) (Fin c2y)
                      (Fin (rx pts (i + 1))) (Fin (ry pts (i + 1)))) /\
      0 <= u <= 1 / 3 /\ c1y = ry pts i + u * (ry pts (i + 1) - ry pts i) /\
      0 <= v <= 1 / 3 /\ c2y = ry pts (i + 1) - v * (ry pts (i + 1) - ry pts i).
Proof.
  intros Hn Hx path.
  assert (Hlen : length (fin_points pts) = length pts)
    by (unfold fin_points; rewrite length_map; reflexivity).
  unfold path, generateMonotonePath. rewrite Hlen.
  destruct (Nat.ltb_spec (length pts) 3) as [Hlt | _]; [lia |].
  split; [cbn [length]; rewrite length_map, length_seq; lia |].
  split; [cbn [lookup list_lookup]; rewrite px_fin, py_fin by lia; reflexivity |].
  intros i Hi.
  destruct (tangent_shares pts Hx i Hn Hi) as (t & u & Et & Hu & Eu & _).
  destruct (tangent_far_end pts Hx i Hn Hi) as (t' & v & Et' & Hv & Ev).
  pose proof (Hx i Hi) as Hdx.
  exists (ry pts i + (rx pts (i + 1) - rx pts i) / 3 * t),
         (ry pts (i + 1) - (rx pts (i + 1) - rx pts i) / 3 * t'),
         (u / 3), (v / 3).
  split.
  - change ((MoveTo (px (fin_points pts) 0) (py (fin_points pts) 0)
              :: map (monotone_segment (fin_points pts) (monotone_tangents (fin_points pts)))
                     (seq 0 (length pts - 1))) !! S i)
      with (map (monotone_segment (fin_points pts) (monotone_tangents (fin_points pts)))
                (seq 0 (length pts - 1)) !! i).
    rewrite list_lookup_fmap, lookup_seq_lt by lia. cbn [fmap option_fmap option_map].
    unfold monotone_segment. cbn [Nat.add].
    rewrite !px_fin, !py_fin, Et, Et' by lia.
    rewrite !nsub_fin, !ndiv_fin by lra.
    rewrite !nmul_fin, !nadd_fin, !nsub_fin. reflexivity.
  - split; [lra |]. split.
    + rewrite Eu. unfold rslope. field. lra.
    + split; [lra |]. rewrite Ev. unfold rslope. field. lra.
Qed.

Lemma generateMonotonePath_no_overshoot_witness :
  let pts := [(0, 0); (1, 4); (3, 1); (4, 1)] in
  length (generateMonotonePath (fin_points pts)) = 4%nat.
Proof.
  intros pts.
  refine (proj1 (generateMonotonePath_no_overshoot pts _ _)).
  - simpl. lia.
  - intros i Hi. simpl in Hi.
    destruct i as [|[|[|i]]]; [| | | lia]; unfold rx; simpl; lra.
Defined.

(** ** Cardinal curves *)

Lemma cardinal_loop (firstPoint : num * num) (restPoints : list (num * num))
  (tension : num) (cps0 : (num * num) * (num * num)) (parts0 : list segment)
  (k : nat) :
  (foldl (cardinal_turn firstPoint restPoints tension) (cps0, parts0) (seq 0 k)).2
  = parts0 ++ map (cardinal_curve restPoints tension cps0) (seq 0 k).
Proof.
  induction k as [|k IH].
  - simpl. rewrite app_nil_r. reflexivity.
  - rewrite seq_S, foldl_app, map_app, app_assoc, <- IH. cbn [foldl Nat.add map].
    destruct (foldl _ _ (seq 0 k)) as [cps parts] eqn:E. cbn [snd].
    unfold cardinal_turn, cardinal_curve.
    destruct k as [|k]; [| reflexivity].
    simpl in E. injection E as <- <-. reflexivity.
Qed.

Lemma pt_fin (pts : list (R * R)) (i : nat) :
  (i < length pts)%nat -> pt (fin_points pts) i = (Fin (rx pts i), Fin (ry pts i)).
Proof.
  intros Hi. unfold pt, fin_points, rx, ry. rewrite list_lookup_fmap.
  destruct (lookup_lt_is_Some_2 pts i Hi) as [p ->]. reflexivity.
Qed.

(** X10. A cardinal path through three or more finite points has one
    command per point, starts at the first point, and its [i]-th curve ends
    at point [i + 1].  The two control points of the first curve are mirror
    images about the FIRST point, a [tension] share of the first segment
    away from it; those of every later curve are mirror images about the
    curve's END point, a [tension] share of the chord from the point before
    it to the point after it (the end point itself on the last curve). *)
Theorem generateCardinalPath_control_points (pts : list (R * R)) (t : R) :
  (3 <= length pts)%nat ->
  let path := generateCardinalPath (fin_points pts) (Some (Fin t)) in
  length path = length pts /\
  path !! 0%nat = Some (MoveTo (Fin (rx pts 0)) (Fin (ry pts 0))) /\
  path !! 1%nat =
    Some (CurveTo (Fin (rx pts 0 - (rx pts 1 - rx pts 0) * t))
                  (Fin (ry pts 0 - (ry pts 1 - ry pts 0) * t))
                  (Fin (rx pts 0 + (rx pts 1 - rx pts 0) * t))
                  (Fin (ry pts 0 + (ry pts 1 - ry pts 0) * t))
                  (Fin (rx pts 1)) (Fin (ry pts 1))) /\
  forall i, (1 <= i)%nat -> (i + 1 < length pts)%nat ->
    let j := Nat.min (i + 2) (length pts - 1) in
    path !! S i =
      Some (CurveTo (Fin (rx pts (i + 1) - (rx pts j - rx pts i) * t))
                    (Fin (ry pts (i + 1) - (ry pts j - ry pts i) * t))
                    (Fin (rx pts (i + 1) + (rx pts j - rx pts i) * t))
                    (Fin (ry pts (i + 1) + (ry pts j - ry pts i) * t))
                    (Fin (rx pts (i + 1))) (Fin (ry pts (i + 1)))).
Proof.
  intros Hn path. unfold path, generateCardinalPath.
  destruct pts as [|p0 rest]; [simpl in Hn; lia |].
  assert (Hr : (2 <= length rest)%nat) by (simpl in Hn; lia).
  assert (Hlen : length (fin_points rest) = length rest)
    by (unfold fin_points; rewrite length_map; reflexivity).
  change (fin_points (p0 :: rest)) with ((Fin p0.1, Fin p0.2) :: fin_points rest).
  cbn [length]. rewrite Hlen.
  destruct (Nat.ltb_spec (S (length rest)) 2) as [Hlt | _]; [lia |].
  destruct (Nat.ltb_spec (S (length rest)) 3) as [Hlt | _]; [lia |].
  cbv zeta. rewrite cardinal_loop.
  assert (Hx : forall k, rx (p0 :: rest) (S k) = rx rest k) by reflexivity.
  assert (Hy : forall k, ry (p0 :: rest) (S k) = ry rest k) by reflexivity.
  split; [cbn [length app]; rewrite length_map, length_seq; reflexivity |].
  split; [reflexivity |].
  assert (Hat : forall i, (i < length rest)%nat ->
    ([MoveTo (Fin p0.1, Fin p0.2).1 (Fin p0.1, Fin p0.2).2] ++
     map (cardinal_curve (fin_points rest) (default (Fin (1 / 2)) (Some (Fin t)))
            (getControlPoints (Fin p0.1, Fin p0.2) (Fin p0.1, Fin p0.2)
               (pt (fin_points rest) 0) (default (Fin (1 / 2)) (Some (Fin t)))))
         (seq 0 (length rest))) !! S i
    = Some (cardinal_curve (fin_points rest) (Fin t)
              (getControlPoints (Fin p0.1, Fin p0.2) (Fin p0.1, Fin p0.2)
                 (pt (fin_points rest) 0) (Fin t)) i)).
  { intros i Hi.
    change (map (cardinal_curve (fin_points rest) (Fin t)
                   (getControlPoints (Fin p0.1, Fin p0.2) (Fin p0.1, Fin p0.2)
                      (pt (fin_points rest) 0) (Fin t)))
                (seq 0 (length rest)) !! i = Some (cardinal_curve (fin_points rest) (Fin t)
              (getControlPoints (Fin p0.1, Fin p0.2) (Fin p0.1, Fin p0.2)
                 (pt (fin_points rest) 0) (Fin t)) i)).
    rewrite list_lookup_fmap, lookup_seq_lt by exact Hi. reflexivity. }
  split.
  - rewrite Hat by lia. unfold cardinal_curve. cbn [Nat.ltb Nat.leb].
    rewrite pt_fin by lia. unfold getControlPoints. cbn [fst snd].
    rewrite !nsub_fin, !nmul_fin, !nsub_fin, !nadd_fin.
    rewrite (Hx 0%nat), (Hy 0%nat). reflexivity.
  - intros i Hi1 Hi2. cbn [length] in Hi2. set (j := Nat.min _ _).
    rewrite Hat by lia. unfold cardinal_curve. rewrite Hlen.
    destruct (Nat.ltb_spec 0 i) as [_ | Hlt]; [| lia].
    replace (i + 1)%nat with (S i) by lia. rewrite (Hx i), (Hy i).
    destruct i as [|i]; [lia |]. rewrite (Hx i), (Hy i).
    replace (S i - 1)%nat with i by lia.
    destruct (Nat.ltb_spec (S i) (length rest - 1)) as [Hin | Hlast].
    + replace j with (S (S (S i))) by (unfold j; lia). rewrite Hx, Hy.
      rewrite !pt_fin by lia. unfold getControlPoints. cbn [fst snd].
      rewrite !nsub_fin, !nmul_fin, !nsub_fin, !nadd_fin. reflexivity.
    + replace j with (S (S i)) by (unfold j; lia). rewrite Hx, Hy.
      rewrite !pt_fin by lia. unfold getControlPoints. cbn [fst snd].
      rewrite !nsub_fin, !nmul_fin, !nsub_fin, !nadd_fin. reflexivity.
Qed.

Lemma generateCardinalPath_control_points_witness :
  let pts := [(0, 0); (1, 2); (2, 0); (4, 4)] in
  length (generateCardinalPath (fin_points pts) (Some (Fin (1 / 2)))) = 4%nat.
Proof.
  intros pts.
  refine (proj1 (generateCardinalPath_control_points pts (1 / 2) _)).
  simpl. lia.
Defined.

(** ** Exponential moving average *)

Lemma prefix_sum_bounds (v : nat -> R) (lo hi : R) (m : nat) :
  (forall i, (i < m)%nat -> lo <= v i <= hi) ->
  INR m * lo <= prefix_sum v m <= INR m * hi.
Proof.
  induction m as [|m IH]; intros Hv.
  - simpl. lra.
  - rewrite S_INR. cbn [prefix_sum].
    pose proof (Hv m (Nat.lt_succ_diag_r m)).
    assert (INR m * lo <= prefix_sum v m <= INR m * hi)
      by (apply IH; intros i Hi; apply Hv; lia).
    lra.
Qed.

Lemma ema_avg_bounds (v : nat -> R) (p : nat) (lo hi : R) (k : nat) :
  (0 < p)%nat ->
  (forall i, (i < p + k)%nat -> lo <= v i <= hi) ->
  lo <= ema_avg v p k <= hi.
Proof.
  intros Hp. assert (Hp1 : 1 <= INR p) by (apply (le_INR 1); lia).
  induction k as [|k IH]; intros Hv.
  - cbn [ema_avg].
    pose proof (prefix_sum_bounds v lo hi p) as Hs.
    destruct Hs as [Hs1 Hs2]; [intros i Hi; apply Hv; lia |].
    split.
    + apply (Rmult_le_reg_r (INR p)); [lra |]. field_simplify; lra.
    + apply (Rmult_le_reg_r (INR p)); [lra |]. field_simplify; lra.
  - cbn [ema_avg].
    assert (He : lo <= ema_avg v p k <= hi)
      by (apply IH; intros i Hi; apply Hv; lia).
    assert (Hx : lo <= v (p - 1 + S k)%nat <= hi) by (apply Hv; lia).
    set (e := ema_avg v p k) in *. set (x := v (p - 1 + S k)%nat) in *.
    assert (Ha : 0 < 2 / (INR p + 1) <= 1).
    { split; [apply Rdiv_lt_0_compat; lra |].
      apply (Rmult_le_reg_r (INR p + 1)); [lra |]. field_simplify; lra. }
    set (a := 2 / (INR p + 1)) in *.
    split; nra.
Qed.

(** A loop that adds up, downwards from index [i], a finite quantity of
    each point. *)
Lemma downward_acc (data : list (gmap string value))
  (F : gmap string value -> num) (f : nat -> R) (i count start : nat) (acc : R) :
  (forall j, (j < length data)%nat -> F (data !!! j) = Fin (f j)) ->
  (start + count <= i + 1)%nat -> (i < length data)%nat ->
  for_range (fun j sum =>
     d ← elem data (i - j);
     Ok (nadd sum (F d))) start count (Fin acc)
  = Ok (Fin (acc + (prefix_sum f (i + 1 - start)
                    - prefix_sum f (i + 1 - start - count)))).
Proof.
  intros HF Hc Hi. revert start acc Hc.
  induction count as [|c IH]; intros start acc Hc.
  - simpl. rewrite Nat.sub_0_r. do 2 f_equal. ring.
  - rewrite for_range_S, elem_lt, bind_Ok by lia.
    rewrite HF by lia. rewrite nadd_fin, bind_Ok.
    rewrite IH by lia. do 2 f_equal.
    replace (i + 1 - start)%nat with (S (i - start)) by lia.
    replace (i + 1 - S start)%nat with (i - start)%nat by lia.
    replace (S (i - start) - S c)%nat with (i - start - c)%nat by lia.
    cbn [prefix_sum]. ring.
Qed.

(** The sum of the [p] values ending at index [i], as a difference of
    prefix sums. *)
Lemma window_sum_prefix (f : nat -> R) (p i : nat) :
  (p <= i + 1)%nat ->
  window_sum f p i = prefix_sum f (i + 1) - prefix_sum f (i + 1 - p).
Proof.
  unfold window_sum. induction p as [|p IH]; intros Hp.
  - simpl. rewrite Nat.sub_0_r. ring.
  - replace (i + 1 - S p)%nat with (i - p)%nat by lia.
    cbn [seq map fold_right].
    replace (S (i - p)) with (i + 1 - p)%nat by lia.
    rewrite IH by lia.
    replace (i + 1 - p)%nat with (S (i - p)) by lia.
    cbn [prefix_sum]. ring.
Qed.

Lemma window_sum_nonneg (f : nat -> R) (p i : nat) :
  (forall j, 0 <= f j) -> 0 <= window_sum f p i.
Proof.
  intros Hf. unfold window_sum. generalize (i + 1 - p)%nat.
  induction p as [|p IH]; intros s; simpl; [lra |].
  pose proof (Hf s). pose proof (IH (S s)). lra.
Qed.

Section EMA.

Variable data : list (gmap string value).
Variable params : Params.
Variable p : nat.
Variable v : nat -> R.

Let vf : string := default "y"%string (valueField params).
Let xf : string := default "x"%string (xField params).

Hypothesis period_p : default (Fin 14) (period params) = Fin (INR p).
Hypothesis p_pos : (0 < p)%nat.
Hypothesis values :
  forall i d, data !! i = Some d -> get d vf = VNum (Fin (v i)).

Let ema_point (k : nat) : gmap string value :=
  <["original"%string := VNum (Fin (v (p - 1 + k)%nat))]>
  (<[vf := VNum (Fin (ema_avg v p k))]>
   (<[xf := get (data !!! (p - 1 + k)%nat) xf]> ∅)).

Lemma get_value_at (i : nat) :
  (i < length data)%nat -> get (data !!! i) vf = VNum (Fin (v i)).
Proof.
  intros Hi. apply values, list_lookup_lookup_total_lt, Hi.
Qed.

(** The window sum, taken downwards from index [i]. *)
Lemma downward_sum (i count start : nat) (acc : R) :
  (start + count <= i + 1)%nat -> (i < length data)%nat ->
  for_range (fun j sum =>
     d ← elem data (i - j);
     Ok (nadd sum (to_num (get d vf)))) start count (Fin acc)
  = Ok (Fin (acc + (prefix_sum v (i + 1 - start)
                    - prefix_sum v (i + 1 - start - count)))).
Proof.
  intros Hc Hi.
  apply (downward_acc data (fun d => to_num (get d vf)) v); [| exact Hc | exact Hi].
  intros j Hj. rewrite get_value_at by exact Hj. reflexivity.
Qed.

Lemma calculateEMA_steps (k : nat) :
  (k <= length data)%nat ->
  for_range (fun i '(ema, result) =>
    if (i <? p - 1)%nat then Ok (ema, result)
    else
      ema ← (if (i =? p - 1)%nat then
               sum ← for_range (fun j sum =>
                        d ← elem data (i - j);
                        Ok (nadd sum (to_num (get d vf))))
                      0 p (Fin 0);
               Ok (ndiv sum (Fin (INR p)))
             else
               d ← elem data i;
               let value := to_num (get d vf) in
               let ema := default (Fin 0) ema in
               Ok (nadd (nmul (nsub value ema)
                              (ndiv (Fin 2) (nadd (Fin (INR p)) (Fin 1)))) ema));
      d ← elem data i;
      Ok (Some ema,
          result ++ [ <["original"%string := get d vf]>
                      (<[vf := VNum ema]>
                       (<[xf := get d xf]> (∅ : gmap string value))) ]))
    0 k (None, [])
  = Ok (if (k <? p)%nat then None else Some (Fin (ema_avg v p (k - p))),
        map ema_point (seq 0 (k - (p - 1)))).
Proof.
  assert (Hp0 : 0 < INR p) by (apply lt_0_INR; exact p_pos).
  intros Hk. induction k as [|k IH].
  - destruct (Nat.ltb_spec 0 p); [reflexivity | lia].
  - rewrite for_range_snoc, IH, bind_Ok by lia. simpl Nat.add. cbv beta iota.
    destruct (Nat.ltb_spec k (p - 1)) as [Hkp | Hkp].
    + destruct (Nat.ltb_spec k p); [| lia].
      destruct (Nat.ltb_spec (S k) p); [| lia].
      replace (S k - (p - 1))%nat with O by lia.
      replace (k - (p - 1))%nat with O by lia. reflexivity.
    + destruct (Nat.ltb_spec (S k) p); [lia |].
      replace (S k - (p - 1))%nat with (S (k - (p - 1))) by lia.
      rewrite seq_S, map_app. cbn [map Nat.add].
      destruct (Nat.eqb_spec k (p - 1)) as [-> | Hne].
      * rewrite downward_sum by lia.
        replace (p - 1 + 1 - 0)%nat with p by lia.
        replace (p - 0)%nat with p by lia.
        rewrite bind_Ok, ndiv_fin, bind_Ok by lra.
        rewrite elem_lt, bind_Ok by lia.
        rewrite get_value_at by lia.
        replace (S (p - 1) - p)%nat with O by lia.
        replace (p - 1 - (p - 1))%nat with O by lia.
        unfold ema_point. rewrite Nat.add_0_r. cbn [ema_avg].
        replace ((0 + (prefix_sum v p - prefix_sum v (p - p))) / INR p)
          with (prefix_sum v p / INR p)
          by (rewrite Nat.sub_diag; cbn [prefix_sum]; field; lra).
        reflexivity.
      * destruct (Nat.ltb_spec k p); [lia |].
        rewrite elem_lt, !bind_Ok by lia.
        rewrite get_value_at by lia. cbn [to_num from_option].
        unfold Datatypes.id.
        rewrite nadd_fin, ndiv_fin by lra.
        rewrite nsub_fin, nmul_fin, nadd_fin.
        replace (S k - p)%nat with (S (k - p)) by lia.
        replace (k - (p - 1))%nat with (S (k - p)) by lia.
        unfold ema_point. cbn [ema_avg].
        replace (p - 1 + S (k - p))%nat with k by lia.
        reflexivity.
Qed.

Lemma calculateEMA_value :
  calculateEMA data params
  = Ok (map ema_point (seq 0 (length data - (p - 1)))).
Proof.
  unfold calculateEMA. rewrite period_p.
  rewrite check_period_nat, bind_Ok by exact p_pos.
  cbv zeta. fold vf xf.
  etransitivity;
    [apply (f_equal (fun r => mbind _ r)); apply calculateEMA_steps; lia |].
  reflexivity.
Qed.

End EMA.

(** X11.  In exact arithmetic (rounding is not modelled; on binary64
    numbers the averages can leave the bounds by a rounding error).
    With a period that validates as [p] and real values [v i] in the
    value field, [calculateEMA] returns one point for each index
    [p - 1 + k] of the series, carrying the x and the value of that point
    and the average [ema_avg v p k]: the mean of the first [p] values at
    [k = 0], and [(value - ema) * 2 / (p + 1) + ema] on the average before
    it from then on.  Every such average lies between any two bounds that
    enclose the values seen so far. *)
Theorem calculateEMA_recurrence (data : list (gmap string value))
  (params : Params) (p : nat) (v : nat -> R) :
  default (Fin 14) (period params) = Fin (INR p) ->
  (0 < p)%nat ->
  (forall i d, data !! i = Some d ->
     get d (default "y"%string (valueField params)) = VNum (Fin (v i))) ->
  calculateEMA data params
  = Ok (map (fun k =>
          <["original"%string := VNum (Fin (v (p - 1 + k)%nat))]>
          (<[default "y"%string (valueField params) :=
               VNum (Fin (ema_avg v p k))]>
           (<[default "x"%string (xField params) :=
                get (data !!! (p - 1 + k)%nat)
                    (default "x"%string (xField params))]> ∅)))
        (seq 0 (length data - (p - 1))))
  /\
  (forall (lo hi : R) (k : nat),
     (forall i, (i < p + k)%nat -> lo <= v i <= hi) ->
     lo <= ema_avg v p k <= hi).
Proof.
  intros Hper Hp Hval. split.
  - apply calculateEMA_value; assumption.
  - intros lo hi k Hv. apply ema_avg_bounds; assumption.
Qed.

Lemma calculateEMA_recurrence_witness :
  calculateEMA [point_xy 0 10; point_xy 1 12; point_xy 2 9]
               (mkParams (Some (Fin (INR 2))) None None None None None None)
  = Ok [ <["original"%string := VNum (Fin 12)]>
         (<["y"%string := VNum (Fin (ema_avg (fun i => nth i [10; 12; 9] 0) 2 0))]>
          (<["x"%string := VNum (Fin 1)]> ∅));
         <["original"%string := VNum (Fin 9)]>
         (<["y"%string := VNum (Fin (ema_avg (fun i => nth i [10; 12; 9] 0) 2 1))]>
          (<["x"%string := VNum (Fin 2)]> ∅)) ].
Proof.
  destruct (calculateEMA_recurrence
              [point_xy 0 10; point_xy 1 12; point_xy 2 9]
              (mkParams (Some (Fin (INR 2))) None None None None None None)
              2%nat (fun i => nth i [10; 12; 9] 0)) as [H _].
  - reflexivity.
  - lia.
  - intros i d. cbn [valueField from_option].
    destruct i as [|[|[|i]]]; cbn [lookup list_lookup];
      intros [= <-]; apply point_xy_y.
  - rewrite H.
    cbn [length Nat.sub seq map Nat.add valueField xField from_option nth
         lookup_total list_lookup_total].
    rewrite !point_xy_x. reflexivity.
Defined.

(** ** Bollinger bands *)

Lemma Math_pow_square (d : R) : Math_pow (Fin d) (Fin 2) = Fin (d * d).
Proof.
  unfold Math_pow.
  destruct (Req_dec_T 2 0) as [H | _]; [lra |].
  destruct (Rlt_dec 0 d) as [Hd | Hd].
  - f_equal. replace 2 with (INR 2) by (simpl; lra).
    rewrite Rpower_pow by exact Hd. simpl. ring.
  - destruct (Req_dec_T d 0) as [-> | Hd0].
    + destruct (Rlt_dec 0 2) as [_ | H]; [| lra]. f_equal. ring.
    + rewrite ZfloorZ.
      destruct (Req_dec_T 2 2) as [_ | H]; [| contradiction].
      f_equal. simpl. ring.
Qed.

Section Bollinger.

Variable data : list (gmap string value).
Variable params : Params.
Variable p : nat.
Variable D : R.
Variable v : nat -> R.

Let vf : string := default "y"%string (valueField params).
Let xf : string := default "x"%string (xField params).

Hypothesis period_p : default (Fin 20) (period params) = Fin (INR p).
Hypothesis p_pos : (0 < p)%nat.
Hypothesis deviations_D : default (Fin 2) (deviations params) = Fin D.
Hypothesis D_pos : 0 < D.
Hypothesis values :
  forall i d, data !! i = Some d -> get d vf = VNum (Fin (v i)).

Let band_point (i : nat) : gmap string value :=
  <["original"%string := VNum (Fin (v i))]>
  (<["lower"%string := VNum (Fin (window_mean v p i - window_dev v p i * D))]>
   (<["upper"%string := VNum (Fin (window_mean v p i + window_dev v p i * D))]>
    (<["middle"%string := VNum (Fin (window_mean v p i))]>
     (<[xf := get (data !!! i) xf]> ∅)))).

Lemma calculateBollingerBands_loop (k : nat) :
  (k <= length data)%nat ->
  for_range (fun i result =>
    if (i <? p - 1)%nat then Ok result
    else
      sum ← for_range (fun j sum =>
               d ← elem data (i - j);
               Ok (nadd sum (to_num (get d vf))))
             0 p (Fin 0);
      let sma := ndiv sum (Fin (INR p)) in
      sumSquaredDeviations ← for_range (fun j acc =>
               d ← elem data (i - j);
               let deviation := nsub (to_num (get d vf)) sma in
               Ok (nadd acc (Math_pow deviation (Fin 2))))
             0 p (Fin 0);
      let stdDev := Math_sqrt (ndiv sumSquaredDeviations (Fin (INR p))) in
      let upperBand := nadd sma (nmul stdDev (Fin D)) in
      let lowerBand := nsub sma (nmul stdDev (Fin D)) in
      d ← elem data i;
      Ok (result ++ [ <["original"%string := get d vf]>
                      (<["lower"%string := VNum lowerBand]>
                       (<["upper"%string := VNum upperBand]>
                        (<["middle"%string := VNum sma]>
                         (<[xf := get d xf]> (∅ : gmap string value))))) ]))
    0 k []
  = Ok (map band_point (seq (p - 1) (k - (p - 1)))).
Proof.
  assert (Hp0 : 0 < INR p) by (apply lt_0_INR; exact p_pos).
  assert (Hv : forall j, (j < length data)%nat ->
                 get (data !!! j) vf = VNum (Fin (v j))).
  { intros j Hj. apply values, list_lookup_lookup_total_lt, Hj. }
  intros Hk. induction k as [|k IH]; [reflexivity |].
  rewrite for_range_snoc, IH, bind_Ok by lia. simpl Nat.add.
  destruct (Nat.ltb_spec k (p - 1)) as [E | E].
  - replace (S k - (p - 1))%nat with O by lia.
    replace (k - (p - 1))%nat with O by lia. reflexivity.
  - rewrite (downward_acc data (fun d => to_num (get d vf)) v)
      by (try lia; intros j Hj; rewrite Hv by exact Hj; reflexivity).
    rewrite bind_Ok. cbv zeta. rewrite ndiv_fin by lra.
    replace ((0 + (prefix_sum v (k + 1 - 0) - prefix_sum v (k + 1 - 0 - p))) / INR p)
      with (window_mean v p k)
      by (unfold window_mean; rewrite window_sum_prefix by lia;
          rewrite Nat.sub_0_r; field; lra).
    set (m := window_mean v p k).
    rewrite (downward_acc data
               (fun d => Math_pow (nsub (to_num (get d vf)) (Fin m)) (Fin 2))
               (fun j => (v j - m) * (v j - m)))
      by (try lia; intros j Hj; rewrite Hv by exact Hj; cbn [to_num];
          rewrite nsub_fin; apply Math_pow_square).
    rewrite bind_Ok, ndiv_fin by lra.
    replace ((0 + (prefix_sum (fun j => (v j - m) * (v j - m)) (k + 1 - 0)
                   - prefix_sum (fun j => (v j - m) * (v j - m)) (k + 1 - 0 - p)))
             / INR p)
      with (window_sum (fun j => (v j - m) * (v j - m)) p k / INR p)
      by (rewrite window_sum_prefix by lia; rewrite Nat.sub_0_r; field; lra).
    assert (Hvar : 0 <= window_sum (fun j => (v j - m) * (v j - m)) p k / INR p).
    { apply Rdiv_nonneg; [| exact Hp0].
      apply window_sum_nonneg. intros j. exact (Rle_0_sqr (v j - m)). }
    unfold Math_sqrt.
    destruct (Rle_dec 0 (window_sum (fun j => (v j - m) * (v j - m)) p k / INR p))
      as [_ | N]; [| contradiction].
    rewrite nmul_fin, nadd_fin, nsub_fin.
    rewrite elem_lt, bind_Ok by lia. rewrite Hv by lia.
    replace (S k - (p - 1))%nat with (S (k - (p - 1))) by lia.
    rewrite seq_S, map_app. simpl map.
    replace (p - 1 + (k - (p - 1)))%nat with k by lia.
    reflexivity.
Qed.

Lemma calculateBollingerBands_value :
  calculateBollingerBands data params
  = Ok (map band_point (seq (p - 1) (length data - (p - 1)))).
Proof.
  unfold calculateBollingerBands. rewrite period_p, deviations_D.
  rewrite check_period_nat, bind_Ok by exact p_pos.
  rewrite nle_false by exact D_pos.
  apply calculateBollingerBands_loop. lia.
Qed.

End Bollinger.

(** A loop that folds the points downwards from index [i] with a function
    that cannot fail always completes. *)
Lemma downward_total {A : Type} (data : list (gmap string value))
  (G : A -> gmap string value -> A) (i start count : nat) (acc : A) :
  (i < length data)%nat ->
  exists s,
    for_range (fun j acc =>
       d ← elem data (i - j);
       Ok (G acc d)) start count acc = Ok s.
Proof.
  intros Hi. revert start acc.
  induction count as [|c IH]; intros start acc.
  - eexists. reflexivity.
  - rewrite for_range_S, elem_lt, !bind_Ok by lia. apply IH.
Qed.

Lemma calculateBollingerBands_total (data : list (gmap string value))
  (vf xf : string) (p : nat) (per dev : num) (k : nat) :
  (k <= length data)%nat ->
  exists out,
    for_range (fun i result =>
      if (i <? p - 1)%nat then Ok result
      else
        sum ← for_range (fun j sum =>
                 d ← elem data (i - j);
                 Ok (nadd sum (to_num (get d vf))))
               0 p (Fin 0);
        let sma := ndiv sum per in
        sumSquaredDeviations ← for_range (fun j acc =>
                 d ← elem data (i - j);
                 let deviation := nsub (to_num (get d vf)) sma in
                 Ok (nadd acc (Math_pow deviation (Fin 2))))
               0 p (Fin 0);
        let stdDev := Math_sqrt (ndiv sumSquaredDeviations per) in
        let upperBand := nadd sma (nmul stdDev dev) in
        let lowerBand := nsub sma (nmul stdDev dev) in
        d ← elem data i;
        Ok (result ++ [ <["original"%string := get d vf]>
                        (<["lower"%string := VNum lowerBand]>
                         (<["upper"%string := VNum upperBand]>
                          (<["middle"%string := VNum sma]>
                           (<[xf := get d xf]> (∅ : gmap string value))))) ]))
      0 k []
    = Ok out /\ length out = (k - (p - 1))%nat.
Proof.
  intros Hk. induction k as [|k IH].
  - exists []. split; reflexivity.
  - destruct IH as (out & E & Hlen); [lia |].
    rewrite for_range_snoc, E, bind_Ok. simpl Nat.add.
    destruct (Nat.ltb_spec k (p - 1)) as [Hkp | Hkp].
    + exists out. split; [reflexivity | lia].
    + destruct (downward_total data (fun sum d => nadd sum (to_num (get d vf)))
                  k 0 p (Fin 0)) as [s Hs]; [lia |].
      rewrite Hs, bind_Ok. cbv zeta.
      destruct (downward_total data
                  (fun acc d => nadd acc (Math_pow (nsub (to_num (get d vf))
                                                        (ndiv s per)) (Fin 2)))
                  k 0 p (Fin 0)) as [q Hq]; [lia |].
      rewrite Hq, bind_Ok, elem_lt, bind_Ok by lia.
      eexists. split; [reflexivity |].
      rewrite length_app. simpl. lia.
Qed.

(** X12. With a period that validates as [p], a positive number of
    deviations [D] and real values [v i] in the value field,
    [calculateBollingerBands] returns one point for each index [i] from
    [p - 1] on, carrying the x and the value of that point; its middle band
    is the mean of the [p] values ending at [i], and its upper and lower
    bands lie [D] population standard deviations of those values above and
    below the middle one, so that lower <= middle <= upper. *)
Theorem calculateBollingerBands_bands (data : list (gmap string value))
  (params : Params) (p : nat) (D : R) (v : nat -> R) :
  default (Fin 20) (period params) = Fin (INR p) ->
  (0 < p)%nat ->
  default (Fin 2) (deviations params) = Fin D ->
  0 < D ->
  (forall i d, data !! i = Some d ->
     get d (default "y"%string (valueField params)) = VNum (Fin (v i))) ->
  calculateBollingerBands data params
  = Ok (map (fun i =>
          <["original"%string := VNum (Fin (v i))]>
          (<["lower"%string :=
               VNum (Fin (window_mean v p i - window_dev v p i * D))]>
           (<["upper"%string :=
                VNum (Fin (window_mean v p i + window_dev v p i * D))]>
            (<["middle"%string := VNum (Fin (window_mean v p i))]>
             (<[default "x"%string (xField params) :=
                  get (data !!! i) (default "x"%string (xField params))]> ∅)))))
        (seq (p - 1) (length data - (p - 1))))
  /\
  (forall i,
     window_mean v p i - window_dev v p i * D <= window_mean v p i
     <= window_mean v p i + window_dev v p i * D).
Proof.
  intros Hper Hp Hdev HD Hval. split.
  - apply calculateBollingerBands_value; assumption.
  - intros i.
    assert (0 <= window_dev v p i) by (unfold window_dev; apply sqrt_pos).
    nra.
Qed.

Lemma calculateBollingerBands_bands_witness :
  exists out,
    calculateBollingerBands [point_xy 0 10; point_xy 1 12; point_xy 2 9]
      (mkParams (Some (Fin (INR 2))) None None None None None None)
    = Ok out /\ length out = 2%nat.
Proof.
  destruct (calculateBollingerBands_bands
              [point_xy 0 10; point_xy 1 12; point_xy 2 9]
              (mkParams (Some (Fin (INR 2))) None None None None None None)
              2%nat 2 (fun i => nth i [10; 12; 9] 0)) as [H _].
  - reflexivity.
  - lia.
  - reflexivity.
  - lra.
  - intros i d. cbn [valueField from_option].
    destruct i as [|[|[|i]]]; cbn [lookup list_lookup];
      intros [= <-]; apply point_xy_y.
  - eexists. split; [exact H | reflexivity].
Defined.

(** X13. Once the period has validated, [calculateBollingerBands] refuses a
    number of deviations that is zero or negative, and does so whatever the
    series holds, the empty series included; with any other setting (a
    positive number, or a value that is not a number at all) it never
    fails, and returns one point for each index from [p - 1] on even where
    points have no value. *)
Theorem calculateBollingerBands_deviations (data : list (gmap string value))
  (params : Params) (p : nat) :
  default (Fin 20) (period params) = Fin (INR p) ->
  (0 < p)%nat ->
  (forall D, default (Fin 2) (deviations params) = Fin D -> D <= 0 ->
     calculateBollingerBands data params = Throw DeviationsError)
  /\
  ((forall D, default (Fin 2) (deviations params) = Fin D -> 0 < D) ->
   exists out, calculateBollingerBands data params = Ok out /\
               length out = (length data - (p - 1))%nat).
Proof.
  intros Hper Hp. split.
  - intros D HD Hle. unfold calculateBollingerBands. rewrite Hper, HD.
    rewrite check_period_nat, bind_Ok by exact Hp.
    rewrite nle_true by exact Hle. reflexivity.
  - intros Hpos. unfold calculateBollingerBands. rewrite Hper.
    rewrite check_period_nat, bind_Ok by exact Hp.
    assert (Hnle : nle (default (Fin 2) (deviations params)) (Fin 0) = false).
    { destruct (default (Fin 2) (deviations params)) as [D|] eqn:E;
        [| reflexivity].
      apply nle_false, Hpos. reflexivity. }
    rewrite Hnle. apply calculateBollingerBands_total. lia.
Qed.

Lemma calculateBollingerBands_deviations_witness :
  calculateBollingerBands []
    (mkParams (Some (Fin (INR 3))) (Some (Fin 0)) None None None None None)
  = Throw DeviationsError
  /\
  exists out,
    calculateBollingerBands [ <["x"%string := VNum (Fin 0)]> ∅ ]
      (mkParams (Some (Fin (INR 1))) (Some NaN) None None None None None)
    = Ok out /\ length out = 1%nat.
Proof.
  split.
  - refine (proj1 (calculateBollingerBands_deviations []
              (mkParams (Some (Fin (INR 3))) (Some (Fin 0)) None None None None None)
              3%nat _ _) 0 _ _); [reflexivity | lia | reflexivity | lra].
  - refine (proj2 (calculateBollingerBands_deviations
              [ <["x"%string := VNum (Fin 0)]> ∅ ]
              (mkParams (Some (Fin (INR 1))) (Some NaN) None None None None None)
              1%nat _ _) _); [reflexivity | lia |].
    intros D HD. discriminate HD.
Defined.

(** ** Range of the relative strength index *)

Lemma rsi_formula_range (g l : R) :
  0 <= g -> 0 < l ->
  0 <= 100 - 100 / (1 + g / l) < 100 /\
  (100 - 100 / (1 + g / l) = 0 <-> g = 0).
Proof.
  intros Hg Hl.
  assert (Hq : 0 <= g / l) by (apply Rdiv_nonneg; assumption).
  assert (Hs : 0 < 1 + g / l) by lra.
  assert (Hinv : 0 < 100 / (1 + g / l) <= 100).
  { split; [apply Rdiv_lt_0_compat; lra |].
    apply (Rmult_le_reg_r (1 + g / l)); [exact Hs |].
    unfold Rdiv at 1. rewrite Rmult_assoc, Rinv_l by lra. lra. }
  split; [lra |]. split.
  - intros E. assert (E1 : 100 / (1 + g / l) = 100) by lra.
    apply (f_equal (fun y => y * (1 + g / l))) in E1.
    unfold Rdiv at 1 in E1. rewrite Rmult_assoc, Rinv_l in E1 by lra.
    assert (E2 : g / l = 0) by lra.
    apply (f_equal (fun y => y * l)) in E2.
    unfold Rdiv in E2. rewrite Rmult_assoc, Rinv_l in E2 by lra. lra.
  - intros ->. unfold Rdiv. rewrite Rmult_0_l, Rplus_0_r, Rinv_1. lra.
Qed.

(** X14.  In exact arithmetic (rounding is not modelled; on binary64
    numbers an RSI can round to 100 or to 0 without the average loss or
    gain being 0).  With a period that validates as [p] and real values in
    the value field, [calculateRSI] returns one entry for each index from
    [p] on
    (none for a series of [p] points or fewer); the averages of an entry
    are finite and not negative, and its RSI lies between 0 and 100: it is
    100 exactly when the average loss is 0, and 0 exactly when the average
    gain is 0 and the average loss is not. *)
Theorem calculateRSI_range (data : list (gmap string value))
  (params : Params) (p : nat) (v : nat -> R) :
  default (Fin 14) (period params) = Fin (INR p) ->
  (0 < p)%nat ->
  (forall i d, data !! i = Some d ->
     get d (default "y"%string (valueField params)) = VNum (Fin (v i))) ->
  exists out,
    calculateRSI data params = Ok out /\
    length out = (length data - p)%nat /\
    forall k e, out !! k = Some e ->
      exists g l r : R,
        get e "avgGain" = VNum (Fin g) /\ get e "avgLoss" = VNum (Fin l) /\
        get e "rsi" = VNum (Fin r) /\
        0 <= g /\ 0 <= l /\ 0 <= r <= 100 /\
        (r = 100 <-> l = 0) /\ (r = 0 <-> g = 0 /\ l <> 0).
Proof.
  intros Hper Hp Hval. eexists. split; [apply (calculateRSI_value data params p v); assumption |].
  split; [rewrite length_map, length_seq; reflexivity |].
  intros k e He. rewrite list_lookup_fmap in He.
  destruct (seq 0 (length data - p) !! k) as [k'|]; [| discriminate].
  injection He as <-.
  pose proof (wilder_avg_nonneg (gain v) p k' Hp (gain_nonneg v)) as Hg.
  pose proof (wilder_avg_nonneg (loss v) p k' Hp (loss_nonneg v)) as Hl.
  set (g := wilder_avg (gain v) p k') in *.
  set (l := wilder_avg (loss v) p k') in *.
  exists g, l. eexists.
  split; [apply rsi_entry_avgGain |]. split; [apply rsi_entry_avgLoss |].
  split; [apply rsi_entry_rsi; assumption |].
  split; [exact Hg |]. split; [exact Hl |].
  destruct (Req_dec_T l 0) as [E | E].
  - split; [lra |]. split; [tauto |]. split; [lra | tauto].
  - destruct (rsi_formula_range g l) as (Hr & Hz); [lra | lra |].
    split; [lra |]. split; [split; intros; [lra | contradiction] |].
    split; [intros E0; split; [apply Hz, E0 | exact E] | intros [E0 _]; apply Hz, E0].
Qed.

Lemma calculateRSI_range_witness :
  exists out,
    calculateRSI [point_xy 0 10; point_xy 1 9; point_xy 2 10; point_xy 3 11]
                 (mkParams (Some (Fin (INR 2))) None None None None None None)
    = Ok out /\ length out = 2%nat.
Proof.
  destruct (calculateRSI_range
              [point_xy 0 10; point_xy 1 9; point_xy 2 10; point_xy 3 11]
              (mkParams (Some (Fin (INR 2))) None None None None None None)
              2%nat (fun i => nth i [10; 9; 10; 11] 0)) as (out & E & Hlen & _).
  - reflexivity.
  - lia.
  - intros i d. cbn [valueField from_option].
    destruct i as [|[|[|[|i]]]]; cbn [lookup list_lookup];
      intros [= <-]; apply point_xy_y.
  - exists out. split; [exact E | exact Hlen].
Defined.

(** ** Refused periods *)

Lemma check_period_Throw (what : string) (per : num) :
  (forall p, (0 < p)%nat -> per <> Fin (INR p)) ->
  check_period what per = Throw (PeriodError what).
Proof.
  intros Hno. destruct (check_period what per) as [p | e] eqn:E.
  - apply check_period_Ok in E. destruct E as [Hp ->].
    exfalso. exact (Hno p Hp eq_refl).
  - unfold check_period in E.
    destruct (nle per (Fin 0) || negb (Number_isInteger per)); [| discriminate].
    symmetry. exact E.
Qed.

(** X15. A period that is given and is not a positive integer (zero, a
    negative number, a fraction, [NaN]) is refused by each indicator with
    its own error, whatever the series holds, the empty series included.
    [calculateMACD] checks the fast period first, then the slow one, then
    the signal one, and reports the first that fails. *)
Theorem indicators_refuse_period (data : list (gmap string value))
  (params : Params) (per : num) :
  (forall p, (0 < p)%nat -> per <> Fin (INR p)) ->
  (period params = Some per ->
   calculateSMA data params = Throw (PeriodError "SMA") /\
   calculateEMA data params = Throw (PeriodError "EMA") /\
   calculateBollingerBands data params = Throw (PeriodError "Bollinger Bands") /\
   calculateRSI data params = Throw (PeriodError "RSI"))
  /\
  (fastPeriod params = Some per ->
   calculateMACD data params = Throw (PeriodError "MACD fast"))
  /\
  (forall f, (0 < f)%nat ->
     default (Fin 12) (fastPeriod params) = Fin (INR f) ->
     slowPeriod params = Some per ->
     calculateMACD data params = Throw (PeriodError "MACD slow"))
  /\
  (forall f s, (0 < f)%nat -> (0 < s)%nat ->
     default (Fin 12) (fastPeriod params) = Fin (INR f) ->
     default (Fin 26) (slowPeriod params) = Fin (INR s) ->
     signalPeriod params = Some per ->
     calculateMACD data params = Throw (PeriodError "MACD signal")).
Proof.
  intros Hno. split; [| split; [| split]].
  - intros E.
    unfold calculateSMA, calculateEMA, calculateBollingerBands, calculateRSI.
    rewrite E. cbn [from_option]. unfold Datatypes.id.
    rewrite !check_period_Throw by exact Hno. repeat split; reflexivity.
  - intros E. unfold calculateMACD. rewrite E. cbn [from_option].
    unfold Datatypes.id. rewrite (check_period_Throw "MACD fast" per Hno).
    reflexivity.
  - intros f Hf Ef E. unfold calculateMACD. rewrite Ef, E. cbn [from_option].
    unfold Datatypes.id. rewrite (check_period_nat "MACD fast" f Hf), bind_Ok.
    rewrite (check_period_Throw "MACD slow" per Hno). reflexivity.
  - intros f s Hf Hs Ef Es E. unfold calculateMACD. rewrite Ef, Es, E.
    cbn [from_option]. unfold Datatypes.id.
    rewrite (check_period_nat "MACD fast" f Hf), bind_Ok.
    rewrite (check_period_nat "MACD slow" s Hs), bind_Ok.
    rewrite (check_period_Throw "MACD signal" per Hno). reflexivity.
Qed.

Lemma indicators_refuse_period_witness :
  calculateSMA [] (mkParams (Some (Fin (5 / 2))) None None None None None None)
  = Throw (PeriodError "SMA")
  /\
  calculateMACD [] (mkParams None None None (Some NaN) None None None)
  = Throw (PeriodError "MACD slow").
Proof.
  split.
  - refine (proj1 (proj1 (indicators_refuse_period []
              (mkParams (Some (Fin (5 / 2))) None None None None None None)
              (Fin (5 / 2)) _) eq_refl)).
    intros p Hp E. injection E as E.
    assert (H2 : INR (2 * p) = 5) by (rewrite mult_INR; simpl; lra).
    replace 5 with (INR 5) in H2 by (simpl; lra).
    apply INR_eq in H2. lia.
  - refine (proj1 (proj2 (proj2 (indicators_refuse_period []
              (mkParams None None None (Some NaN) None None None) NaN _)))
              12%nat _ _ eq_refl).
    + intros p Hp E. discriminate E.
    + lia.
    + cbn [fastPeriod from_option]. unfold Datatypes.id. f_equal. simpl. lra.
Defined.

(** ** The grid of a stacked chart *)

Lemma NoDup_Set_add (s : list num) (k : num) :
  NoDup s -> NoDup (Set_add s k).
Proof.
  intros Hs. unfold Set_add. destruct (decide (k ∈ s)) as [Hin | Hin].
  - exact Hs.
  - apply NoDup_app. split; [exact Hs |]. split.
    + intros x Hx Hk. apply list_elem_of_singleton in Hk. subst x. contradiction.
    + apply NoDup_singleton.
Qed.

Lemma NoDup_allXValues (xField : string) (datasets : list dataset) :
  NoDup (allXValues xField datasets).
Proof.
  unfold allXValues.
  assert (G : forall s, NoDup s ->
    NoDup (foldl (fun s ds =>
             foldl (fun s d =>
               match get d xField with
               | VNum k => Set_add s k
               | VUndef => s
               end) s (ds_data ds)) s datasets)).
  { induction datasets as [|ds dss IH]; intros s Hs; simpl; [exact Hs |].
    apply IH. clear IH. revert s Hs.
    induction (ds_data ds) as [|d data IHd]; intros s Hs; simpl; [exact Hs |].
    apply IHd. destruct (get d xField); [exact Hs |].
    apply NoDup_Set_add, Hs. }
  apply G. constructor.
Qed.

(** Inserting a new finite key into an increasing list of finite keys
    keeps it increasing. *)
Lemma sort_insert_sorted (r : R) (xs : list R) :
  Sorted Rlt xs -> r ∉ xs ->
  exists xs',
    sort_insert (fun a b => nsub a b) (Fin r) (map Fin xs) = map Fin xs' /\
    Sorted Rlt xs' /\
    (forall lo, lo < r -> HdRel Rlt lo xs -> HdRel Rlt lo xs').
Proof.
  induction xs as [|y xs IH]; intros Hs Hr.
  - exists [r]. split; [reflexivity |]. split.
    + repeat constructor.
    + intros lo Hlo _. constructor. exact Hlo.
  - cbn [map sort_insert]. rewrite nsub_fin.
    assert (Hne : r <> y) by (intros ->; apply Hr; left).
    destruct (Rle_dec (r - y) 0) as [Hle | Hgt].
    + rewrite nlt_false by exact Hle. exists (r :: y :: xs).
      split; [reflexivity |]. split.
      * constructor; [exact Hs |]. constructor. lra.
      * intros lo Hlo _. constructor. exact Hlo.
    + rewrite nlt_true by lra.
      apply Sorted_inv in Hs. destruct Hs as [Hs Hhd].
      destruct IH as (xs' & E & Hs' & Hhd'); [exact Hs | |].
      { intros Hin. apply Hr. right. exact Hin. }
      exists (y :: xs'). split; [cbn [map]; rewrite E; reflexivity |]. split.
      * constructor; [exact Hs' |]. apply Hhd'; [lra | exact Hhd].
      * intros lo Hlo Hlohd. apply HdRel_inv in Hlohd. constructor. exact Hlohd.
Qed.

Lemma Array_sort_sorted (l : list num) :
  NoDup l -> (forall x, x ∈ l -> x <> NaN) ->
  exists xs, Array_sort (fun a b => nsub a b) l = map Fin xs /\ Sorted Rlt xs.
Proof.
  induction l as [|a l IH]; intros Hnd Hfin.
  - exists []. split; [reflexivity | constructor].
  - apply NoDup_cons in Hnd. destruct Hnd as [Ha Hnd].
    destruct IH as (xs & E & Hs); [exact Hnd | |].
    { intros x Hx. apply Hfin. right. exact Hx. }
    destruct a as [r|]; [| exfalso; apply (Hfin NaN); [left | reflexivity]].
    destruct (sort_insert_sorted r xs Hs) as (xs' & E' & Hs' & _).
    { intros Hin. apply Ha.
      apply (elem_of_Array_sort (fun a b => nsub a b)). rewrite E.
      apply list_elem_of_fmap. exists r. split; [reflexivity | exact Hin]. }
    exists xs'. split; [| exact Hs'].
    unfold Array_sort in *. cbn [foldr]. rewrite E. exact E'.
Qed.

(** X16. When no point has [NaN] as its x and the x field is neither the y
    field nor [originalValue], every stacked series (all but the first)
    is sampled on one and the same grid: the x values of its points are,
    in this order, the distinct x values found in any of the series,
    strictly increasing. *)
Theorem createStackedData_grid (xField yField : string)
  (datasets : list dataset) :
  xField <> yField -> xField <> "originalValue"%string ->
  (forall ds d, ds ∈ datasets -> d ∈ ds_data ds ->
     get d xField <> VNum NaN) ->
  exists xs : list R,
    StronglySorted Rlt xs /\
    (forall r, r ∈ xs <->
       exists ds d, ds ∈ datasets /\ d ∈ ds_data ds /\
                    get d xField = VNum (Fin r)) /\
    (forall k ds, (0 < k)%nat ->
       createStackedData xField yField datasets !! k = Some ds ->
       map (fun d => get d xField) (ds_data ds)
       = map (fun r => VNum (Fin r)) xs).
Proof.
  intros Hxy Hxo Hfin.
  destruct (Array_sort_sorted (allXValues xField datasets)) as (xs & E & Hs).
  { apply NoDup_allXValues. }
  { intros x Hx ->. apply elem_of_allXValues in Hx.
    destruct Hx as (ds & d & Hds & Hd & Hx). exact (Hfin ds d Hds Hd Hx). }
  exists xs. split; [| split].
  - apply Sorted_StronglySorted; [| exact Hs].
    intros a b c Hab Hbc. lra.
  - intros r. rewrite <- (elem_of_allXValues xField datasets (Fin r)).
    rewrite <- (elem_of_Array_sort (fun a b => nsub a b)), E.
    rewrite list_elem_of_fmap. split.
    + intros Hr. exists r. auto.
    + intros (r' & [= ->] & Hr). exact Hr.
  - intros k ds Hk Hds. unfold createStackedData in Hds.
    rewrite list_lookup_imap in Hds.
    destruct (datasets !! k) as [ds0|]; [| discriminate].
    cbn [fmap option_fmap option_map] in Hds.
    replace (k =? 0)%nat with false in Hds
      by (symmetry; apply Nat.eqb_neq; lia).
    injection Hds as <-. cbn [ds_data]. rewrite E.
    rewrite !map_map. apply map_ext. intros r.
    rewrite !get_insert.
    destruct (decide ("originalValue"%string = xField)) as [Eo | _];
      [exfalso; apply Hxo; symmetry; exact Eo |].
    destruct (decide (yField = xField)) as [Ey | _];
      [exfalso; apply Hxy; symmetry; exact Ey |].
    destruct (decide (xField = xField)) as [_ | N]; [reflexivity | contradiction].
Qed.

Lemma createStackedData_grid_witness :
  exists xs : list R,
    StronglySorted Rlt xs /\
    (forall r, r ∈ xs <->
       exists ds d,
         ds ∈ [mkDataset "a" "A" "red" (Fin 1) "area" [point_xy 2 5; point_xy 1 3];
               mkDataset "b" "B" "blue" (Fin 1) "area" [point_xy 1 4]] /\
         d ∈ ds_data ds /\ get d "x" = VNum (Fin r)).
Proof.
  destruct (createStackedData_grid "x" "y"
    [mkDataset "a" "A" "red" (Fin 1) "area" [point_xy 2 5; point_xy 1 3];
     mkDataset "b" "B" "blue" (Fin 1) "area" [point_xy 1 4]])
    as (xs & Hs & Hin & _).
  - discriminate.
  - discriminate.
  - intros ds d Hds Hd.
    repeat (apply elem_of_cons in Hds; destruct Hds as [-> | Hds]);
      [| | inversion Hds]; cbn [ds_data] in Hd;
      repeat (apply elem_of_cons in Hd; destruct Hd as [-> | Hd]);
      try (inversion Hd; fail); rewrite point_xy_x; discriminate.
  - exists xs. split; [exact Hs | exact Hin].
Defined.

(** ** How many points the MACD returns *)

Lemma cell_replicate (n j : nat) : cell (replicate n None) j = None.
Proof.
  unfold cell. destruct (replicate n (@None num) !! j) as [x|] eqn:E;
    [| reflexivity].
  apply lookup_replicate in E. destruct E as [-> _]. reflexivity.
Qed.

Lemma cell_insert (arr : list (option num)) (i j : nat) (x : option num) :
  (i < length arr)%nat ->
  cell (<[i := x]> arr) j = if decide (i = j) then x else cell arr j.
Proof.
  intros Hi. unfold cell. destruct (decide (i = j)) as [-> | Hne].
  - rewrite list_lookup_insert_eq by exact Hi. reflexivity.
  - rewrite list_lookup_insert_ne by exact Hne. reflexivity.
Qed.

(** One EMA update records a value at index [i] exactly when [i] has
    reached [p - 1]. *)
Lemma macd_ema_step_shape (data : list (gmap string value)) (vf : string)
  (p : nat) (per mult value : num) (i : nat)
  (ema : option num) (emas : list (option num)) :
  (i < length data)%nat -> length emas = length data ->
  (forall j, is_Some (cell emas j) <-> (p - 1 <= j < i)%nat) ->
  exists ema' emas',
    macd_ema_step data vf p per mult value i (ema, emas) = Ok (ema', emas') /\
    length emas' = length data /\
    (forall j, is_Some (cell emas' j) <-> (p - 1 <= j < S i)%nat).
Proof.
  intros Hi Hlen Hshape. unfold macd_ema_step.
  destruct (Nat.ltb_spec i (p - 1)) as [Hlt | Hge].
  - exists ema, emas. split; [reflexivity |]. split; [exact Hlen |].
    intros j. rewrite Hshape. lia.
  - assert (Hins : forall x j,
      is_Some (cell (<[i := Some x]> emas) j) <-> (p - 1 <= j < S i)%nat).
    { intros x j. rewrite cell_insert by lia.
      destruct (decide (i = j)) as [<- | Hne].
      - split; [intros _; lia | intros _; eexists; reflexivity].
      - rewrite Hshape. lia. }
    destruct (Nat.eqb_spec i (p - 1)) as [Heq | Hne].
    + destruct (downward_total data (fun sum d => nadd sum (to_num (get d vf)))
                  i 0 p (Fin 0)) as [s Hs]; [exact Hi |].
      rewrite Hs, bind_Ok. eexists _, _. split; [reflexivity |].
      split; [rewrite length_insert; exact Hlen | apply Hins].
    + eexists _, _. split; [reflexivity |].
      split; [rewrite length_insert; exact Hlen | apply Hins].
Qed.

Lemma macd_emas_shape (data : list (gmap string value)) (vf : string)
  (fp sp : nat) (fper fmult sper smult : num) (k : nat) :
  (k <= length data)%nat ->
  exists fast fastEMAs slow slowEMAs,
    for_range (fun i '(fast, slow) =>
      d ← elem data i;
      let value := to_num (get d vf) in
      fast ← macd_ema_step data vf fp fper fmult value i fast;
      slow ← macd_ema_step data vf sp sper smult value i slow;
      Ok (fast, slow))
      0 k ((None, replicate (length data) None),
           (None, replicate (length data) None))
    = Ok ((fast, fastEMAs), (slow, slowEMAs)) /\
    length fastEMAs = length data /\ length slowEMAs = length data /\
    (forall j, is_Some (cell fastEMAs j) <-> (fp - 1 <= j < k)%nat) /\
    (forall j, is_Some (cell slowEMAs j) <-> (sp - 1 <= j < k)%nat).
Proof.
  intros Hk. induction k as [|k IH].
  - eexists _, _, _, _. split; [reflexivity |].
    rewrite length_replicate. split; [reflexivity |]. split; [reflexivity |].
    split; intros j; rewrite cell_replicate;
      (split; [intros [x Hx]; discriminate | lia]).
  - destruct IH as (f & fE & s & sE & E & Hlf & Hls & Hf & Hs); [lia |].
    rewrite for_range_snoc, E, bind_Ok. simpl Nat.add. cbv beta iota.
    rewrite elem_lt, bind_Ok by lia. cbv zeta.
    destruct (macd_ema_step_shape data vf fp fper fmult
                (to_num (get (data !!! k) vf)) k f fE)
      as (f' & fE' & Ef & Hlf' & Hf'); [lia | exact Hlf | exact Hf |].
    destruct (macd_ema_step_shape data vf sp sper smult
                (to_num (get (data !!! k) vf)) k s sE)
      as (s' & sE' & Es & Hls' & Hs'); [lia | exact Hls | exact Hs |].
    rewrite Ef, bind_Ok, Es, bind_Ok.
    exists f', fE', s', sE'. auto.
Qed.

Lemma macd_line_shape (fastEMAs slowEMAs : list (option num))
  (sp n k : nat) :
  (k <= n)%nat ->
  let macdLine :=
    foldl (fun macdLine i =>
      match (i <? sp - 1)%nat, cell fastEMAs i, cell slowEMAs i with
      | false, Some f, Some s => <[i := Some (nsub f s)]> macdLine
      | _, _, _ => macdLine
      end) (replicate n None) (seq 0 k) in
  length macdLine = n /\
  forall j, is_Some (cell macdLine j) <->
            (j < k)%nat /\ (sp - 1 <= j)%nat /\
            is_Some (cell fastEMAs j) /\ is_Some (cell slowEMAs j).
Proof.
  intros Hk. induction k as [|k IH].
  - simpl. rewrite length_replicate. split; [reflexivity |].
    intros j. rewrite cell_replicate.
    split; [intros [x Hx]; discriminate | lia].
  - destruct IH as (Hlen & Hshape); [lia |].
    cbv zeta. rewrite seq_S, foldl_app. cbn [foldl Nat.add].
    set (mL := foldl _ (replicate n None) (seq 0 k)) in *.
    assert (Hkeep : length mL = n /\
      (~ ((sp - 1 <= k)%nat /\ is_Some (cell fastEMAs k)
          /\ is_Some (cell slowEMAs k)) ->
       forall j, is_Some (cell mL j) <->
         (j < S k)%nat /\ (sp - 1 <= j)%nat /\
         is_Some (cell fastEMAs j) /\ is_Some (cell slowEMAs j))).
    { split; [exact Hlen |]. intros Hno j. rewrite Hshape.
      split; [intros (H1 & H2 & H3 & H4); repeat split; auto; lia |].
      intros (H1 & H2 & H3 & H4).
      destruct (decide (j = k)) as [-> | Hne]; [exfalso; apply Hno; auto |].
      repeat split; auto; lia. }
    destruct Hkeep as [_ Hkeep].
    destruct (Nat.ltb_spec k (sp - 1)) as [Hlt | Hge].
    { split; [exact Hlen |]. apply Hkeep. intros (H & _). lia. }
    destruct (cell fastEMAs k) as [f|] eqn:Ef.
    2:{ split; [exact Hlen |]. apply Hkeep. intros (_ & [x Hx] & _). discriminate. }
    destruct (cell slowEMAs k) as [s|] eqn:Es.
    2:{ split; [exact Hlen |]. apply Hkeep. intros (_ & _ & [x Hx]). discriminate. }
    split; [rewrite length_insert; exact Hlen |].
    intros j. rewrite cell_insert by lia.
    destruct (decide (k = j)) as [<- | Hne].
    + rewrite Ef, Es. split; [intros _ | intros _; eexists; reflexivity].
      repeat split; try lia; eexists; reflexivity.
    + rewrite Hshape. split; intros (H1 & H2); (split; [lia | exact H2]).
Qed.

Lemma macd_seed_count (macdLine : list (option num)) (i gp : nat) :
  (0 < gp)%nat -> is_Some (cell macdLine i) ->
  (0 < (foldl (fun '(sum, count) j =>
          match (j <=? i)%nat, cell macdLine (i - j) with
          | true, Some v => (nadd sum v, S count)
          | _, _ => (sum, count)
          end) (Fin 0, O) (seq 0 gp)).2)%nat.
Proof.
  intros Hgp [m Hm].
  assert (Hmono : forall l sum c,
    (c <= (foldl (fun '(sum, count) j =>
             match (j <=? i)%nat, cell macdLine (i - j) with
             | true, Some v => (nadd sum v, S count)
             | _, _ => (sum, count)
             end) (sum, c) l).2)%nat).
  { induction l as [|j l IH]; intros sum c; [simpl; lia |].
    cbn [foldl].
    destruct (j <=? i)%nat; [| apply IH].
    destruct (cell macdLine (i - j)); [| apply IH].
    etransitivity; [| apply IH]. lia. }
  destruct gp as [|gp]; [lia |].
  cbn [seq foldl Nat.leb]. rewrite Nat.sub_0_r, Hm. apply Hmono.
Qed.

(** The signal line is seeded at index [sp + gp - 2], provided the MACD
    line has a value there, and from then on follows it; it stays empty
    otherwise. *)
Lemma macd_signal_shape (macdLine : list (option num)) (sp gp : nat)
  (mult : num) (n k : nat) :
  (0 < gp)%nat -> (k <= n)%nat ->
  let st :=
    foldl (fun '(signalEMA, signalLine) i =>
      match (i <? sp + gp - 2)%nat, cell macdLine i with
      | false, Some m =>
          if (i =? sp + gp - 2)%nat then
            let '(sum, count) :=
              foldl (fun '(sum, count) j =>
                match (j <=? i)%nat, cell macdLine (i - j) with
                | true, Some v => (nadd sum v, S count)
                | _, _ => (sum, count)
                end) (Fin 0, O) (seq 0 gp) in
            let signalEMA :=
              if (0 <? count)%nat then Some (ndiv sum (Fin (INR count)))
              else None in
            (signalEMA, <[i := signalEMA]> signalLine)
          else
            match signalEMA with
            | Some e =>
                let e' := nadd (nmul (nsub m e) mult) e in
                (Some e', <[i := Some e']> signalLine)
            | None => (signalEMA, signalLine)
            end
      | _, _ => (signalEMA, signalLine)
      end) (None, replicate n None) (seq 0 k) in
  length st.2 = n /\
  (is_Some (cell macdLine (sp + gp - 2)) /\ (sp + gp - 2 < k)%nat ->
   is_Some st.1 /\
   forall j, is_Some (cell st.2 j) <->
             (sp + gp - 2 <= j < k)%nat /\ is_Some (cell macdLine j)) /\
  (~ (is_Some (cell macdLine (sp + gp - 2)) /\ (sp + gp - 2 < k)%nat) ->
   st.1 = None /\ forall j, cell st.2 j = None).
Proof.
  intros Hgp Hk. induction k as [|k IH].
  - simpl. rewrite length_replicate. split; [reflexivity |]. split.
    + intros [_ H]. lia.
    + intros _. split; [reflexivity | intros j; apply cell_replicate].
  - specialize (IH ltac:(lia)). cbv zeta in IH. cbv zeta.
    rewrite seq_S, foldl_app. cbn [foldl Nat.add].
    destruct (foldl _ (None, replicate n None) (seq 0 k)) as [sig sL].
    cbn [fst snd] in IH. destruct IH as (Hlen & Hyes & Hno).
    set (T := (sp + gp - 2)%nat) in *.
    (* the state is left as it is *)
    assert (Hsame : (k < T)%nat \/ cell macdLine k = None \/
                    ((T < k)%nat /\ sig = None /\ ~ is_Some (cell macdLine T)) ->
      length (sig, sL).2 = n /\
      (is_Some (cell macdLine T) /\ (T < S k)%nat ->
       is_Some (sig, sL).1 /\
       forall j, is_Some (cell (sig, sL).2 j) <->
                 (T <= j < S k)%nat /\ is_Some (cell macdLine j)) /\
      (~ (is_Some (cell macdLine T) /\ (T < S k)%nat) ->
       (sig, sL).1 = None /\ forall j, cell (sig, sL).2 j = None)).
    { intros Hcase. cbn [fst snd]. split; [exact Hlen |]. split.
      - intros [HT HTk].
        assert (HTk' : (T < k)%nat).
        { destruct Hcase as [H | [H | (H & _)]]; [lia | | exact H].
          destruct (decide (T = k)) as [E | E]; [| lia].
          rewrite E in HT. rewrite H in HT. destruct HT as [x Hx]. discriminate. }
        destruct (Hyes (conj HT HTk')) as [Hsig Hshape].
        split; [exact Hsig |]. intros j. rewrite Hshape.
        split; intros [H1 H2]; (split; [| exact H2]); [lia |].
        destruct (decide (j = k)) as [-> | Hne]; [| lia].
        destruct Hcase as [H | [H | (_ & _ & H)]]; [lia | | contradiction].
        rewrite H in H2. destruct H2 as [x Hx]. discriminate.
      - intros Hnot. apply Hno. intros [HT HTk]. apply Hnot. split; [exact HT | lia]. }
    destruct (Nat.ltb_spec k T) as [HkT | HkT]; [apply Hsame; auto |].
    destruct (cell macdLine k) as [m|] eqn:Em; [| apply Hsame; auto].
    destruct (Nat.eqb_spec k T) as [HeqT | HneT].
    + (* the seed *)
      pose proof (macd_seed_count macdLine k gp Hgp
                    (ex_intro _ m Em)) as Hcount.
      destruct (foldl _ (Fin 0, O) (seq 0 gp)) as [sum count].
      cbn [snd] in Hcount.
      destruct (Nat.ltb_spec 0 count) as [_ | Hc]; [| lia].
      cbn [fst snd].
      destruct Hno as [_ Hnone]; [intros [_ H]; lia |].
      split; [rewrite length_insert; exact Hlen |]. split.
      * intros _. split; [eexists; reflexivity |].
        intros j. rewrite cell_insert by lia.
        destruct (decide (k = j)) as [<- | Hne].
        -- split; [intros _ | intros _; eexists; reflexivity].
           split; [lia | rewrite Em; eexists; reflexivity].
        -- rewrite Hnone. split; [intros [x Hx]; discriminate | lia].
      * intros Hnot. exfalso. apply Hnot. rewrite <- HeqT. rewrite Em.
        split; [eexists; reflexivity | lia].
    + destruct sig as [e|].
      * (* a step of the average *)
        cbn [fst snd].
        assert (HT : is_Some (cell macdLine T) /\ (T < k)%nat).
        { split; [| lia].
          destruct (cell macdLine T) as [x|] eqn:ET; [eexists; reflexivity |].
          destruct Hno as [Hsig _]; [intros [[x Hx] _]; discriminate |].
          discriminate. }
        destruct (Hyes HT) as [_ Hshape].
        split; [rewrite length_insert; exact Hlen |]. split.
        -- intros _. split; [eexists; reflexivity |].
           intros j. rewrite cell_insert by lia.
           destruct (decide (k = j)) as [<- | Hne].
           ++ split; [intros _ | intros _; eexists; reflexivity].
              split; [lia | rewrite Em; eexists; reflexivity].
           ++ rewrite Hshape. split; intros [H1 H2]; (split; [lia | exact H2]).
        -- intros Hnot. exfalso. apply Hnot. split; [apply HT | lia].
      * apply Hsame. right; right. split; [lia |]. split; [reflexivity |].
        intros HT. destruct Hyes as [[x Hx] _]; [split; [exact HT | lia] |].
        discriminate.
Qed.

Lemma macd_result_length (data : list (gmap string value)) (vf xf : string)
  (macdLine signalLine : list (option num)) (T k : nat) :
  (k <= length data)%nat ->
  (forall j, (j < k)%nat ->
     is_Some (cell macdLine j) /\ is_Some (cell signalLine j) <-> (T <= j)%nat) ->
  exists out,
    for_range (fun i result =>
      match cell macdLine i, cell signalLine i with
      | Some m, Some s =>
          d ← elem data i;
          Ok (result ++ [ <["original"%string := get d vf]>
                          (<["histogram"%string := VNum (nsub m s)]>
                           (<["signal"%string := VNum s]>
                            (<["macd"%string := VNum m]>
                             (<[xf := get d xf]> (∅ : gmap string value))))) ])
      | _, _ => Ok result
      end) 0 k []
    = Ok out /\ length out = (k - T)%nat.
Proof.
  intros Hk Hboth. induction k as [|k IH].
  - exists []. split; reflexivity.
  - destruct IH as (out & E & Hlen); [lia | intros j Hj; apply Hboth; lia |].
    rewrite for_range_snoc, E, bind_Ok. simpl Nat.add.
    specialize (Hboth k (Nat.lt_succ_diag_r k)).
    destruct (cell macdLine k) as [m|].
    + destruct (cell signalLine k) as [s|].
      * rewrite elem_lt, bind_Ok by lia. eexists. split; [reflexivity |].
        rewrite length_app. simpl.
        assert (T <= k)%nat by (apply Hboth; split; eexists; reflexivity). lia.
      * exists out. split; [reflexivity |].
        assert (~ (T <= k)%nat)
          by (intros H; apply Hboth in H; destruct H as [_ [x Hx]]; discriminate).
        lia.
    + exists out. split; [reflexivity |].
      assert (~ (T <= k)%nat)
        by (intros H; apply Hboth in H; destruct H as [[x Hx] _]; discriminate).
      lia.
Qed.

Section MACD.

Variable data : list (gmap string value).
Variable params : Params.
Variables fp sp gp : nat.

Hypothesis fast_fp : default (Fin 12) (fastPeriod params) = Fin (INR fp).
Hypothesis slow_sp : default (Fin 26) (slowPeriod params) = Fin (INR sp).
Hypothesis signal_gp : default (Fin 9) (signalPeriod params) = Fin (INR gp).
Hypothesis fp_pos : (0 < fp)%nat.
Hypothesis sp_pos : (0 < sp)%nat.
Hypothesis gp_pos : (0 < gp)%nat.

Lemma calculateMACD_points (T : nat) :
  T = (if (fp <=? sp + gp - 1)%nat then sp + gp - 2 else length data)%nat ->
  exists out,
    calculateMACD data params = Ok out /\
    length out = (length data - T)%nat.
Proof.
  intros HT. unfold calculateMACD. rewrite fast_fp, slow_sp, signal_gp.
  rewrite (check_period_nat "MACD fast" fp fp_pos), bind_Ok.
  rewrite (check_period_nat "MACD slow" sp sp_pos), bind_Ok.
  rewrite (check_period_nat "MACD signal" gp gp_pos), bind_Ok.
  cbv zeta.
  destruct (macd_emas_shape data (default "y"%string (valueField params)) fp sp
              (Fin (INR fp)) (ndiv (Fin 2) (nadd (Fin (INR fp)) (Fin 1)))
              (Fin (INR sp)) (ndiv (Fin 2) (nadd (Fin (INR sp)) (Fin 1)))
              (length data) (le_n _))
    as (f & fE & s & sE & E & Hlf & Hls & Hf & Hs).
  cbv zeta in E. rewrite E, bind_Ok. cbn [fst snd].
  apply macd_result_length; [lia |].
  destruct (macd_line_shape fE sE sp (length data) (length data) (le_n _))
    as (Hlm & Hm).
  pose proof (macd_signal_shape
                (foldl (fun macdLine i =>
                   match (i <? sp - 1)%nat, cell fE i, cell sE i with
                   | false, Some f, Some s => <[i := Some (nsub f s)]> macdLine
                   | _, _, _ => macdLine
                   end) (replicate (length data) None) (seq 0 (length data)))
                sp gp (ndiv (Fin 2) (nadd (Fin (INR gp)) (Fin 1)))
                (length data) (length data) gp_pos (le_n _)) as Hsig.
  cbv zeta in Hsig.
  set (mL := foldl _ (replicate (length data) None) (seq 0 (length data))) in *.
  set (st := foldl _ (None, replicate (length data) None) (seq 0 (length data))) in *.
  destruct Hsig as (_ & Hyes & Hno).
  assert (HmL : forall j, is_Some (cell mL j) <->
            (Nat.max fp sp - 1 <= j < length data)%nat).
  { intros j. rewrite Hm, Hf, Hs. lia. }
  intros j Hj.
  destruct (Nat.leb_spec fp (sp + gp - 1)) as [Hle | Hgt]; subst T.
  - destruct (Nat.lt_ge_cases (sp + gp - 2) (length data)) as [Hin | Hout].
    + destruct Hyes as [_ Hshape]; [split; [apply HmL; lia | exact Hin] |].
      rewrite Hshape, !HmL. lia.
    + destruct Hno as [_ Hnone]; [intros [_ H]; lia |].
      rewrite Hnone. split; [intros [_ [x Hx]]; discriminate | lia].
  - destruct Hno as [_ Hnone]; [intros [H _]; apply HmL in H; lia |].
    rewrite Hnone. split; [intros [_ [x Hx]]; discriminate | lia].
Qed.

End MACD.

(** X17. With three periods that validate, [calculateMACD] never fails,
    whatever the points hold.  When the fast period is at most
    [slow + signal - 1] it returns one point for each index from
    [slow + signal - 2] on; when the fast period is larger than that, the
    signal line is never started and it returns no point at all, however
    long the series is. *)
Theorem calculateMACD_length (data : list (gmap string value))
  (params : Params) (fp sp gp : nat) :
  default (Fin 12) (fastPeriod params) = Fin (INR fp) ->
  default (Fin 26) (slowPeriod params) = Fin (INR sp) ->
  default (Fin 9) (signalPeriod params) = Fin (INR gp) ->
  (0 < fp)%nat -> (0 < sp)%nat -> (0 < gp)%nat ->
  exists out,
    calculateMACD data params = Ok out /\
    length out = (if (fp <=? sp + gp - 1)%nat
                  then length data - (sp + gp - 2) else 0)%nat.
Proof.
  intros Hf Hs Hg Hfp Hsp Hgp.
  destruct (calculateMACD_points data params fp sp gp Hf Hs Hg Hfp Hsp Hgp _ eq_refl)
    as (out & E & Hlen).
  exists out. split; [exact E |].
  rewrite Hlen. destruct (fp <=? sp + gp - 1)%nat; lia.
Qed.

Lemma calculateMACD_length_witness :
  calculateMACD [point_xy 0 1; point_xy 1 2; point_xy 2 4; point_xy 3 8]
    (mkParams None None (Some (Fin (INR 3))) (Some (Fin (INR 1)))
              (Some (Fin (INR 1))) None None)
  = Ok [].
Proof.
  destruct (calculateMACD_length
              [point_xy 0 1; point_xy 1 2; point_xy 2 4; point_xy 3 8]
              (mkParams None None (Some (Fin (INR 3))) (Some (Fin (INR 1)))
                        (Some (Fin (INR 1))) None None) 3 1 1)
    as (out & E & Hlen); [reflexivity | reflexivity | reflexivity | lia | lia | lia |].
  rewrite E. f_equal. destruct out; [reflexivity | discriminate Hlen].
Defined.

(** ** The moving averages side by side *)

Lemma window_values_sum (data : list (gmap string value)) (vf : string)
  (v : nat -> R) (s p : nat) :
  (forall i d, data !! i = Some d -> get d vf = VNum (Fin (v i))) ->
  (s + p <= length data)%nat ->
  foldr nadd (Fin 0)
    (take p (drop s ((fun d => to_num (get d vf)) <$> data)))
  = Fin (fold_right Rplus 0 (map v (seq s p))).
Proof.
  intros Hval. revert s. induction p as [|p IH]; intros s Hs.
  - reflexivity.
  - destruct (lookup_lt_is_Some_2 data s) as [d Hd]; [lia |].
    assert (Hy : ((fun d => to_num (get d vf)) <$> data) !! s = Some (Fin (v s))).
    { rewrite list_lookup_fmap, Hd. cbn [fmap option_fmap option_map].
      rewrite (Hval s d Hd). reflexivity. }
    rewrite (drop_S _ _ _ Hy). cbn [take foldr seq map fold_right].
    rewrite IH by lia. apply nadd_fin.
Qed.

(** X18. On one series of real values, with one period [p] that validates,
    a positive number of deviations and a value field other than
    [original], the three averages run side by side: [calculateSMA],
    [calculateEMA] and [calculateBollingerBands] each return one point for
    each index from [p - 1] on; the middle band of every Bollinger point is
    the simple moving average at the same index; and the exponential
    average starts from the first simple moving average. *)
Theorem moving_averages_agree (data : list (gmap string value))
  (params : Params) (p : nat) (D : R) (v : nat -> R) :
  period params = Some (Fin (INR p)) -> (0 < p)%nat ->
  default (Fin 2) (deviations params) = Fin D -> 0 < D ->
  default "y"%string (valueField params) <> "original"%string ->
  (forall i d, data !! i = Some d ->
     get d (default "y"%string (valueField params)) = VNum (Fin (v i))) ->
  exists sma ema bands,
    calculateSMA data params = Ok sma /\
    calculateEMA data params = Ok ema /\
    calculateBollingerBands data params = Ok bands /\
    length sma = (length data - (p - 1))%nat /\
    length ema = (length data - (p - 1))%nat /\
    length bands = (length data - (p - 1))%nat /\
    (forall k eS eB, sma !! k = Some eS -> bands !! k = Some eB ->
       get eB "middle" = get eS (default "y"%string (valueField params))) /\
    (forall eS eE, sma !! 0%nat = Some eS -> ema !! 0%nat = Some eE ->
       get eE (default "y"%string (valueField params))
       = get eS (default "y"%string (valueField params))).
Proof.
  intros Hper Hp Hdev HD Hvf Hval.
  assert (Hp0 : 0 < INR p) by (apply lt_0_INR; exact Hp).
  assert (H14 : default (Fin 14) (period params) = Fin (INR p))
    by (rewrite Hper; reflexivity).
  assert (H20 : default (Fin 20) (period params) = Fin (INR p))
    by (rewrite Hper; reflexivity).
  assert (Hnum : Forall (fun d => exists x,
            get d (default "y"%string (valueField params)) = VNum x) data).
  { apply Forall_lookup. intros i d Hd. eexists. apply (Hval i d Hd). }
  eexists _, _, _.
  split; [apply (calculateSMA_value data params p H14 Hp Hnum) |].
  split; [apply (calculateEMA_value data params p v H14 Hp Hval) |].
  split; [apply (calculateBollingerBands_value data params p D v H20 Hp Hdev HD Hval) |].
  rewrite !length_map, !length_seq.
  split; [reflexivity |]. split; [reflexivity |]. split; [reflexivity |].
  set (vf := default "y"%string (valueField params)) in *.
  assert (Hsma : forall i, (p - 1 <= i < length data)%nat ->
    ndiv (foldr nadd (Fin 0)
            (take p (drop (i + 1 - p) ((fun d => to_num (get d vf)) <$> data))))
         (Fin (INR p))
    = Fin (window_mean v p i)).
  { intros i Hi. rewrite (window_values_sum data vf v) by (try lia; exact Hval).
    rewrite ndiv_fin by lra. reflexivity. }
  split.
  - intros k eS eB HS HB. rewrite list_lookup_fmap in HS, HB.
    destruct (seq (p - 1) (length data - (p - 1)) !! k) as [i|] eqn:Ei;
      [| discriminate].
    apply lookup_seq in Ei. destruct Ei as [-> Hk].
    injection HS as <-. injection HB as <-.
    rewrite !get_insert.
    repeat match goal with
    | |- context [decide (?a = ?b)] =>
        destruct (decide (a = b)) as [? | ?];
          [try discriminate; try congruence | try congruence]
    end.
    rewrite Hsma by lia. reflexivity.
  - intros eS eE HS HE. rewrite list_lookup_fmap in HS, HE.
    destruct (decide (p - 1 < length data)%nat) as [Hin | Hout].
    + rewrite lookup_seq_lt in HS, HE by lia.
      injection HS as <-. injection HE as <-.
      rewrite !get_insert.
      repeat match goal with
      | |- context [decide (?a = ?b)] =>
          destruct (decide (a = b)) as [? | ?];
            [try discriminate; try congruence | try congruence]
      end.
      rewrite Hsma by lia. do 2 f_equal.
      cbn [ema_avg]. unfold window_mean. rewrite window_sum_prefix by lia.
      replace (p - 1 + 0 + 1)%nat with p by lia. rewrite Nat.sub_diag.
      cbn [prefix_sum]. field. lra.
    + rewrite lookup_seq_ge in HS by lia. discriminate.
Qed.

Lemma moving_averages_agree_witness :
  exists sma ema bands,
    calculateSMA [point_xy 0 10; point_xy 1 12; point_xy 2 9]
      (mkParams (Some (Fin (INR 2))) None None None None None None) = Ok sma /\
    calculateEMA [point_xy 0 10; point_xy 1 12; point_xy 2 9]
      (mkParams (Some (Fin (INR 2))) None None None None None None) = Ok ema /\
    calculateBollingerBands [point_xy 0 10; point_xy 1 12; point_xy 2 9]
      (mkParams (Some (Fin (INR 2))) None None None None None None) = Ok bands /\
    length sma = 2%nat /\ length ema = 2%nat /\ length bands = 2%nat.
Proof.
  destruct (moving_averages_agree
              [point_xy 0 10; point_xy 1 12; point_xy 2 9]
              (mkParams (Some (Fin (INR 2))) None None None None None None)
              2%nat 2 (fun i => nth i [10; 12; 9] 0))
    as (sma & ema & bands & ES & EE & EB & LS & LE & LB & _).
  - reflexivity.
  - lia.
  - reflexivity.
  - lra.
  - discriminate.
  - intros i d. cbn [valueField from_option].
    destruct i as [|[|[|i]]]; cbn [lookup list_lookup];
      intros [= <-]; apply point_xy_y.
  - exists sma, ema, bands. repeat split; assumption.
Defined.

(** ** The relative strength index on any series *)

Lemma last_entry_snoc (result : list (gmap string value)) :
  (0 < length result)%nat -> exists e, last_entry result = Ok e.
Proof.
  intros Hlen. unfold last_entry.
  destruct (last result) as [e|] eqn:E; [eexists; reflexivity |].
  apply last_None in E. subst result. simpl in Hlen. lia.
Qed.

Lemma calculateRSI_turns (data : list (gmap string value)) (vf xf : string)
  (p : nat) (per : num) (k : nat) :
  (0 < p)%nat -> (k <= length data)%nat ->
  exists gains losses out,
    for_range (fun i '(gains, losses, result) =>
      if (i =? 0)%nat then Ok (gains, losses, result)
      else
        cur ← elem data i;
        prev ← elem data (i - 1);
        let currentValue := to_num (get cur vf) in
        let previousValue := to_num (get prev vf) in
        let change := nsub currentValue previousValue in
        if (i <=? p)%nat then
          let '(gains, losses) :=
            if nge change (Fin 0) then (nadd gains change, losses)
            else (gains, nsub losses change) in
          if (i <? p)%nat then Ok (gains, losses, result)
          else
            let avgGain := ndiv gains per in
            let avgLoss := ndiv losses per in
            Ok (gains, losses,
                result ++ [rsi_entry xf vf cur avgGain avgLoss])
        else
          prevEntry ← last_entry result;
          let previousAvgGain := to_num (get prevEntry "avgGain") in
          let previousAvgLoss := to_num (get prevEntry "avgLoss") in
          let currentGain := if nge change (Fin 0) then change else Fin 0 in
          let currentLoss := if nlt change (Fin 0) then nneg change else Fin 0 in
          let avgGain :=
            ndiv (nadd (nmul previousAvgGain (nsub per (Fin 1))) currentGain)
                 per in
          let avgLoss :=
            ndiv (nadd (nmul previousAvgLoss (nsub per (Fin 1))) currentLoss)
                 per in
          Ok (gains, losses,
              result ++ [rsi_entry xf vf cur avgGain avgLoss]))
      0 k (Fin 0, Fin 0, [])
    = Ok (gains, losses, out) /\ length out = (k - p)%nat.
Proof.
  intros Hp Hk. induction k as [|k IH].
  - eexists _, _, _. split; reflexivity.
  - destruct IH as (g & l & out & E & Hlen); [lia |].
    rewrite for_range_snoc, E, bind_Ok. simpl Nat.add. cbv beta iota.
    destruct (Nat.eqb_spec k 0) as [-> | Hk0].
    { exists g, l, out. split; [reflexivity | lia]. }
    rewrite !elem_lt, !bind_Ok by lia. cbv zeta.
    destruct (Nat.leb_spec k p) as [Hle | Hgt].
    + destruct (nge _ (Fin 0));
        (destruct (Nat.ltb_spec k p) as [Hlt | Hge];
         [ eexists _, _, _; split; [reflexivity | lia]
         | eexists _, _, _; split; [reflexivity |];
           rewrite length_app; simpl; lia ]).
    + destruct (last_entry_snoc out) as [e He]; [lia |].
      rewrite He, bind_Ok.
      eexists _, _, _. split; [reflexivity |].
      rewrite length_app. simpl. lia.
Qed.

(** X19. Once its period has validated as [p], [calculateRSI] never fails,
    whatever the points hold (a missing value enters the averages as
    [NaN]), and returns one entry for each index from [p] on: the entry it
    reads back at every later index is always there. *)
Theorem calculateRSI_total (data : list (gmap string value))
  (params : Params) (p : nat) :
  default (Fin 14) (period params) = Fin (INR p) ->
  (0 < p)%nat ->
  exists out,
    calculateRSI data params = Ok out /\
    length out = (length data - p)%nat.
Proof.
  intros Hper Hp. unfold calculateRSI. rewrite Hper.
  rewrite check_period_nat, bind_Ok by exact Hp.
  destruct (calculateRSI_turns data (default "y"%string (valueField params))
              (default "x"%string (xField params)) p (Fin (INR p))
              (length data) Hp (le_n _)) as (g & l & out & E & Hlen).
  exists out. split; [| exact Hlen].
  cbv zeta. cbv zeta in E.
  etransitivity; [apply (f_equal (fun r => mbind _ r)); exact E |].
  reflexivity.
Qed.

Lemma calculateRSI_total_witness :
  exists out,
    calculateRSI [ <["x"%string := VNum (Fin 0)]> ∅; point_xy 1 2; ∅ ]
      (mkParams (Some (Fin (INR 1))) None None None None None None) = Ok out /\
    length out = 2%nat.
Proof.
  apply (calculateRSI_total
           [ <["x"%string := VNum (Fin 0)]> ∅; point_xy 1 2; ∅ ]
           (mkParams (Some (Fin (INR 1))) None None None None None None) 1%nat).
  - reflexivity.
  - lia.
Defined.

(** ** A flat series *)

Lemma window_sum_constant (c : R) (p i : nat) :
  window_sum (fun _ => c) p i = INR p * c.
Proof.
  unfold window_sum. generalize (i + 1 - p)%nat.
  induction p as [|p IH]; intros s.
  - simpl. ring.
  - rewrite S_INR. cbn [seq map fold_right]. rewrite IH. ring.
Qed.

Lemma window_mean_constant (c : R) (p i : nat) :
  (0 < p)%nat -> window_mean (fun _ => c) p i = c.
Proof.
  intros Hp. assert (0 < INR p) by (apply lt_0_INR; exact Hp).
  unfold window_mean. rewrite window_sum_constant. field. lra.
Qed.

Lemma window_dev_constant (c : R) (p i : nat) :
  (0 < p)%nat -> window_dev (fun _ => c) p i = 0.
Proof.
  intros Hp. assert (0 < INR p) by (apply lt_0_INR; exact Hp).
  unfold window_dev. rewrite window_mean_constant by exact Hp.
  rewrite (window_sum_constant ((c - c) * (c - c)) p i).
  replace (INR p * ((c - c) * (c - c)) / INR p) with 0 by (field; lra).
  apply sqrt_0.
Qed.

Lemma map_seq_shift {A : Type} (f : nat -> A) (s m : nat) :
  map (fun k => f (s + k)%nat) (seq 0 m) = map f (seq s m).
Proof.
  revert s f. induction m as [|m IH]; intros s f; [reflexivity |].
  cbn [seq map]. rewrite Nat.add_0_r. f_equal.
  rewrite <- (IH (S s)), <- seq_shift, map_map.
  apply map_ext. intros k. f_equal. lia.
Qed.

(** X20.  In exact arithmetic (rounding is not modelled; on binary64
    numbers the sum of [p] copies of [c] divided by [p] can differ from [c]
    by a rounding error, and the results below with it).  On a series
    whose every value is the same number [c], with one period that
    validates and a positive number of deviations, the simple
    and the exponential moving average return the same points, all of
    value [c], and the three Bollinger bands collapse onto [c]. *)
Theorem flat_series_averages (data : list (gmap string value))
  (params : Params) (p : nat) (D c : R) :
  period params = Some (Fin (INR p)) -> (0 < p)%nat ->
  default (Fin 2) (deviations params) = Fin D -> 0 < D ->
  (forall d, d ∈ data ->
     get d (default "y"%string (valueField params)) = VNum (Fin c)) ->
  calculateSMA data params
  = Ok (map (fun i =>
          <["original"%string := VNum (Fin c)]>
          (<[default "y"%string (valueField params) := VNum (Fin c)]>
           (<[default "x"%string (xField params) :=
                get (data !!! i) (default "x"%string (xField params))]> ∅)))
        (seq (p - 1) (length data - (p - 1))))
  /\
  calculateEMA data params = calculateSMA data params
  /\
  calculateBollingerBands data params
  = Ok (map (fun i =>
          <["original"%string := VNum (Fin c)]>
          (<["lower"%string := VNum (Fin c)]>
           (<["upper"%string := VNum (Fin c)]>
            (<["middle"%string := VNum (Fin c)]>
             (<[default "x"%string (xField params) :=
                  get (data !!! i) (default "x"%string (xField params))]> ∅)))))
        (seq (p - 1) (length data - (p - 1)))).
Proof.
  intros Hper Hp Hdev HD Hflat.
  assert (Hp0 : 0 < INR p) by (apply lt_0_INR; exact Hp).
  assert (H14 : default (Fin 14) (period params) = Fin (INR p))
    by (rewrite Hper; reflexivity).
  assert (H20 : default (Fin 20) (period params) = Fin (INR p))
    by (rewrite Hper; reflexivity).
  set (vf := default "y"%string (valueField params)) in *.
  set (xf := default "x"%string (xField params)) in *.
  assert (Hval : forall i d, data !! i = Some d ->
            get d vf = VNum (Fin ((fun _ : nat => c) i))).
  { intros i d Hd. apply Hflat. apply list_elem_of_lookup. eauto. }
  assert (Hnum : Forall (fun d => exists x, get d vf = VNum x) data).
  { apply Forall_forall. intros d Hd. eexists. apply (Hflat d Hd). }
  assert (Hsma : calculateSMA data params
    = Ok (map (fun i =>
            <["original"%string := VNum (Fin c)]>
            (<[vf := VNum (Fin c)]>
             (<[xf := get (data !!! i) xf]> ∅)))
          (seq (p - 1) (length data - (p - 1))))).
  { rewrite (calculateSMA_value data params p H14 Hp Hnum). f_equal.
    apply map_ext_in. intros i Hi. apply in_seq in Hi.
    fold vf xf.
    rewrite (window_values_sum data vf (fun _ => c)) by (try lia; exact Hval).
    rewrite ndiv_fin by lra.
    change (fold_right Rplus 0 (map (fun _ : nat => c) (seq (i + 1 - p) p)))
      with (window_sum (fun _ => c) p i).
    rewrite window_sum_constant.
    replace (INR p * c / INR p) with c by (field; lra).
    rewrite (Hflat (data !!! i)); [reflexivity |].
    apply list_elem_of_lookup. exists i.
    apply list_lookup_lookup_total_lt. lia. }
  split; [exact Hsma |]. split.
  - rewrite Hsma.
    rewrite (calculateEMA_value data params p (fun _ => c) H14 Hp Hval).
    f_equal. fold vf xf.
    rewrite <- (map_seq_shift
                  (fun i => <["original"%string := VNum (Fin c)]>
                            (<[vf := VNum (Fin c)]>
                             (<[xf := get (data !!! i) xf]> ∅)))
                  (p - 1) (length data - (p - 1))).
    apply map_ext. intros k.
    assert (E : ema_avg (fun _ => c) p k = c).
    { apply Rle_antisym; apply (ema_avg_bounds (fun _ => c) p c c k Hp);
        intros; lra. }
    rewrite E. reflexivity.
  - rewrite (calculateBollingerBands_value data params p D (fun _ => c)
               H20 Hp Hdev HD Hval).
    f_equal. apply map_ext. intros i. fold xf.
    rewrite window_mean_constant, window_dev_constant by exact Hp.
    replace (c - 0 * D) with c by ring. replace (c + 0 * D) with c by ring.
    reflexivity.
Qed.

Lemma flat_series_averages_witness :
  calculateEMA [point_xy 0 7; point_xy 1 7; point_xy 2 7]
    (mkParams (Some (Fin (INR 2))) None None None None None None)
  = calculateSMA [point_xy 0 7; point_xy 1 7; point_xy 2 7]
      (mkParams (Some (Fin (INR 2))) None None None None None None).
Proof.
  refine (proj1 (proj2 (flat_series_averages
            [point_xy 0 7; point_xy 1 7; point_xy 2 7]
            (mkParams (Some (Fin (INR 2))) None None None None None None)
            2%nat 2 7 _ _ _ _ _))); [reflexivity | lia | reflexivity | lra |].
  intros d Hd. cbn [valueField from_option].
  repeat (apply elem_of_cons in Hd; destruct Hd as [-> | Hd]);
    [apply point_xy_y | apply point_xy_y | apply point_xy_y | inversion Hd].
Defined.

(** ** Layers of a stacked chart *)

Lemma or_zero_fin (v : value) : exists r : R, or_zero v = Fin r.
Proof.
  destruct v as [|[r|]]; simpl; try (eexists; reflexivity).
  destruct (Req_dec_T r 0); eexists; reflexivity.
Qed.

Lemma nsum_fin {A : Type} (f : A -> num) (l : list A) :
  (forall a, exists r : R, f a = Fin r) ->
  exists r : R, foldr nadd (Fin 0) (map f l) = Fin r.
Proof.
  intros Hf. induction l as [|a l IH]; [eexists; reflexivity |].
  destruct IH as [r Hr]. destruct (Hf a) as [x Hx].
  cbn [map foldr]. rewrite Hr, Hx, nadd_fin. eexists. reflexivity.
Qed.

(** What the lookup map of a series holds at a key is the y of one of its
    points, if anything. *)
Lemma Map_get_datasetMap (xField yField : string) (ds : dataset) (x : num) :
  Map_get (datasetMap xField yField ds) x = VUndef \/
  exists d y, d ∈ ds_data ds /\ get d yField = VNum y /\
              Map_get (datasetMap xField yField ds) x = VNum y.
Proof.
  unfold datasetMap.
  assert (G : forall data m,
    Map_get (foldl (fun m d =>
               match get d xField, get d yField with
               | VNum xVal, VNum y => Map_set m xVal (VNum y)
               | _, _ => m
               end) m data) x = Map_get m x \/
    exists d y, d ∈ data /\ get d yField = VNum y /\
      Map_get (foldl (fun m d =>
                 match get d xField, get d yField with
                 | VNum xVal, VNum y => Map_set m xVal (VNum y)
                 | _, _ => m
                 end) m data) x = VNum y).
  { induction data as [|d data IH]; intros m; [left; reflexivity |].
    cbn [foldl].
    destruct (IH (match get d xField, get d yField with
                  | VNum xVal, VNum y => Map_set m xVal (VNum y)
                  | _, _ => m
                  end)) as [E | (d' & y & Hd' & Hy & E)].
    - rewrite E. destruct (get d xField) as [|k]; [left; reflexivity |].
      destruct (get d yField) as [|y] eqn:Ey; [left; reflexivity |].
      unfold Map_set. cbn [Map_get].
      destruct (decide (k = x)); [| left; reflexivity].
      right. exists d, y. split; [left |]. split; [exact Ey | reflexivity].
    - right. exists d', y. split; [right; exact Hd' |]. split; [exact Hy | exact E]. }
  destruct (G (ds_data ds) []) as [E | H]; [left; exact E | right; exact H].
Qed.

(** X21.  In exact arithmetic (rounding is not modelled; on binary64
    numbers the two sums are taken in different orders and a layer can
    come out a rounding error below the one it rests on, see
    [stacked_layer_rounded]), the layers of a stacked chart rest on one
    another.  With three different names for the x field, the y field and
    [originalValue], and
    for [k >= 2]: the [j]-th point of stacked series [k] and the [j]-th
    point of stacked series [k - 1] have the same x, both carry a finite y,
    and the y of the upper one is the y of the lower one plus the upper
    series' own value there (its [originalValue], 0 where it has none).
    When no y of series [k] is negative, its layer lies on or above the
    one below it. *)
Theorem createStackedData_layers (xField yField : string)
  (datasets : list dataset) (k j : nat) (upper lower : dataset)
  (e e' : gmap string value) :
  xField <> yField -> xField <> "originalValue"%string ->
  yField <> "originalValue"%string ->
  (2 <= k)%nat ->
  createStackedData xField yField datasets !! k = Some upper ->
  createStackedData xField yField datasets !! (k - 1)%nat = Some lower ->
  ds_data upper !! j = Some e -> ds_data lower !! j = Some e' ->
  exists own below : R,
    get e xField = get e' xField /\
    get e' yField = VNum (Fin below) /\
    get e "originalValue" = VNum (Fin own) /\
    get e yField = VNum (Fin (below + own)) /\
    ((forall ds d r, datasets !! k = Some ds -> d ∈ ds_data ds ->
        get d yField = VNum (Fin r) -> 0 <= r) ->
     0 <= own).
Proof.
  intros Hxy Hxo Hyo Hk Hup Hlo He He'.
  unfold createStackedData in Hup, Hlo.
  rewrite list_lookup_imap in Hup, Hlo.
  destruct (datasets !! k) as [dk|] eqn:Edk; [| discriminate].
  destruct (datasets !! (k - 1)%nat) as [dk1|] eqn:Edk1; [| discriminate].
  cbn [fmap option_fmap option_map] in Hup, Hlo.
  replace (k =? 0)%nat with false in Hup by (symmetry; apply Nat.eqb_neq; lia).
  replace (k - 1 =? 0)%nat with false in Hlo by (symmetry; apply Nat.eqb_neq; lia).
  injection Hup as <-. injection Hlo as <-. cbn [ds_data] in He, He'.
  rewrite list_lookup_fmap in He, He'.
  destruct (Array_sort (fun a b => nsub a b) (allXValues xField datasets) !! j)
    as [x|]; [| discriminate].
  cbn [fmap option_fmap option_map] in He, He'.
  injection He as <-. injection He' as <-.
  set (maps := map (datasetMap xField yField) datasets).
  set (own := fun i => or_zero (Map_get (default [] (maps !! i)) x)).
  assert (Hown : forall i, exists r : R, own i = Fin r)
    by (intros i; apply or_zero_fin).
  destruct (nsum_fin own (seq 0 (k - 1)) Hown) as [base Hbase].
  destruct (Hown k) as [rk Hrk]. destruct (Hown (k - 1)%nat) as [rk1 Hrk1].
  exists rk, (rk1 + base).
  rewrite !get_insert.
  destruct (decide ("originalValue"%string = xField)) as [E | _];
    [exfalso; apply Hxo; symmetry; exact E |].
  destruct (decide (yField = xField)) as [E | _];
    [exfalso; apply Hxy; symmetry; exact E |].
  destruct (decide (xField = xField)) as [_ | N]; [| contradiction].
  destruct (decide ("originalValue"%string = yField)) as [E | _];
    [exfalso; apply Hyo; symmetry; exact E |].
  destruct (decide (yField = yField)) as [_ | N]; [| contradiction].
  destruct (decide ("originalValue"%string = "originalValue"%string))
    as [_ | N]; [| contradiction].
  split; [reflexivity |].
  split.
  { f_equal. rewrite (foldl_nadd own). fold (own (k - 1)%nat).
    rewrite Hrk1, Hbase. apply nadd_fin. }
  split; [f_equal; exact Hrk |].
  split.
  { f_equal. rewrite (foldl_nadd own). fold (own k).
    replace k with (S (k - 1)) at 2 by lia.
    rewrite seq_S, map_app, nsum_app. cbn [map foldr Nat.add].
    rewrite Hrk, Hbase, Hrk1. rewrite !nadd_fin. f_equal. ring. }
  intros Hpos. unfold own, maps in Hrk.
  rewrite list_lookup_fmap, Edk in Hrk. cbn [fmap option_fmap option_map from_option] in Hrk.
  unfold Datatypes.id in Hrk.
  destruct (Map_get_datasetMap xField yField dk x) as [E | (d & y & Hd & Hy & E)];
    rewrite E in Hrk.
  - injection Hrk as <-. lra.
  - destruct y as [r|]; cbn [or_zero] in Hrk.
    + destruct (Req_dec_T r 0); injection Hrk as <-; [lra |].
      apply (Hpos dk d r eq_refl Hd Hy).
    + injection Hrk as <-. lra.
Qed.

Lemma createStackedData_layers_witness :
  exists (upper : dataset) (e : gmap string value) (own below : R),
    createStackedData "x" "y"
      [mkDataset "a" "A" "red" (Fin 1) "area" [point_xy 1 5];
       mkDataset "b" "B" "blue" (Fin 1) "area" [];
       mkDataset "c" "C" "green" (Fin 1) "area" []] !! 2%nat = Some upper /\
    ds_data upper !! 0%nat = Some e /\
    get e "y" = VNum (Fin (below + own)) /\ 0 <= own.
Proof.
  eexists _, _.
  edestruct (createStackedData_layers "x" "y"
    [mkDataset "a" "A" "red" (Fin 1) "area" [point_xy 1 5];
     mkDataset "b" "B" "blue" (Fin 1) "area" [];
     mkDataset "c" "C" "green" (Fin 1) "area" []] 2 0)
    as (own & below & _ & _ & _ & Hy & Hpos).
  - discriminate.
  - discriminate.
  - discriminate.
  - lia.
  - reflexivity.
  - reflexivity.
  - reflexivity.
  - reflexivity.
  - exists own, below. split; [reflexivity |]. split; [reflexivity |].
    split; [exact Hy |]. apply Hpos.
    intros ds d r Hds Hd Hr. cbn [lookup list_lookup] in Hds.
    injection Hds as <-. cbn [ds_data] in Hd. inversion Hd.
Defined.

Section LayersRounding.

Import PrimFloat.

(** What rounding does to the layers.  Three series with the values 0.1,
    0.4 and 0.1 at the key 1 and a fourth one with no point: the third
    layer is [(0.1 + 0.1) + 0.4], which rounds to 0.6000000000000001, and
    the fourth, whose own value is 0, is [((0 + 0.1) + 0.4) + 0.1], which
    is 0.6. *)
Lemma stacked_layer_rounded :
  let series := fun data => F64.mkDataset "s" "S" "red" 1%float "area" data in
  let datasets := [series [F64.point_xy 1 0.1]; series [F64.point_xy 1 0.4];
                   series [F64.point_xy 1 0.1]; series []]%float in
  exists lower upper e' e,
    F64.createStackedData "x" "y" datasets !! 2%nat = Some lower /\
    F64.createStackedData "x" "y" datasets !! 3%nat = Some upper /\
    F64.ds_data lower !! 0%nat = Some e' /\
    F64.ds_data upper !! 0%nat = Some e /\
    F64.get e' "y" = F64.VNum 0.6000000000000001%float /\
    F64.get e "originalValue" = F64.VNum 0%float /\
    F64.get e "y" = F64.VNum 0.6%float.
Proof.
  cbv zeta. eexists _, _, _, _.
  repeat (split; [vm_compute; reflexivity |]).
  vm_compute. reflexivity.
Qed.

End LayersRounding.

(** ** The indicators with their default parameters *)

Lemma INR_literal (n : nat) (r : R) : INR n = r -> Fin r = Fin (INR n).
Proof. intros <-. reflexivity. Qed.

(** X22.  Called through [calculateIndicator] with no parameters on a
    series that is not empty and has a number as the [y] of every point,
    each indicator returns, under every name that [toLowerCase] takes to
    its name in the [switch] (its name in any letter case): the simple and
    the exponential moving average, one point for each index from 13 on;
    the Bollinger bands, from 19 on; the RSI, from 14 on; the MACD, from
    33 on. *)
Theorem default_indicator_lengths (data : list (gmap string value))
  (sma_name ema_name bollinger_name rsi_name macd_name : string) :
  data <> [] ->
  Forall (fun d => exists v, get d "y" = VNum v) data ->
  toLowerCase sma_name = "sma"%string ->
  toLowerCase ema_name = "ema"%string ->
  toLowerCase bollinger_name = "bollinger"%string ->
  toLowerCase rsi_name = "rsi"%string ->
  toLowerCase macd_name = "macd"%string ->
  exists sma ema bands rsi macd,
    calculateIndicator sma_name (JArray data) no_params = Ok sma /\
    length sma = (length data - 13)%nat /\
    calculateIndicator ema_name (JArray data) no_params = Ok ema /\
    length ema = (length data - 13)%nat /\
    calculateIndicator bollinger_name (JArray data) no_params = Ok bands /\
    length bands = (length data - 19)%nat /\
    calculateIndicator rsi_name (JArray data) no_params = Ok rsi /\
    length rsi = (length data - 14)%nat /\
    calculateIndicator macd_name (JArray data) no_params = Ok macd /\
    length macd = (length data - 33)%nat.
Proof.
  intros Hne Hnum Nsma Nema Nbb Nrsi Nmacd.
  assert (Hlen : (length data =? 0)%nat = false).
  { apply Nat.eqb_neq. destruct data; [contradiction | simpl; lia]. }
  assert (H14 : default (Fin 14) (period no_params) = Fin (INR 14))
    by (apply INR_literal; simpl; lra).
  assert (H20 : default (Fin 20) (period no_params) = Fin (INR 20))
    by (apply INR_literal; simpl; lra).
  assert (H12 : default (Fin 12) (fastPeriod no_params) = Fin (INR 12))
    by (apply INR_literal; simpl; lra).
  assert (H26 : default (Fin 26) (slowPeriod no_params) = Fin (INR 26))
    by (apply INR_literal; simpl; lra).
  assert (H9 : default (Fin 9) (signalPeriod no_params) = Fin (INR 9))
    by (apply INR_literal; simpl; lra).
  destruct (calculateEMA_total data no_params 14 H14 ltac:(lia))
    as (ema & Eema & Lema).
  assert (Hbb : exists bands,
            calculateBollingerBands data no_params = Ok bands /\
            length bands = (length data - 19)%nat).
  { unfold calculateBollingerBands. rewrite H20.
    rewrite check_period_nat, bind_Ok by lia.
    cbn [deviations no_params from_option]. unfold Datatypes.id.
    rewrite nle_false by lra. apply calculateBollingerBands_total. lia. }
  destruct Hbb as (bands & Ebb & Lbb).
  destruct (calculateRSI_turns data "y" "x" 14 (Fin (INR 14)) (length data)
              ltac:(lia) (le_n _)) as (g & l & rsi & Ersi & Lrsi).
  destruct (calculateMACD_points data no_params 12 26 9 H12 H26 H9
              ltac:(lia) ltac:(lia) ltac:(lia) 33 eq_refl)
    as (macd & Emacd & Lmacd).
  eexists _, ema, bands, rsi, macd.
  unfold calculateIndicator.
  cbn [falsy Array_isArray elements_of negb orb]. rewrite Hlen.
  cbv zeta. rewrite Nsma, Nema, Nbb, Nrsi, Nmacd.
  simpl String.eqb. cbv iota.
  split; [apply (calculateSMA_value data no_params 14 H14 ltac:(lia) Hnum) |].
  split; [rewrite length_map, length_seq; reflexivity |].
  split; [exact Eema |]. split; [exact Lema |].
  split; [exact Ebb |]. split; [exact Lbb |].
  split.
  { unfold calculateRSI. rewrite H14.
    rewrite check_period_nat, bind_Ok by lia.
    cbv zeta. cbv zeta in Ersi. cbn [valueField xField no_params from_option].
    unfold Datatypes.id.
    etransitivity; [apply (f_equal (fun r => mbind _ r)); exact Ersi |].
    reflexivity. }
  split; [exact Lrsi |]. split; [exact Emacd | exact Lmacd].
Qed.

Lemma default_indicator_lengths_witness :
  exists sma ema bands rsi macd,
    calculateIndicator "SMA" (JArray (replicate 34 (point_xy 0 1))) no_params
    = Ok sma /\ length sma = 21%nat /\
    calculateIndicator "Ema" (JArray (replicate 34 (point_xy 0 1))) no_params
    = Ok ema /\ length ema = 21%nat /\
    calculateIndicator "BOLLINGER" (JArray (replicate 34 (point_xy 0 1))) no_params
    = Ok bands /\ length bands = 15%nat /\
    calculateIndicator "rSi" (JArray (replicate 34 (point_xy 0 1))) no_params
    = Ok rsi /\ length rsi = 20%nat /\
    calculateIndicator "macD" (JArray (replicate 34 (point_xy 0 1))) no_params
    = Ok macd /\ length macd = 1%nat.
Proof.
  apply (default_indicator_lengths (replicate 34 (point_xy 0 1))
           "SMA" "Ema" "BOLLINGER" "rSi" "macD").
  - discriminate.
  - apply Forall_forall. intros d Hd. apply elem_of_replicate in Hd.
    destruct Hd as [-> _]. eexists. apply point_xy_y.
  - reflexivity.
  - reflexivity.
  - reflexivity.
  - reflexivity.
  - reflexivity.
Defined.

(** ** The tooltip inside its container *)

(** X23. [show] keeps the tooltip inside the container whenever it fits:
    with finite measures, offsets that are not negative and a cursor inside
    the container, the background is as wide as the padded content, capped
    at [maxWidth], and as high as the padded content; the tooltip is never
    placed left of or above the container's origin; and if its width
    (height) is at most the container's, its right (bottom) edge does not
    pass the container's. *)
Theorem tooltip_stays_inside
  (ox oy pt pr pb pl mw bw bh x y width height : R) :
  0 <= ox -> 0 <= oy -> 0 <= x <= width -> 0 <= y <= height ->
  exists w h tx ty : R,
    show_geometry (mkTooltipOptions (Fin ox) (Fin oy) (Fin pt) (Fin pr)
                                    (Fin pb) (Fin pl) (Fin mw))
                  (Fin bw, Fin bh) (Fin x) (Fin y)
                  (Some (Fin width, Fin height))
    = ((Fin w, Fin h), (Fin tx, Fin ty)) /\
    w = Rmin mw (bw + pl + pr) /\ h = bh + pt + pb /\
    0 <= tx /\ 0 <= ty /\
    (w <= width -> tx + w <= width) /\
    (h <= height -> ty + h <= height).
Proof.
  intros Hox Hoy Hx Hy. unfold show_geometry.
  cbn [maxWidth padding_left padding_right padding_top padding_bottom
       offset_x offset_y fst snd].
  rewrite !nadd_fin. cbn [Math_min]. rewrite !nadd_fin, !nsub_fin.
  set (w := Rmin mw (bw + pl + pr)). set (h := bh + pt + pb).
  assert (Hflip : forall c s off lim : R, 0 <= off -> 0 <= c <= lim ->
    exists t : R,
      Math_max (Fin 0)
        (if nlt (Fin lim) (Fin (c + off + s)) then Fin (c - s - off)
         else Fin (c + off)) = Fin t /\
      0 <= t /\ (s <= lim -> t + s <= lim)).
  { intros c s off lim Hoff Hc.
    destruct (Rlt_dec lim (c + off + s)) as [Hover | Hfit].
    - rewrite nlt_true by exact Hover. cbn [Math_max].
      eexists. split; [reflexivity |]. split; [apply Rmax_l |].
      intros Hs. unfold Rmax. destruct (Rle_dec 0 (c - s - off)); lra.
    - rewrite nlt_false by lra. cbn [Math_max].
      eexists. split; [reflexivity |]. split; [apply Rmax_l |].
      intros Hs. unfold Rmax. destruct (Rle_dec 0 (c + off)); lra. }
  destruct (Hflip x w ox width Hox Hx) as (tx & Ex & Htx & Hfx).
  destruct (Hflip y h oy height Hoy Hy) as (ty & Ey & Hty & Hfy).
  exists w, h, tx, ty. rewrite Ex, Ey. repeat split; assumption.
Qed.

Lemma tooltip_stays_inside_witness :
  exists w h tx ty : R,
    show_geometry default_tooltip_options (Fin 120, Fin 32) (Fin 390) (Fin 20)
                  (Some (Fin 400, Fin 300))
    = ((Fin w, Fin h), (Fin tx, Fin ty)) /\
    tx + w <= 400 /\ ty + h <= 300.
Proof.
  destruct (tooltip_stays_inside 10 10 8 8 8 8 300 120 32 390 20 400 300)
    as (w & h & tx & ty & E & Hw & Hh & _ & _ & Hx & Hy); try lra.
  exists w, h, tx, ty. split; [exact E |].
  assert (w = 136).
  { rewrite Hw. unfold Rmin. destruct (Rle_dec 300 (120 + 8 + 8)); lra. }
  split; [apply Hx; lra | apply Hy; lra].
Defined.
